(** * rdm/Indexer.cpp: the indexing coordinator and its merge into the stores

    A shallow embedding of [src/rdm/Indexer.cpp].  Byte arrays are strings of
    8-bit characters, [QHash]/[QSet] are finite maps and sets, the four
    LevelDB stores are finite maps from key bytes to value bytes, and the
    coordinator is a record that is passed through every operation.  The
    worker threads and the coordinator meet in the critical sections the
    mutexes of the file delimit; a run of the system is a sequence of those
    sections. *)

From Stdlib Require Import ZArith String Ascii List.
From stdpp Require Import gmap strings list fin_maps pretty.

Set Warnings "-clear-no-such-hyp".
Open Scope string_scope.

(** ** Byte arrays *)

Abbreviation QByteArray := string (only parsing).

Definition NUL : ascii := "000"%char.
Definition LF : ascii := "010"%char.
Definition SLASH : ascii := "/"%char.
Definition BACKSLASH : ascii := "\"%char.

(** [QByteArray::constData()] hands out a C string; every consumer in this
    file ([std::string::operator+=], the [leveldb::Slice] built from a C
    string, [leveldb::DB::Open]) reads it up to the first NUL byte. *)
Fixpoint constData (s : QByteArray) : string :=
  match s with
  | EmptyString => EmptyString
  | String c r => if decide (c = NUL) then EmptyString else String c (constData r)
  end.

(** [QByteArray::split(sep)]: the pieces between separators, empty pieces
    included; the empty array splits into one empty piece. *)
Fixpoint split (sep : ascii) (s : QByteArray) : list QByteArray :=
  match s with
  | EmptyString => [EmptyString]
  | String c r =>
      if decide (c = sep) then EmptyString :: split sep r
      else match split sep r with
           | [] => [String c EmptyString]
           | w :: ws => String c w :: ws
           end
  end.

(** [QByteArray::isEmpty()] *)
Definition isEmpty (s : QByteArray) : bool :=
  match s with EmptyString => true | _ => false end.

(** [QByteArray::contains(char)] *)
Fixpoint contains (s : QByteArray) (ch : ascii) : bool :=
  match s with
  | EmptyString => false
  | String c r => if decide (c = ch) then true else contains r ch
  end.

(** [QByteArray::at(i)], for [0 <= i < size()]; past the end the array holds
    its terminating NUL. *)
Definition at_ (s : QByteArray) (i : nat) : ascii :=
  default NUL (String.get i s).

(** [QByteArray::mid(pos)]: the bytes from [pos] on; everything when
    [pos < 0], nothing when [pos >= size()]. *)
Definition mid (s : QByteArray) (pos : Z) : QByteArray :=
  String.substring (Z.to_nat pos) (String.length s - Z.to_nat pos) s.

(** [QByteArray::left(len)] *)
Definition left_ (s : QByteArray) (len : nat) : QByteArray :=
  String.substring 0 len s.

(** The scan of [QByteArray::lastIndexOf]: downwards from index [n], the
    first index that holds [ch]; -1 when index 0 was passed. *)
Fixpoint scanDown (s : QByteArray) (ch : ascii) (n : nat) : Z :=
  if decide (at_ s n = ch) then Z.of_nat n
  else match n with
       | O => -1
       | S m => scanDown s ch m
       end.

(** [QByteArray::lastIndexOf(ch, from)]: a negative [from] counts from the
    end, a [from] beyond the size is clamped to the last byte. *)
Definition lastIndexOf (s : QByteArray) (ch : ascii) (from : Z) : Z :=
  let size := Z.of_nat (String.length s) in
  let from := if (from <? 0)%Z then (from + size)%Z
              else if (from >? size)%Z then (size - 1)%Z else from in
  if (from >=? 0)%Z then scanDown s ch (Z.to_nat from) else (-1)%Z.

(** [QByteArray::startsWith(char)] *)
Definition startsWith (s : QByteArray) (c : ascii) : bool :=
  match s with
  | EmptyString => false
  | String a _ => bool_decide (a = c)
  end.

(** [QByteArray::indexOf(ch)]: the first index holding [ch], or -1. *)
Fixpoint indexOf (s : QByteArray) (ch : ascii) : Z :=
  match s with
  | EmptyString => -1
  | String c r =>
      if decide (c = ch) then 0
      else let i := indexOf r ch in if (i <? 0)%Z then (-1)%Z else (i + 1)%Z
  end.

(** A 32-bit [int]: the value an arithmetic result wraps to. *)
Definition INT_MAX : Z := 2147483647.
Definition wrap_int (z : Z) : Z := ((z + 2 ^ 31) mod 2 ^ 32 - 2 ^ 31)%Z.

(** ** Containers *)

Abbreviation QSet := (gset string) (only parsing).
Abbreviation HashSet := (gmap string (gset string)) (only parsing).

(** [QList::toSet()] *)
Definition toSet (l : list QByteArray) : QSet := list_to_set l.

(** [hash[key]] on a non-const [QHash]: the stored set, default-constructed
    (empty) when the key is absent. *)
Definition at_key (h : HashSet) (key : QByteArray) : QSet :=
  default ∅ (h !! key).

(** [hash[key].insert(v)] *)
Definition hash_insert (h : HashSet) (key v : QByteArray) : HashSet :=
  <[key := at_key h key ∪ {[v]}]> h.

(** [hash[key].unite(s)] *)
Definition hash_unite (h : HashSet) (key : QByteArray) (s : QSet) : HashSet :=
  <[key := at_key h key ∪ s]> h.

(** ** The persistent stores *)

Module Database.
Inductive Type_ := Include | Definition_ | Reference | Symbol.
End Database.

(** Categories are compared with [==]. *)
#[global] Instance Type_eq_dec : EqDecision Database.Type_.
Proof. solve_decision. Defined.

(** One LevelDB store: key bytes to value bytes. *)
Abbreviation Store := (gmap string string) (only parsing).
(** The file system holding the stores, by database name. *)
Abbreviation Disk := (gmap string (gmap string string)) (only parsing).

(** The bytes a store holds under a key, none when the key is absent. *)
Definition held (db : Store) (key : string) : string :=
  default EmptyString (db !! key).

(** [db->Get(readopts, key, &value)] on a fresh [std::string value] (line
    77), by the outcome of the read: when it succeeds, [value] holds the
    stored bytes, and is left empty when the key is not found; when it
    fails, [value] is left empty.  The caller drops the [Status]. *)
Definition Get (ok : bool) (db : Store) (key : string) : string :=
  if ok then held db key else EmptyString.

(** A [leveldb::WriteBatch]: the [Put]s in the order they were added. *)
Abbreviation WriteBatch := (list (string * string)) (only parsing).

(** [db->Write(options, &batch)]: the [Put]s applied in order, later ones
    overwriting earlier ones for the same key. *)
Definition Write (batch : WriteBatch) (db : Store) : Store :=
  foldl (fun d kv => <[kv.1 := kv.2]> d) db batch.

(** The set a stored value stands for: its LF-separated pieces, the empty
    piece dropped (lines 79-81). *)
Definition parse (value : string) : QSet :=
  toSet (split LF value) ∖ {[EmptyString]}.

(** The [while (vit != vend)] loop of lines 91-97. *)
Definition serialise (elems : list QByteArray) : string :=
  foldl (fun value v => value ++ constData v ++ String LF EmptyString) EmptyString elems.

(** ** Collaborators outside this file

    libclang's answers about one parsed unit, and the repository's own
    [Database], [Path], [UnitCache] and [Resource] classes. *)

Inductive CXCursorKind :=
  | CXCursor_CXXAccessSpecifier
  | CXCursor_TranslationUnit
  | CXCursor_OtherKind.

(** A cursor with what libclang reports about it: kind, USR, the USR of the
    cursor it references, the file name (a null C string is [None]), line and
    column of its spelling location, whether it is a definition, its display
    name, and its semantic parent. *)
Inductive CXCursor :=
  | NullCursor
  | Cursor (kind : CXCursorKind) (usr referencedUSR : string)
           (file : option string) (line column : N) (isDefinition : bool)
           (displayName : option string) (semanticParent : CXCursor).

(** [enum CXDiagnosticSeverity]: Ignored 0, Note 1, Warning 2, Error 3,
    Fatal 4. *)
Definition CXDiagnostic_Warning : Z := 2.

(** One inclusion reported by [clang_getInclusions]: the included file and
    the files of its inclusion stack, by name. *)
Record Inclusion := {
  included_file : string;
  inclusion_stack : list string
}.

(** The unit behind a [CachedUnit]. *)
Record Unit_ := {
  filename : QByteArray;
  origin : Z;
  diagnostics : list (Z * string);
  inclusions : list Inclusion;
  children : list CXCursor
}.

Class Externals := {
  (** [Database::databaseName(type)] *)
  databaseName : Database.Type_ -> QByteArray;
  (** [Path::resolved(path)] *)
  resolved : string -> QByteArray;
  (** the flags of [UnitCache] *)
  UnitCache_Source : Z;
  UnitCache_AST : Z;
  UnitCache_Force : Z;
  (** [CachedUnit unit(input, arguments, unitMode)] and its [unit()] *)
  cachedUnit : QByteArray -> list QByteArray -> Z -> option Unit_;
  (** [Resource(filename).exists(Resource::Information)] *)
  resourceExists : QByteArray -> bool;
  (** [Resource(filename).read<QList<QByteArray> >(Resource::Information)] *)
  resourceRead : QByteArray -> list QByteArray;
  (** what the two [int] fields of a [new IndexerImpl] hold before anything
      is assigned to them: the class has no constructor (lines 24-48, 366) *)
  fresh_jobCounter : Z;
  fresh_lastJobId : Z
}.

(** What the environment does to one call of [syncData]: whether
    [leveldb::DB::Open] succeeds, whether the [db->Get] for a staged key
    succeeds, and whether [db->Write] succeeds. *)
Record SyncEnv := {
  open_ok : bool;
  read_ok : QByteArray -> bool;
  write_ok : bool
}.

(** ** The coordinator's state *)

Inductive Mode := Normal | Force.

Record IndexerJob := {
  m_mode : Mode;
  m_id : Z;
  m_path : QByteArray;
  m_in : QByteArray;
  m_args : list QByteArray;
  m_defs : HashSet;
  m_refs : HashSet;
  m_syms : HashSet
}.

Record IndexerImpl := {
  jobCounter : Z;
  indexing : QSet;
  path : QByteArray;
  lastJobId : Z;
  jobs : gmap Z IndexerJob;
  incs : HashSet;
  defs : HashSet;
  refs : HashSet;
  syms : HashSet
}.

(** What an operation does besides changing the state: log lines, signal
    connections, jobs handed to the thread pool, and emitted signals. *)
Inductive Effect :=
  | qDebug (msg : string)
  | qWarning (msg : string)
  | Connect (id : Z)
  | PoolStart (job : IndexerJob)
  | EmitDone (id : Z) (input : QByteArray)
  | EmitIndexingDone (id : Z).

Definition SYNCINTERVAL : Z := 10.

Section Indexer.
Context `{Externals}.

(** *** IndexerImpl::syncData (lines 50-106) *)

(** The body of the [while (it != end)] loop, lines 74-100, for the entry
    [(key, set)]: the batch with the [Put] it adds, if any.  [read] tells
    for which staged keys the [Get] of line 77 succeeds. *)
Definition syncEntry (read : QByteArray -> bool) (db : Store) (batch : WriteBatch)
    (key : QByteArray) (set : QSet) : WriteBatch :=
  let value := Get (read key) db (constData key) in
  let newset := toSet (split LF value) ∖ {[EmptyString]} in
  let inter := newset ∩ set in
  if decide (size inter = size set) then batch
  else
    let newset := newset ∪ set in
    let value := serialise (elements newset) in
    (batch ++ [(constData key, value)])%list.

(** The whole loop, over the entries of the staging map. *)
Definition syncBatch (read : QByteArray -> bool) (db : Store) (data : HashSet)
  : WriteBatch :=
  foldl (fun batch kv => syncEntry read db batch kv.1 kv.2) [] (map_to_list data).

(** Returns the staging map and the disk as the call leaves them, and the
    lines the call logged: none, the function has no logging statement and
    drops the status of every [Get] and of [Write].  A store that does not
    exist yet is created empty by [Open] ([create_if_missing]).  From line
    66 on the call holds the mutex of its category. *)
Definition syncData (env : SyncEnv) (data : HashSet) (type : Database.Type_) (disk : Disk)
  : HashSet * Disk * list Effect :=
  let name := databaseName type in
  if isEmpty name then (data, disk, [])
  else if negb (open_ok env) then (data, disk, [])
  else
    let db := default ∅ (disk !! constData name) in
    let batch := syncBatch (read_ok env) db data in
    let db' := if write_ok env then Write batch db else db in
    (∅, <[constData name := db']> disk, []).

(** *** The inclusion walk (lines 136-170) *)

(** [qstrcmp] on two byte arrays compares all their bytes. *)
Definition addInclusion (job : IndexerJob) (inc : string) (impl_incs : HashSet)
  : HashSet :=
  let path := resolved (constData inc) in
  if decide (m_in job = path) then impl_incs
  else hash_insert impl_incs path (m_in job).

Definition inclusionVisitor (job : IndexerJob) (i : Inclusion)
    (impl_incs : HashSet) : HashSet :=
  let impl_incs := addInclusion job (included_file i) impl_incs in
  foldl (fun incs inf => addInclusion job inf incs) impl_incs (inclusion_stack i).

(** *** The AST walk (lines 172-271) *)

Definition clang_isTranslationUnit (kind : CXCursorKind) : bool :=
  match kind with CXCursor_TranslationUnit => true | _ => false end.

(** The [for (;;)] loop of [addNamePermutations], which climbs the semantic
    parents of [cur]. *)
Fixpoint addNamePermutations_from (cur : CXCursor) (qusr qparam qnoparam : QByteArray)
    (syms : HashSet) : HashSet :=
  match cur with
  | NullCursor => syms
  | Cursor kind _ _ _ _ _ _ displayName parent =>
      if clang_isTranslationUnit kind then syms
      else match displayName with
           | None => syms
           | Some name =>
               let name := constData name in
               if (String.length name =? 0)%nat then syms
               else
                 let qname := name in
                 let '(qparam, qnoparam) :=
                   if isEmpty qparam then
                     let qparam := qname ++ qparam in
                     let qnoparam := qname ++ qnoparam in
                     let sp := indexOf qnoparam "("%char in
                     (qparam, if decide (sp ≠ (-1)%Z) then left_ qnoparam (Z.to_nat sp)
                              else qnoparam)
                   else ((qname ++ "::") ++ qparam, (qname ++ "::") ++ qnoparam) in
                 let syms := hash_insert syms qparam qusr in
                 let syms := if decide (qparam ≠ qnoparam)
                             then hash_insert syms qnoparam qusr else syms in
                 addNamePermutations_from parent qusr qparam qnoparam syms
           end
  end.

Definition addNamePermutations (cursor : CXCursor) (usr : string) (job : IndexerJob)
  : IndexerJob :=
  let qusr := constData usr in
  {| m_mode := m_mode job; m_id := m_id job; m_path := m_path job; m_in := m_in job;
     m_args := m_args job; m_defs := m_defs job; m_refs := m_refs job;
     m_syms := addNamePermutations_from cursor qusr EmptyString EmptyString (m_syms job) |}.

(** [!usrlen || (usrlen == 2 && !strncmp(cusr, "c:", 2))] *)
Definition noUSR (cusr : string) : bool :=
  let usrlen := String.length cusr in
  (usrlen =? 0)%nat || ((usrlen =? 2)%nat && String.eqb (String.substring 0 2 cusr) "c:").

Definition indexVisitor (cursor : CXCursor) (job : IndexerJob) : IndexerJob :=
  match cursor with
  | NullCursor => job
  | Cursor kind usr referencedUSR file line col isDef _ _ =>
      match kind with
      | CXCursor_CXXAccessSpecifier => job
      | _ =>
          let cusr := constData usr in
          let cusr := if noUSR cusr then constData referencedUSR else cusr in
          if noUSR cusr then job
          else match file with
               | None => job
               | Some cfilename =>
                   let cfilename := constData cfilename in
                   if (String.length cfilename =? 0)%nat then job
                   else
                     let qloc := resolved cfilename in
                     let qloc := qloc ++ (":" ++ pretty line) ++ ":" ++ pretty col in
                     let job :=
                       if isDef then
                         addNamePermutations cursor cusr
                           {| m_mode := m_mode job; m_id := m_id job; m_path := m_path job;
                              m_in := m_in job; m_args := m_args job;
                              m_defs := hash_insert (m_defs job) cusr qloc;
                              m_refs := m_refs job; m_syms := m_syms job |}
                       else job in
                     {| m_mode := m_mode job; m_id := m_id job; m_path := m_path job;
                        m_in := m_in job; m_args := m_args job; m_defs := m_defs job;
                        m_refs := hash_insert (m_refs job) cusr qloc; m_syms := m_syms job |}
               end
      end
  end.

(** *** The filename symbol (lines 279-302) *)

(** The inner [while (idx > 0 && filename.at(idx - 1) == BACKSLASH)] loop,
    entered with [idx > 0]; [idx] is the successor of the first argument. *)
Fixpoint skipBackslashes (filename : QByteArray) (idx : nat) (backslashes : Z) : Z * Z :=
  match idx with
  | O => (0%Z, backslashes)
  | S m =>
      if decide (at_ filename m = BACKSLASH)
      then skipBackslashes filename m (backslashes + 1)%Z
      else (Z.of_nat (S m), backslashes)
  end.

(** The [for (;;)] loop, started with [idx]: the value of [idx] at the
    [break], or [None] when [fuel] rounds do not reach one. *)
Fixpoint basenameIndex (fuel : nat) (filename : QByteArray) (idx : Z) : option Z :=
  match fuel with
  | O => None
  | S fuel =>
      let backslashes := 0%Z in
      let idx := lastIndexOf filename SLASH idx in
      let '(idx, backslashes) :=
        if (idx >? 0)%Z then skipBackslashes filename (Z.to_nat idx) backslashes
        else (idx, backslashes) in
      if negb (backslashes mod 2 =? 0)%Z || (idx =? 0)%Z then
        let idx := (idx - 1)%Z in
        if (idx =? 0)%Z then Some idx
        else basenameIndex fuel filename idx
      else Some (idx + backslashes)%Z
  end.

Definition addFilenameSymbol (fuel : nat) (filename : QByteArray) (syms : HashSet)
  : option HashSet :=
  match basenameIndex fuel filename (-1) with
  | None => None
  | Some idx =>
      if (idx =? -1)%Z then Some syms
      else Some (hash_insert syms (mid filename (idx + 1)) filename)
  end.

(** *** Folding a job's maps into the shared ones (lines 304-313) *)

Definition uniteSets (dst src : HashSet) : HashSet * HashSet :=
  (foldl (fun dst kv => hash_unite dst kv.1 kv.2) dst (map_to_list src), ∅).

(** *** IndexerJob::run (lines 315-361) *)

Definition warnings (diags : list (Z * string)) : list Effect :=
  omap (fun d => if (d.1 >=? CXDiagnostic_Warning)%Z
                 then Some (qWarning ("clang: " ++ constData d.2)) else None) diags.

(** The job and the shared state as the run leaves them and what the run
    logged and emitted.  The flag tells whether [run] returned: when the
    filename symbol is not found within [fuel] rounds the job is still in
    that loop, with the inclusions recorded and nothing folded. *)
Definition run (fuel : nat) (job : IndexerJob) (impl : IndexerImpl)
  : IndexerJob * IndexerImpl * list Effect * bool :=
  let unitMode := Z.lor UnitCache_Source UnitCache_AST in
  let unitMode := match m_mode job with
                  | Force => Z.lor unitMode UnitCache_Force
                  | Normal => unitMode
                  end in
  match cachedUnit (m_in job) (m_args job) unitMode with
  | Some unit =>
      let log := qDebug "parsing" :: warnings (diagnostics unit) in
      if decide (origin unit = UnitCache_Source) then
        let log := (log ++ [qDebug "reread"])%list in
        let incs' := foldl (fun incs i => inclusionVisitor job i incs)
                           (incs impl) (inclusions unit) in
        let job := foldl (fun job c => indexVisitor c job) job (children unit) in
        match addFilenameSymbol fuel (filename unit) (m_syms job) with
        | None =>
            (job,
             {| jobCounter := jobCounter impl; indexing := indexing impl;
                path := path impl; lastJobId := lastJobId impl; jobs := jobs impl;
                incs := incs'; defs := defs impl; refs := refs impl; syms := syms impl |},
             log, false)
        | Some syms' =>
            let '(defs', job_defs) := uniteSets (defs impl) (m_defs job) in
            let '(refs', job_refs) := uniteSets (refs impl) (m_refs job) in
            let '(syms', job_syms) := uniteSets (syms impl) syms' in
            ({| m_mode := m_mode job; m_id := m_id job; m_path := m_path job;
                m_in := m_in job; m_args := m_args job;
                m_defs := job_defs; m_refs := job_refs; m_syms := job_syms |},
             {| jobCounter := jobCounter impl; indexing := indexing impl;
                path := path impl; lastJobId := lastJobId impl; jobs := jobs impl;
                incs := incs'; defs := defs'; refs := refs'; syms := syms' |},
             (log ++ [EmitDone (m_id job) (m_in job)])%list, true)
        end
      else (job, impl, (log ++ [EmitDone (m_id job) (m_in job)])%list, true)
  | None => (job, impl, [qDebug "got 0 unit"; EmitDone (m_id job) (m_in job)], true)
  end.

(** *** The coordinator (lines 365-458) *)

(** The state the constructor leaves (lines 365-379) in a build without
    assertions.  For a path that does not start with a slash it returns at
    line 370, before anything is assigned: the containers are empty, the
    path is empty, and the two counters hold what the allocation left in
    them.  (With assertions on, line 368 aborts the program instead.) *)
Definition newIndexer (path : QByteArray) : IndexerImpl :=
  if startsWith path SLASH then
    {| jobCounter := 0; indexing := ∅; path := path; lastJobId := 0; jobs := ∅;
       incs := ∅; defs := ∅; refs := ∅; syms := ∅ |}
  else
    {| jobCounter := fresh_jobCounter; indexing := ∅; path := EmptyString;
       lastJobId := fresh_lastJobId; jobs := ∅;
       incs := ∅; defs := ∅; refs := ∅; syms := ∅ |}.

(** [do { id = lastJobId++; } while (jobs.contains(id));] gives the id and
    the new [lastJobId], or [None] when [fuel] probes all hit a job. *)
Fixpoint freeId (fuel : nat) (jobs : gmap Z IndexerJob) (lastJobId : Z) : option (Z * Z) :=
  match fuel with
  | O => None
  | S fuel =>
      let id := lastJobId in
      let lastJobId := wrap_int (lastJobId + 1) in
      if decide (is_Some (jobs !! id)) then freeId fuel jobs lastJobId
      else Some (id, lastJobId)
  end.

Definition index (fuel : nat) (input : QByteArray) (arguments : list QByteArray)
    (mode : Mode) (impl : IndexerImpl) : option (Z * IndexerImpl * list Effect) :=
  if decide (input ∈ indexing impl) then Some ((-1)%Z, impl, [])
  else
    match freeId fuel (jobs impl) (lastJobId impl) with
    | None => None
    | Some (id, lastJobId') =>
        let job := {| m_mode := mode; m_id := id; m_path := path impl; m_in := input;
                      m_args := arguments; m_defs := ∅; m_refs := ∅; m_syms := ∅ |} in
        Some (id,
              {| jobCounter := jobCounter impl; indexing := indexing impl ∪ {[input]};
                 path := path impl; lastJobId := lastJobId';
                 jobs := <[id := job]> (jobs impl);
                 incs := incs impl; defs := defs impl; refs := refs impl;
                 syms := syms impl |},
              [Connect id; PoolStart job])
    end.

Definition reindex (fuel : nat) (filename : QByteArray) (mode : Mode) (impl : IndexerImpl)
  : option (Z * IndexerImpl * list Effect) :=
  let log := [qDebug "trying to reindex"] in
  if negb (resourceExists filename)
  then Some ((-1)%Z, impl, (log ++ [qDebug "but resource does not exist"])%list)
  else
    match resourceRead filename with
    | [] => Some ((-1)%Z, impl, (log ++ [qDebug "no resource data"])%list)
    | input :: data =>
        if isEmpty input then Some ((-1)%Z, impl, (log ++ [qDebug "no resource data"])%list)
        else
          match index fuel input data mode impl with
          | None => None
          | Some (id, impl', out) => Some (id, impl', (log ++ [qDebug "reindexing"] ++ out)%list)
          end
    end.

(** The four [syncData] calls of [jobDone], in their order. *)
Definition syncAll (env : Database.Type_ -> SyncEnv) (impl : IndexerImpl) (disk : Disk)
  : IndexerImpl * Disk * list Effect :=
  let '(incs', disk, log1) :=
    syncData (env Database.Include) (incs impl) Database.Include disk in
  let '(defs', disk, log2) :=
    syncData (env Database.Definition_) (defs impl) Database.Definition_ disk in
  let '(refs', disk, log3) :=
    syncData (env Database.Reference) (refs impl) Database.Reference disk in
  let '(syms', disk, log4) :=
    syncData (env Database.Symbol) (syms impl) Database.Symbol disk in
  ({| jobCounter := jobCounter impl; indexing := indexing impl; path := path impl;
      lastJobId := lastJobId impl; jobs := jobs impl;
      incs := incs'; defs := defs'; refs := refs'; syms := syms' |},
   disk, (log1 ++ log2 ++ log3 ++ log4)%list).

Definition jobDone (env : Database.Type_ -> SyncEnv) (id : Z) (filename : QByteArray)
    (impl : IndexerImpl) (disk : Disk)
  : IndexerImpl * Disk * list Effect :=
  let impl := {| jobCounter := wrap_int (jobCounter impl + 1);
                 indexing := indexing impl ∖ {[filename]};
                 path := path impl; lastJobId := lastJobId impl;
                 jobs := delete id (jobs impl);
                 incs := incs impl; defs := defs impl; refs := refs impl;
                 syms := syms impl |} in
  if bool_decide (jobs impl = ∅) || (jobCounter impl =? SYNCINTERVAL)%Z then
    let '(impl, disk, log) := syncAll env impl disk in
    ({| jobCounter := 0; indexing := indexing impl; path := path impl;
        lastJobId := lastJobId impl; jobs := jobs impl;
        incs := incs impl; defs := defs impl; refs := refs impl; syms := syms impl |},
     disk,
     ([qDebug "syncing"] ++ log ++ [qDebug "synced"; EmitIndexingDone id])%list)
  else (impl, disk, [EmitIndexingDone id]).

(** *** The critical sections of a job

    A job runs on a pool thread ([QThreadPool], line 411) and touches the
    shared maps only while it holds the mutex of one category: once per
    [addInclusion] (line 142) and once per fold (lines 346-354), with the
    mutex released before the next one is taken.  The job object itself
    sits in [jobs] by pointer, so what the job records in its own maps is
    seen through the table. *)

(** The flags a job asks the unit cache for (lines 317-319). *)
Definition unitModeOf (mode : Mode) : Z :=
  match mode with
  | Force => Z.lor (Z.lor UnitCache_Source UnitCache_AST) UnitCache_Force
  | Normal => Z.lor UnitCache_Source UnitCache_AST
  end.

(** The unit a job walks: the cached unit of its input, when it was parsed
    from source (lines 320-340). *)
Definition sourceUnit (job : IndexerJob) : option Unit_ :=
  match cachedUnit (m_in job) (m_args job) (unitModeOf (m_mode job)) with
  | Some unit => if decide (origin unit = UnitCache_Source) then Some unit else None
  | None => None
  end.

(** The files [clang_getInclusions] hands to [addInclusion] for a unit. *)
Definition reportedFiles (unit : Unit_) : list string :=
  inclusions unit ≫= (fun i => included_file i :: inclusion_stack i).

Definition setMaps (job : IndexerJob) (d r s : HashSet) : IndexerJob :=
  {| m_mode := m_mode job; m_id := m_id job; m_path := m_path job; m_in := m_in job;
     m_args := m_args job; m_defs := d; m_refs := r; m_syms := s |}.

Definition setShared (i : IndexerImpl) (table : gmap Z IndexerJob)
    (incs' defs' refs' syms' : HashSet) : IndexerImpl :=
  {| jobCounter := jobCounter i; indexing := indexing i; path := path i;
     lastJobId := lastJobId i; jobs := table;
     incs := incs'; defs := defs'; refs := refs'; syms := syms' |}.

Inductive WorkerAction :=
  (** one [addInclusion] of the job's inclusion walk, under [incMutex] *)
  | WInclude (id : Z) (inc : string)
  (** lines 343-344: the cursor walk and the filename symbol, on the job's
      own maps; nothing when the filename loop does not end within [fuel] *)
  | WVisit (fuel : nat) (id : Z)
  (** lines 346-347, 349-350 and 352-353, each under its own mutex *)
  | WFoldDefs (id : Z)
  | WFoldRefs (id : Z)
  | WFoldSyms (id : Z).

Definition wstep (a : WorkerAction) (i : IndexerImpl) : IndexerImpl :=
  match a with
  | WInclude id inc =>
      match jobs i !! id with
      | Some job =>
          match sourceUnit job with
          | Some unit =>
              if bool_decide (inc ∈ reportedFiles unit)
              then setShared i (jobs i) (addInclusion job inc (incs i))
                     (defs i) (refs i) (syms i)
              else i
          | None => i
          end
      | None => i
      end
  | WVisit fuel id =>
      match jobs i !! id with
      | Some job =>
          match sourceUnit job with
          | Some unit =>
              let job := foldl (fun job c => indexVisitor c job) job (children unit) in
              match addFilenameSymbol fuel (filename unit) (m_syms job) with
              | Some syms' =>
                  setShared i (<[id := setMaps job (m_defs job) (m_refs job) syms']> (jobs i))
                    (incs i) (defs i) (refs i) (syms i)
              | None => i
              end
          | None => i
          end
      | None => i
      end
  | WFoldDefs id =>
      match jobs i !! id with
      | Some job =>
          let '(defs', job_defs) := uniteSets (defs i) (m_defs job) in
          setShared i (<[id := setMaps job job_defs (m_refs job) (m_syms job)]> (jobs i))
            (incs i) defs' (refs i) (syms i)
      | None => i
      end
  | WFoldRefs id =>
      match jobs i !! id with
      | Some job =>
          let '(refs', job_refs) := uniteSets (refs i) (m_refs job) in
          setShared i (<[id := setMaps job (m_defs job) job_refs (m_syms job)]> (jobs i))
            (incs i) (defs i) refs' (syms i)
      | None => i
      end
  | WFoldSyms id =>
      match jobs i !! id with
      | Some job =>
          let '(syms', job_syms) := uniteSets (syms i) (m_syms job) in
          setShared i (<[id := setMaps job (m_defs job) (m_refs job) job_syms]> (jobs i))
            (incs i) (defs i) (refs i) syms'
      | None => i
      end
  end.

(** The sections of a job that is parsed from source, in program order. *)
Definition sectionsOf (fuel : nat) (id : Z) (unit : Unit_) : list WorkerAction :=
  (WInclude id <$> reportedFiles unit)
  ++ [WVisit fuel id; WFoldDefs id; WFoldRefs id; WFoldSyms id].

(** *** The critical sections of [jobDone]

    [jobDone] holds [implMutex] from line 440 to its end, and each
    [syncData] call holds the mutex of its category from line 66 on: a job
    cannot fold a category while that category is synced, and can between
    two of the four calls. *)

(** Lines 442-445. *)
Definition jobDoneHead (id : Z) (filename : QByteArray) (impl : IndexerImpl)
  : IndexerImpl :=
  {| jobCounter := wrap_int (jobCounter impl + 1);
     indexing := indexing impl ∖ {[filename]};
     path := path impl; lastJobId := lastJobId impl;
     jobs := delete id (jobs impl);
     incs := incs impl; defs := defs impl; refs := refs impl; syms := syms impl |}.

(** The test of line 447. *)
Definition syncDue (impl : IndexerImpl) : bool :=
  bool_decide (jobs impl = ∅) || (jobCounter impl =? SYNCINTERVAL)%Z.

(** The staging map that [jobDone] syncs into the store of a category
    (lines 449-452). *)
Definition stagedFor (t : Database.Type_) (i : IndexerImpl) : HashSet :=
  match t with
  | Database.Include => incs i
  | Database.Definition_ => defs i
  | Database.Reference => refs i
  | Database.Symbol => syms i
  end.

Definition setStaged (t : Database.Type_) (data : HashSet) (i : IndexerImpl)
  : IndexerImpl :=
  match t with
  | Database.Include => setShared i (jobs i) data (defs i) (refs i) (syms i)
  | Database.Definition_ => setShared i (jobs i) (incs i) data (refs i) (syms i)
  | Database.Reference => setShared i (jobs i) (incs i) (defs i) data (syms i)
  | Database.Symbol => setShared i (jobs i) (incs i) (defs i) (refs i) data
  end.

(** Line 454. *)
Definition resetCounter (i : IndexerImpl) : IndexerImpl :=
  {| jobCounter := 0; indexing := indexing i; path := path i;
     lastJobId := lastJobId i; jobs := jobs i;
     incs := incs i; defs := defs i; refs := refs i; syms := syms i |}.

(** The four calls of lines 449-452 with their outcomes. *)
Definition syncCalls (env : Database.Type_ -> SyncEnv) : list (Database.Type_ * SyncEnv) :=
  [(Database.Include, env Database.Include);
   (Database.Definition_, env Database.Definition_);
   (Database.Reference, env Database.Reference);
   (Database.Symbol, env Database.Symbol)].

(** ** Runs of the whole indexer

    A run is a sequence of critical sections.  [EvIndex], [EvReindex] and
    [EvJobDone] are whole calls under [implMutex]; [EvRun fuel id] is the
    pool running the job that [index] recorded under [id] from its first
    line to its last with nothing in between, and [EvWorker] is one
    section of a job.  [EvJobDoneBegin] is [jobDone] up to the test of line
    447, which leaves the four syncs pending, and [EvSync] is the next
    pending [syncData] call, followed by line 454 when it is the last; the
    sections of jobs can fall between them.  While syncs are pending the
    coordinator holds [implMutex] and no other call enters.  A call of
    [index] that finds no id within its fuel leaves the state as it was. *)
Inductive Event :=
  | EvIndex (fuel : nat) (input : QByteArray) (arguments : list QByteArray) (mode : Mode)
  | EvReindex (fuel : nat) (filename : QByteArray) (mode : Mode)
  | EvRun (fuel : nat) (id : Z)
  | EvJobDone (env : Database.Type_ -> SyncEnv) (id : Z) (filename : QByteArray)
  | EvWorker (a : WorkerAction)
  | EvJobDoneBegin (env : Database.Type_ -> SyncEnv) (id : Z) (filename : QByteArray)
  | EvSync.

Record World := {
  impl : IndexerImpl;
  disk : Disk;
  (** the [syncData] calls the running [jobDone] has still to make *)
  pending : list (Database.Type_ * SyncEnv)
}.

(** One pending [syncData] call. *)
Definition syncOne (t : Database.Type_) (env : SyncEnv) (impl : IndexerImpl) (disk : Disk)
  : IndexerImpl * Disk :=
  let '(data, disk, _) := syncData env (stagedFor t impl) t disk in
  (setStaged t data impl, disk).

Definition step (w : World) (e : Event) : World :=
  match e with
  | EvIndex fuel input arguments mode =>
      match pending w with
      | [] =>
          match index fuel input arguments mode (impl w) with
          | Some (_, impl', _) => {| impl := impl'; disk := disk w; pending := [] |}
          | None => w
          end
      | _ => w
      end
  | EvReindex fuel filename mode =>
      match pending w with
      | [] =>
          match reindex fuel filename mode (impl w) with
          | Some (_, impl', _) => {| impl := impl'; disk := disk w; pending := [] |}
          | None => w
          end
      | _ => w
      end
  | EvRun fuel id =>
      match jobs (impl w) !! id with
      | Some job =>
          let '(_, impl', _, _) := run fuel job (impl w) in
          {| impl := impl'; disk := disk w; pending := pending w |}
      | None => w
      end
  | EvJobDone env id filename =>
      match pending w with
      | [] =>
          let '(impl', disk', _) := jobDone env id filename (impl w) (disk w) in
          {| impl := impl'; disk := disk'; pending := [] |}
      | _ => w
      end
  | EvWorker a =>
      {| impl := wstep a (impl w); disk := disk w; pending := pending w |}
  | EvJobDoneBegin env id filename =>
      match pending w with
      | [] =>
          let impl := jobDoneHead id filename (impl w) in
          {| impl := impl; disk := disk w;
             pending := if syncDue impl then syncCalls env else [] |}
      | _ => w
      end
  | EvSync =>
      match pending w with
      | [] => w
      | (t, env) :: rest =>
          let '(impl', disk') := syncOne t env (impl w) (disk w) in
          {| impl := match rest with [] => resetCounter impl' | _ => impl' end;
             disk := disk'; pending := rest |}
      end
  end.

(** The world after the events [es], from a fresh indexer on an empty
    disk. *)
Definition after (path : QByteArray) (es : list Event) : World :=
  foldl step {| impl := newIndexer path; disk := ∅; pending := [] |} es.

(** The store of one category, and the set stored there under a key. *)
Definition storeOf (disk : Disk) (type : Database.Type_) : Store :=
  default ∅ (disk !! constData (databaseName type)).

Definition stored (disk : Disk) (type : Database.Type_) (key : string) : QSet :=
  parse (held (storeOf disk type) key).
End Indexer.

(** * The vocabulary of the statements *)

(** A byte array without LF and NUL is stored as itself. *)
Definition plain (s : QByteArray) : Prop :=
  contains s LF = false ∧ contains s NUL = false.

Section Vocabulary.
Context `{Externals}.
Implicit Types (db : Store) (data : HashSet) (set : QSet).

(** The [Put] one staged entry contributes, by the outcome of its read. *)
Definition putOf (ok : bool) db (key : string) set : WriteBatch :=
  let stored := parse (Get ok db (constData key)) in
  if decide (set ⊆ stored) then []
  else [(constData key, serialise (elements (stored ∪ set)))].

(** A store whose keys and values hold no NUL byte, as [syncData] writes
    them. *)
Definition store_ok db : Prop :=
  ∀ k v, db !! k = Some v → contains k NUL = false ∧ contains v NUL = false.

(** A disk of such stores. *)
Definition disk_ok (disk : Disk) : Prop :=
  ∀ name db, disk !! name = Some db → store_ok db.

(** The call gets as far as the loop: the name is not empty and the store
    opens. *)
Definition opens (env : SyncEnv) (type : Database.Type_) : bool :=
  negb (isEmpty (databaseName type)) && open_ok env.

(** Every read of the call succeeds. *)
Definition reads (env : SyncEnv) : Prop := ∀ key, read_ok env key = true.

(** The reads of the call succeed for the staged keys that are read under
    the key [k]. *)
Definition reads_at (env : SyncEnv) data (k : string) : Prop :=
  ∀ key, is_Some (data !! key) → constData key = k → read_ok env key = true.

(** No staged key holds a NUL byte. *)
Definition nul_free data : Prop :=
  ∀ key, is_Some (data !! key) → contains key NUL = false.

(** [jobDone] syncs: with [id] removed no job is left, or the incremented
    counter is [SYNCINTERVAL]. *)
Definition syncs (id : Z) (i : IndexerImpl) : bool :=
  bool_decide (delete id (jobs i) = ∅) || (wrap_int (jobCounter i + 1) =? SYNCINTERVAL)%Z.

(** The ids of [jobs] that a probe starting at [last] can still hit. *)
Definition above (last : Z) (jobs : gmap Z IndexerJob) : gset Z :=
  filter (fun k => (last ≤ k)%Z) (dom jobs).

(** The input paths an event submits for indexing. *)
Definition submitted (e : Event) : list string :=
  match e with
  | EvIndex _ input _ _ => [input]
  | EvReindex _ filename _ => take 1 (resourceRead filename)
  | _ => []
  end.

(** The four stores are four different places. *)
Definition distinct_stores : Prop :=
  ∀ t t', constData (databaseName t) = constData (databaseName t') → t = t'.


(** What the include map and the Include store hold when every submitted
    input is plain. *)
Definition include_ok (w : World) : Prop :=
  (∀ id job, jobs (impl w) !! id = Some job → plain (m_in job))
  ∧ (∀ k v, v ∈ at_key (incs (impl w)) k → v ≠ k ∧ plain v)
  ∧ (∀ k, is_Some (incs (impl w) !! k) → contains k NUL = false)
  ∧ (∀ k x, x ∈ stored (disk w) Database.Include k → x ≠ k)
  ∧ disk_ok (disk w).

(** The events that are one critical section: all but a whole [jobDone],
    which is five of them. *)
Definition is_section (e : Event) : Prop :=
  match e with EvJobDone _ _ _ => False | _ => True end.

(** Every read of the syncs of a [jobDone] succeeds. *)
Definition reads_ok (e : Event) : Prop :=
  match e with
  | EvJobDone env _ _ | EvJobDoneBegin env _ _ => ∀ t, reads (env t)
  | _ => True
  end.






(** Paths are C strings: resolved paths and the file names of cached units
    hold no NUL byte. *)
Definition paths_ok : Prop :=
  (∀ s, contains (resolved (constData s)) NUL = false)
  ∧ (∀ input arguments unitMode unit,
       cachedUnit input arguments unitMode = Some unit →
       contains (filename unit) NUL = false).

(** No key of the shared maps, and none of the maps of a job on record,
    holds a NUL byte. *)
Definition keys_ok (i : IndexerImpl) : Prop :=
  (∀ t, nul_free (stagedFor t i))
  ∧ (∀ id job, jobs i !! id = Some job →
               nul_free (m_defs job) ∧ nul_free (m_refs job) ∧ nul_free (m_syms job)).
End Vocabulary.

(** ** More vocabulary: formats, ids, names and locations *)

(** A store whose values are what [syncData] writes: under a key without
    NUL, the serialised form of a list that is not empty. *)
Definition store_written (db : gmap string string) : Prop :=
  ∀ k v, db !! k = Some v →
         contains k NUL = false ∧ ∃ l, l ≠ [] ∧ v = serialise l.

(** What the ids of a run look like: every recorded job sits under its own
    id, and all ids are below [lastJobId]. *)
Definition ids_ok (i : IndexerImpl) : Prop :=
  (0 ≤ lastJobId i)%Z
  ∧ ∀ id job, jobs i !! id = Some job → (0 ≤ id < lastJobId i)%Z ∧ m_id job = id.

(** The display names from a cursor up through its semantic parents, as
    far as [addNamePermutations] climbs: it stops at the null cursor, at a
    translation unit, and at a cursor without a name. *)
Fixpoint scopeNames (cur : CXCursor) : list string :=
  match cur with
  | NullCursor => []
  | Cursor kind _ _ _ _ _ _ displayName parent =>
      if clang_isTranslationUnit kind then []
      else match displayName with
           | None => []
           | Some name =>
               if decide (constData name = EmptyString) then []
               else constData name :: scopeNames parent
           end
  end.

(** [leaf] qualified by the scopes [outer], innermost first. *)
Definition qualify (leaf : string) (outer : list string) : string :=
  foldl (fun acc scope => (scope +:+ "::") +:+ acc) leaf outer.

(** A display name without its parameter list: up to the first opening
    parenthesis. *)
Definition withoutParameters (name : string) : string :=
  let sp := indexOf name "("%char in
  if decide (sp ≠ (-1)%Z) then left_ name (Z.to_nat sp) else name.

(** A USR the index can use: neither empty nor the bare prefix. *)
Definition usable (usr : string) : Prop :=
  usr ≠ EmptyString ∧ usr ≠ "c:"%string.

(** Cursor kinds are compared with [==]. *)
#[global] Instance CXCursorKind_eq_dec : EqDecision CXCursorKind.
Proof. solve_decision. Defined.

(** [p] backslashes. *)
Fixpoint escapes (p : nat) : string :=
  match p with
  | O => EmptyString
  | S p => String BACKSLASH (escapes p)
  end.

(** The [done] signal. *)
Definition isDone (e : Effect) : bool :=
  match e with EmitDone _ _ => true | _ => false end.

Section Readings.
Context `{Externals}.

(** The location string of a cursor: resolved file, line and column. *)
Definition location (cfilename : string) (line col : N) : QByteArray :=
  resolved (constData cfilename) +:+ (":" +:+ pretty line) +:+ ":" +:+ pretty col.

(** A map from usable USRs without NUL to sets of cursor locations. *)
Definition staged_ok (h : HashSet) : Prop :=
  (∀ k, is_Some (h !! k) → usable k ∧ contains k NUL = false)
  ∧ (∀ k x, x ∈ at_key h k → ∃ cfile line col, x = location cfile line col).

(** The maps of the jobs on record and the shared maps are well formed. *)
Definition usrs_ok (i : IndexerImpl) : Prop :=
  (∀ id job, jobs i !! id = Some job → staged_ok (m_defs job) ∧ staged_ok (m_refs job))
  ∧ staged_ok (defs i) ∧ staged_ok (refs i).
End Readings.

(** ** A concrete setting

    Four stores under /db, paths that are their own resolved form, and a
    unit cache that knows four sources: /abs/a.c, which includes /abs/a.h
    and defines [foo]; /abs/b.h; a source whose path holds a line feed
    and which includes /abs/b.h; and /abs/b.c, which calls [foo]. *)

Module Sample.
Definition names (t : Database.Type_) : QByteArray :=
  match t with
  | Database.Include => "/db/Include"
  | Database.Definition_ => "/db/Definition"
  | Database.Reference => "/db/Reference"
  | Database.Symbol => "/db/Symbol"
  end.

Definition a_c : QByteArray := "/abs/a.c".
Definition b_h : QByteArray := "/abs/b.h".
Definition x_b_h : QByteArray := ("/tmp/x" ++ String LF "/abs/b.h")%string.
Definition b_c : QByteArray := "/abs/b.c".

Definition foo : CXCursor :=
  Cursor CXCursor_OtherKind "c:@F@foo" "" (Some a_c) 1 5 true (Some "foo()")
    (Cursor CXCursor_TranslationUnit "" "" None 0 0 false (Some a_c) NullCursor).

(** A call of [foo] in /abs/b.c: the expression has no USR of its own and
    refers to [foo]. *)
Definition call_foo : CXCursor :=
  Cursor CXCursor_OtherKind "" "c:@F@foo" (Some b_c) 3 1 false (Some "foo")
    (Cursor CXCursor_TranslationUnit "" "" None 0 0 false (Some b_c) NullCursor).

Definition units (input : QByteArray) (arguments : list QByteArray) (unitMode : Z)
  : option Unit_ :=
  if decide (input = a_c) then
    Some {| filename := a_c; origin := 1; diagnostics := [];
            inclusions := [ {| included_file := a_c; inclusion_stack := [] |};
                            {| included_file := "/abs/a.h"; inclusion_stack := [a_c] |} ];
            children := [foo] |}
  else if decide (input = b_h) then
    Some {| filename := b_h; origin := 1; diagnostics := [];
            inclusions := [ {| included_file := b_h; inclusion_stack := [] |} ];
            children := [] |}
  else if decide (input = x_b_h) then
    Some {| filename := x_b_h; origin := 1; diagnostics := [];
            inclusions := [ {| included_file := x_b_h; inclusion_stack := [] |};
                            {| included_file := b_h; inclusion_stack := [x_b_h] |} ];
            children := [] |}
  else if decide (input = b_c) then
    Some {| filename := b_c; origin := 1; diagnostics := [];
            inclusions := [ {| included_file := b_c; inclusion_stack := [] |} ];
            children := [call_foo] |}
  else None.

Definition externals : Externals :=
  {| databaseName := names;
     resolved p := p;
     UnitCache_Source := 1; UnitCache_AST := 2; UnitCache_Force := 4;
     cachedUnit := units;
     resourceExists f := bool_decide (f = a_c);
     resourceRead f := if decide (f = a_c) then [a_c; "-I/abs"] else [];
     fresh_jobCounter := 12345; fresh_lastJobId := -7 |}.

(** The store opens, every read succeeds and the commit succeeds. *)
Definition fine : SyncEnv :=
  {| open_ok := true; read_ok := fun _ => true; write_ok := true |}.

(** The store opens and the commit fails. *)
Definition failingCommit : SyncEnv :=
  {| open_ok := true; read_ok := fun _ => true; write_ok := false |}.

(** The store opens, every read fails and the commit succeeds. *)
Definition failingRead : SyncEnv :=
  {| open_ok := true; read_ok := fun _ => false; write_ok := true |}.

(** Every store behaves. *)
Definition sound (t : Database.Type_) : SyncEnv := fine.


(** The reads of the Reference store fail. *)
Definition referenceUnread (t : Database.Type_) : SyncEnv :=
  match t with
  | Database.Reference => failingRead
  | _ => fine
  end.
End Sample.

(** Runs and staging maps in that setting. *)

Module SampleRuns.
Import Sample.

(** /abs/a.c is submitted, its job runs, and its completion syncs. *)
Definition indexed : list Event :=
  [EvIndex 1 a_c [] Normal; EvRun 1 0; EvJobDone sound 0 a_c].


(** /abs/b.h and the source with the line feed in its path are submitted;
    both jobs run and complete, and the second completion syncs. *)
Definition indexed_line_feed : list Event :=
  [EvIndex 1 b_h [] Normal; EvIndex 1 x_b_h [] Normal;
   EvRun 1 0; EvJobDone sound 0 b_h;
   EvRun 1 1; EvJobDone sound 1 x_b_h].

(** /abs/a.c is indexed and synced; then /abs/b.c, which calls [foo], is
    indexed, and at its completion the reads of the Reference store fail. *)
Definition indexed_then_unread : list Event :=
  [EvIndex 1 a_c [] Normal; EvRun 1 0; EvJobDone sound 0 a_c;
   EvIndex 1 b_c [] Normal; EvRun 1 1; EvJobDone referenceUnread 1 b_c].

(** /abs/a.c is indexed and synced, and then submitted and run again. *)
Definition indexed_again : list Event :=
  [EvIndex 1 a_c [] Normal; EvRun 1 0; EvJobDone sound 0 a_c;
   EvIndex 1 a_c [] Normal; EvRun 1 1].

(** One more job from submission to completion: /abs/b.h under [id]. *)
Definition completion (id : Z) : list Event :=
  [EvIndex 1 b_h [] Normal; EvRun 1 id; EvJobDone sound id b_h].

(** The job of /abs/a.c has folded its definitions and not yet its
    references while ten other jobs complete: the tenth completion syncs. *)
Definition folds_split : list Event :=
  ([EvIndex 1 a_c [] Normal;
    EvWorker (WInclude 0 a_c); EvWorker (WInclude 0 "/abs/a.h");
    EvWorker (WInclude 0 a_c);
    EvWorker (WVisit 1 0); EvWorker (WFoldDefs 0)]
   ++ mjoin (completion <$> [1; 2; 3; 4; 5; 6; 7; 8; 9; 10]%Z))%list.

(** The job goes on and completes. *)
Definition folds_split_completed : list Event :=
  (folds_split ++ [EvWorker (WFoldRefs 0); EvWorker (WFoldSyms 0);
                   EvJobDone sound 0 a_c])%list.

(** A staging map with a plain key. *)
Definition plain_staged : gmap string (gset string) := {[ "k" := {[ "v" ]} ]}.

(** What the job of /abs/a.c stages for the Definition store. *)
Definition foo_locations : gset string := {[ "/abs/a.c:1:5" ]}.
Definition foo_staged : gmap string (gset string) := {[ "c:@F@foo" := foo_locations ]}.
End SampleRuns.

(** A setting with one source in the root directory, /a.c, parsed from
    source, with nothing in it. *)

Module SampleRoot.
Definition root_unit : Unit_ :=
  {| filename := "/a.c"; origin := 1; diagnostics := []; inclusions := [];
     children := [] |}.

Definition externals : Externals :=
  {| databaseName := Sample.names;
     resolved p := p;
     UnitCache_Source := 1; UnitCache_AST := 2; UnitCache_Force := 4;
     cachedUnit input arguments unitMode :=
       if decide (input = "/a.c") then Some root_unit else None;
     resourceExists f := false;
     resourceRead f := [];
     fresh_jobCounter := 12345; fresh_lastJobId := -7 |}.

(** The job [index] records for /a.c on a fresh indexer. *)
Definition root_job : IndexerJob :=
  {| m_mode := Normal; m_id := 0; m_path := "/db"; m_in := "/a.c"; m_args := [];
     m_defs := ∅; m_refs := ∅; m_syms := ∅ |}.
End SampleRoot.

(** * Properties *)

(** ** Byte arrays: separators, C strings, and the stored format *)

Section Bytes.
Implicit Types (s r : string) (c sep : ascii).

Lemma app_nil s : EmptyString ++ s = s.
Proof. reflexivity. Qed.

Lemma app_cons c s r : String c s ++ r = String c (s ++ r).
Proof. reflexivity. Qed.

Lemma contains_app s r c : contains (s ++ r) c = contains s c || contains r c.
Proof.
  induction s as [|a s IH]; rewrite ?app_nil, ?app_cons; simpl; [done|].
  by case_decide.
Qed.

Lemma split_not_nil sep s : split sep s ≠ [].
Proof.
  destruct s as [|a s]; simpl; [done|].
  case_decide; [done|]. by destruct (split sep s).
Qed.

Lemma split_app sep s r :
  split sep (s ++ String sep r) = (split sep s ++ split sep r)%list.
Proof.
  induction s as [|a s IH]; rewrite ?app_nil, ?app_cons; simpl.
  - by rewrite decide_True.
  - case_decide; rewrite IH; [done|].
    pose proof (split_not_nil sep s). by destruct (split sep s).
Qed.

Lemma split_no_sep sep s : contains s sep = false → split sep s = [s].
Proof.
  induction s as [|a s IH]; simpl; [done|].
  case_decide; [done|]. intros Hs. by rewrite IH.
Qed.

(** A piece of a split holds no separator, and no byte its source lacks. *)
Lemma split_piece sep s x : x ∈ split sep s → contains x sep = false.
Proof.
  revert x. induction s as [|a s IH]; simpl; intros x Hx.
  - by apply list_elem_of_singleton in Hx as ->.
  - case_decide as Ha.
    + apply elem_of_cons in Hx as [->|Hx]; [done|by apply IH].
    + pose proof (split_not_nil sep s).
      destruct (split sep s) as [|w ws]; [done|].
      apply elem_of_cons in Hx as [->|Hx].
      * simpl. rewrite decide_False by done. apply IH. by left.
      * apply IH. by right.
Qed.

Lemma split_piece_lacks sep c s x :
  contains s c = false → x ∈ split sep s → contains x c = false.
Proof.
  revert x. induction s as [|a s IH]; simpl; intros x Hs Hx.
  - by apply list_elem_of_singleton in Hx as ->.
  - destruct (decide (a = c)) as [|Hc]; [done|].
    destruct (decide (a = sep)) as [|Ha].
    + apply elem_of_cons in Hx as [->|Hx]; [done|by apply IH].
    + pose proof (split_not_nil sep s).
      destruct (split sep s) as [|w ws]; [done|].
      apply elem_of_cons in Hx as [->|Hx].
      * simpl. rewrite decide_False by done. apply IH; [done|by left].
      * apply IH; [done|by right].
Qed.

Lemma constData_no_NUL s : contains (constData s) NUL = false.
Proof.
  induction s as [|a s IH]; simpl; [done|].
  case_decide; simpl; [done|]. by rewrite decide_False.
Qed.

Lemma constData_id s : contains s NUL = false → constData s = s.
Proof.
  induction s as [|a s IH]; simpl; [done|].
  case_decide; [done|]. intros Hs. by rewrite IH.
Qed.

Lemma app_assoc' s r t : (s ++ r) ++ t = s ++ r ++ t.
Proof. induction s as [|a s IH]; [done|]. by rewrite !app_cons, IH. Qed.

Lemma app_empty_r s : s ++ EmptyString = s.
Proof. induction s as [|a s IH]; [done|]. by rewrite app_cons, IH. Qed.

Lemma serialise_from acc l :
  foldl (fun value v => value ++ constData v ++ String LF EmptyString) acc l
  = acc ++ serialise l.
Proof.
  unfold serialise. revert acc. induction l as [|v l IH]; intros acc; simpl.
  - by rewrite app_empty_r.
  - rewrite IH, (IH (EmptyString ++ _)), app_nil. by rewrite !app_assoc'.
Qed.

Lemma serialise_cons v l :
  serialise (v :: l) = constData v ++ String LF (serialise l).
Proof.
  unfold serialise at 1. simpl. rewrite serialise_from.
  by rewrite app_nil, app_assoc', app_cons, app_nil.
Qed.

Lemma serialise_no_NUL l : contains (serialise l) NUL = false.
Proof.
  induction l as [|v l IH]; [done|].
  by rewrite serialise_cons, contains_app, constData_no_NUL.
Qed.

Lemma elem_of_parse value x :
  x ∈ parse value ↔ x ∈ split LF value ∧ x ≠ EmptyString.
Proof. unfold parse, toSet. set_solver. Qed.

(** What comes back from a serialised set: the pieces of the C strings of
    its elements. *)
Lemma elem_of_parse_serialise l x :
  x ∈ parse (serialise l) ↔ ∃ v, v ∈ l ∧ x ∈ parse (constData v).
Proof.
  induction l as [|v l IH].
  - split; [|by intros (v & Hv & _); inversion Hv].
    rewrite elem_of_parse. simpl. set_solver.
  - rewrite serialise_cons, elem_of_parse, split_app, elem_of_app.
    split.
    + intros [[Hx|Hx] Hne].
      * exists v. split; [by left|]. by apply elem_of_parse.
      * destruct (proj1 IH) as (w & Hw & Hxw); [by apply elem_of_parse|].
        exists w. split; [by right|done].
    + intros (w & Hw & Hxw). apply elem_of_parse in Hxw as [Hxw Hne].
      split; [|done].
      apply elem_of_cons in Hw as [->|Hw]; [by left|right].
      assert (x ∈ parse (serialise l)) as Hx
        by (apply IH; exists w; by rewrite elem_of_parse).
      by apply elem_of_parse in Hx as [? _].
Qed.

Lemma parse_plain s x : plain s → x ∈ parse (constData s) → x = s.
Proof.
  intros [Hlf Hnul]. rewrite constData_id, elem_of_parse, split_no_sep by done.
  by intros [->%list_elem_of_singleton _].
Qed.

Lemma parse_plain_self s :
  plain s → s ≠ EmptyString → s ∈ parse (constData s).
Proof.
  intros [Hlf Hnul] Hne. rewrite constData_id, elem_of_parse, split_no_sep by done.
  split; [by left|done].
Qed.

(** The elements of a parsed value are plain when the value has no NUL. *)
Lemma parse_elem_plain value x :
  contains value NUL = false → x ∈ parse value → plain x ∧ x ≠ EmptyString.
Proof.
  intros Hnul [Hx Hne]%elem_of_parse. split; [split|done].
  - by apply (split_piece LF value).
  - by apply (split_piece_lacks LF NUL value).
Qed.
End Bytes.

Close Scope string_scope.

(** ** The sync loop and the write batch *)

Section Batch.
Implicit Types (db : gmap string string) (data : gmap string (gset string)).
Implicit Types (batch : list (string * string)) (set : gset string).
Implicit Types (rd : string → bool).

(** A read that succeeds gives what the store holds; one that fails gives
    nothing. *)
Lemma Get_true db k : Get true db k = held db k.
Proof. done. Qed.

Lemma parse_empty : parse EmptyString = ∅.
Proof. apply leibniz_equiv. intros x. rewrite elem_of_parse. simpl. set_solver. Qed.

Lemma parse_Get ok db k : parse (Get ok db k) ⊆ parse (held db k).
Proof. destruct ok; [done|]. simpl. rewrite parse_empty. set_solver. Qed.

(** The test of line 84 holds exactly when everything staged is stored. *)
Lemma skip_iff (newset set : gset string) :
  size (newset ∩ set) = size set ↔ set ⊆ newset.
Proof.
  split.
  - intros Hsz. assert (newset ∩ set = set) as Heq; [|set_solver].
    apply set_subseteq_size_eq; [set_solver|lia].
  - intros Hsub. f_equal. apply leibniz_equiv. set_solver.
Qed.

Lemma syncEntry_putOf rd db batch key set :
  syncEntry rd db batch key set = (batch ++ putOf (rd key) db key set)%list.
Proof.
  unfold syncEntry, putOf, parse.
  destruct (decide (size _ = size set)) as [Hsz|Hsz].
  - rewrite decide_True by (by apply skip_iff). by rewrite app_nil_r.
  - by rewrite decide_False by (by rewrite <-skip_iff).
Qed.

Lemma syncBatch_bind rd db data :
  syncBatch rd db data = map_to_list data ≫= (fun kv => putOf (rd kv.1) db kv.1 kv.2).
Proof.
  unfold syncBatch.
  assert (∀ l acc,
    foldl (fun batch kv => syncEntry rd db batch kv.1 kv.2) acc l
    = (acc ++ (l ≫= (fun kv => putOf (rd kv.1) db kv.1 kv.2)))%list) as Hgen.
  { induction l as [|kv l IH]; intros acc; simpl.
    - by rewrite app_nil_r.
    - by rewrite IH, syncEntry_putOf, <-app_assoc. }
  by rewrite Hgen.
Qed.

(** Every [Put] of the batch comes from a staged entry that is not within
    what its read gave; its key is the C string of the staged key and its
    value the serialised union with what the read gave. *)
Lemma elem_of_syncBatch rd db data k v :
  (k, v) ∈ syncBatch rd db data ↔
  ∃ key set, data !! key = Some set ∧ ¬ set ⊆ parse (Get (rd key) db k)
             ∧ k = constData key
             ∧ v = serialise (elements (parse (Get (rd key) db k) ∪ set)).
Proof.
  rewrite syncBatch_bind, list_elem_of_bind. split.
  - intros ([key set] & Hput & Hin%elem_of_map_to_list). simpl in Hput.
    unfold putOf in Hput. case_decide as Hsub; [by inversion Hput|].
    apply list_elem_of_singleton in Hput. simplify_eq. eauto 10.
  - intros (key & set & Hin & Hsub & -> & ->).
    exists (key, set). split; [|by apply elem_of_map_to_list].
    simpl. unfold putOf. rewrite decide_False by done. by left.
Qed.

Lemma Write_cons k v batch db :
  Write ((k, v) :: batch) db = Write batch (<[k := v]> db).
Proof. done. Qed.

(** After the batch a key holds what it held, or the value of a [Put]. *)
Lemma Write_lookup batch db k :
  Write batch db !! k = db !! k
  ∨ ∃ v, (k, v) ∈ batch ∧ Write batch db !! k = Some v.
Proof.
  revert db. induction batch as [|[k0 v0] batch IH]; intros db; [by left|].
  rewrite Write_cons.
  destruct (IH (<[k0 := v0]> db)) as [Heq|(v & Hv & Heq)].
  - destruct (decide (k0 = k)) as [->|Hne].
    + right. exists v0. split; [by left|]. by rewrite Heq, lookup_insert_eq.
    + left. by rewrite Heq, lookup_insert_ne.
  - right. exists v. split; [by right|done].
Qed.

Lemma Write_lookup_put batch db k v :
  (k, v) ∈ batch → ∃ v', (k, v') ∈ batch ∧ Write batch db !! k = Some v'.
Proof.
  revert db. induction batch as [|[k0 v0] batch IH]; intros db Hin.
  { by inversion Hin. }
  rewrite Write_cons.
  destruct (Write_lookup batch (<[k0 := v0]> db) k) as [Heq|(v' & Hv' & Heq)].
  - apply elem_of_cons in Hin as [Hin|Hin].
    + simplify_eq. exists v0. split; [by left|]. by rewrite Heq, lookup_insert_eq.
    + destruct (IH (<[k0 := v0]> db) Hin) as (v' & Hv' & Hw).
      exists v'. split; [by right|done].
  - exists v'. split; [by right|done].
Qed.

Lemma Write_lookup_other batch db k :
  (∀ v, (k, v) ∉ batch) → Write batch db !! k = db !! k.
Proof.
  intros Hno. destruct (Write_lookup batch db k) as [?|(v & Hv & _)]; [done|].
  by destruct (Hno v).
Qed.

(** *** Stores written by [syncData] hold no NUL byte *)

Lemma store_ok_empty : store_ok ∅.
Proof. intros k v Hk. by rewrite lookup_empty in Hk. Qed.

Lemma store_ok_held db k : store_ok db → contains (held db k) NUL = false.
Proof.
  intros Hok. unfold held. destruct (db !! k) as [v|] eqn:Hk; [|done].
  by destruct (Hok k v Hk).
Qed.

Lemma store_ok_Get ok db k : store_ok db → contains (Get ok db k) NUL = false.
Proof. intros Hok. destruct ok; [by apply store_ok_held|done]. Qed.

(** In a store without NUL bytes a key with one holds nothing. *)
Lemma store_ok_held_constData db key :
  store_ok db → held db key ≠ EmptyString → constData key = key.
Proof.
  intros Hok. unfold held. destruct (db !! key) as [v|] eqn:Hk; [|done].
  intros _. apply constData_id. by destruct (Hok key v Hk).
Qed.

Lemma store_ok_Write rd db data :
  store_ok db → store_ok (Write (syncBatch rd db data) db).
Proof.
  intros Hok k v Hk.
  destruct (Write_lookup (syncBatch rd db data) db k) as [Heq|(v' & Hin & Heq)].
  - apply Hok. by rewrite <-Heq.
  - rewrite Hk in Heq. simplify_eq.
    apply elem_of_syncBatch in Hin as (key & set & _ & _ & -> & ->).
    split; [apply constData_no_NUL|apply serialise_no_NUL].
Qed.

(** *** The merge, key by key *)

(** When the reads under a key succeed, the stored set keeps its elements
    whatever the batch does to the key. *)
Lemma Write_syncBatch_mono rd db data k :
  store_ok db →
  (∀ key, is_Some (data !! key) → constData key = k → rd key = true) →
  parse (held db k) ⊆ parse (held (Write (syncBatch rd db data) db) k).
Proof.
  intros Hok Hrd x Hx. unfold held at 1.
  destruct (Write_lookup (syncBatch rd db data) db k) as [->|(v & Hin & ->)]; [done|].
  apply elem_of_syncBatch in Hin as (key & set & Hkey & _ & Hk & ->). simpl.
  rewrite Hrd by eauto. rewrite Get_true.
  apply elem_of_parse_serialise. exists x. split; [set_solver|].
  destruct (parse_elem_plain (held db k) x) as [Hplain Hne]; [|done|].
  - by apply store_ok_held.
  - by apply parse_plain_self.
Qed.

(** The stored set after the batch is within the old one and the pieces
    of what was staged under a key with the same C string. *)
Lemma Write_syncBatch_upper rd db data k x :
  store_ok db →
  x ∈ parse (held (Write (syncBatch rd db data) db) k) →
  x ∈ parse (held db k)
  ∨ ∃ key set v, data !! key = Some set ∧ constData key = k ∧ v ∈ set
                 ∧ x ∈ parse (constData v).
Proof.
  intros Hok. unfold held at 1.
  destruct (Write_lookup (syncBatch rd db data) db k) as [->|(v & Hin & ->)]; [by left|].
  apply elem_of_syncBatch in Hin as (key & set & Hkey & _ & -> & ->). simpl.
  intros (w & Hw & Hx)%elem_of_parse_serialise.
  apply elem_of_elements, elem_of_union in Hw as [Hw|Hw].
  - left. apply parse_Get in Hw.
    destruct (parse_elem_plain _ _ (store_ok_held _ _ Hok) Hw) as [Hp _].
    by rewrite (parse_plain _ _ Hp Hx).
  - right. eauto 10.
Qed.

(** When a read fails, the [Put] for its key holds the staged set only. *)
Lemma putOf_failed db key set :
  putOf false db key set
  = if decide (set = ∅) then [] else [(constData key, serialise (elements set))].
Proof.
  unfold putOf. simpl. rewrite parse_empty.
  destruct (decide (set = ∅)) as [->|Hne].
  - by rewrite decide_True.
  - rewrite decide_False by set_solver.
    by replace (∅ ∪ set) with set by set_solver.
Qed.
End Batch.

(** ** One call of [syncData] *)

Section SyncData.
Context `{Externals}.
Implicit Types (data : gmap string (gset string)) (disk : gmap string (gmap string string)).

Lemma syncData_closed env data type disk :
  opens env type = false → syncData env data type disk = (data, disk, []).
Proof.
  unfold opens, syncData. destruct (isEmpty _); [done|].
  by destruct (open_ok env).
Qed.

Lemma syncData_opened env data type disk :
  opens env type = true →
  syncData env data type disk =
    (∅, <[constData (databaseName type) :=
            if write_ok env
            then Write (syncBatch (read_ok env) (storeOf disk type) data)
                   (storeOf disk type)
            else storeOf disk type]> disk, []).
Proof.
  unfold opens, syncData. destruct (isEmpty _); [done|].
  by destruct (open_ok env).
Qed.

(** The stores after the call: all as before, except that a call that
    opened its store and committed has applied its batch to it. *)
Lemma storeOf_syncData env data type disk t :
  storeOf (syncData env data type disk).1.2 t =
    if opens env type && write_ok env
       && bool_decide (constData (databaseName t) = constData (databaseName type))
    then Write (syncBatch (read_ok env) (storeOf disk type) data) (storeOf disk type)
    else storeOf disk t.
Proof.
  destruct (opens env type) eqn:Hopen; simpl.
  - rewrite syncData_opened by done. simpl. unfold storeOf at 1.
    case_bool_decide as Hname.
    + rewrite <-Hname, lookup_insert_eq. simpl.
      destruct (write_ok env); simpl; [done|]. unfold storeOf. by rewrite Hname.
    + rewrite lookup_insert_ne by done. by rewrite andb_false_r.
  - by rewrite syncData_closed.
Qed.

Lemma syncData_disk_ok env data type disk :
  disk_ok disk → disk_ok (syncData env data type disk).1.2.
Proof.
  intros Hok. destruct (opens env type) eqn:Hopen.
  - rewrite syncData_opened by done. simpl. intros name db.
    assert (store_ok (storeOf disk type)) as Hst.
    { unfold storeOf. destruct (disk !! _) as [d|] eqn:Hd; simpl.
      - by apply (Hok _ _ Hd).
      - apply store_ok_empty. }
    destruct (decide (constData (databaseName type) = name)) as [<-|Hne].
    + rewrite lookup_insert_eq. intros [= <-].
      destruct (write_ok env); [by apply store_ok_Write|done].
    + rewrite lookup_insert_ne by done. apply Hok.
  - by rewrite syncData_closed.
Qed.

Lemma storeOf_ok disk t : disk_ok disk → store_ok (storeOf disk t).
Proof.
  intros Hok. unfold storeOf. destruct (disk !! _) as [d|] eqn:Hd; simpl.
  - by apply (Hok _ _ Hd).
  - apply store_ok_empty.
Qed.

(** A call whose reads under a key succeed keeps what is stored there. *)
Lemma syncData_mono env data type disk t k :
  disk_ok disk →
  reads_at env data k →
  stored disk t k ⊆ stored (syncData env data type disk).1.2 t k.
Proof.
  intros Hok Hrd. unfold stored. rewrite storeOf_syncData.
  destruct (_ && _ && _) eqn:Hc; [|done].
  apply andb_prop in Hc as [_ Hname%bool_decide_eq_true].
  assert (storeOf disk t = storeOf disk type) as ->
    by (unfold storeOf; by rewrite Hname).
  apply Write_syncBatch_mono; [by apply storeOf_ok|done].
Qed.

Lemma reads_reads_at env data k : reads env → reads_at env data k.
Proof. intros Hrd key _ _. apply Hrd. Qed.

(** The stored set after a call is within the old one and the pieces of
    what was staged under a key with the same C string. *)
Lemma stored_syncData_within env data type disk t k x :
  disk_ok disk →
  x ∈ stored (syncData env data type disk).1.2 t k →
  x ∈ stored disk t k
  ∨ ∃ key v, constData key = k ∧ v ∈ at_key data key ∧ x ∈ parse (constData v).
Proof.
  intros Hok. unfold stored. rewrite storeOf_syncData.
  destruct (_ && _ && _) eqn:Hc; [|by left].
  apply andb_prop in Hc as [_ Hname%bool_decide_eq_true].
  assert (storeOf disk t = storeOf disk type) as Heq
    by (unfold storeOf; by rewrite Hname).
  intros [?|(key & set & v & Hkey & ? & ? & ?)]%Write_syncBatch_upper;
    [left; by rewrite Heq| |by apply storeOf_ok].
  right. exists key, v. split; [done|]. split; [|done].
  unfold at_key. by rewrite Hkey.
Qed.

Lemma syncData_staging env data type disk :
  (syncData env data type disk).1.1 = if opens env type then ∅ else data.
Proof.
  destruct (opens env type) eqn:Hopen.
  - by rewrite syncData_opened.
  - by rewrite syncData_closed.
Qed.

Lemma syncData_log env data type disk : (syncData env data type disk).2 = [].
Proof.
  destruct (opens env type) eqn:Hopen.
  - by rewrite syncData_opened.
  - by rewrite syncData_closed.
Qed.
End SyncData.

(** ** The calls of [syncData] that [jobDone] makes *)

Section SyncCalls.
Context `{Externals}.
Implicit Types (data : gmap string (gset string)) (disk : gmap string (gmap string string)).

(** The four calls of [syncAll], one after the other. *)
Lemma syncAll_eq env i disk :
  let r1 := syncData (env Database.Include) (incs i) Database.Include disk in
  let r2 := syncData (env Database.Definition_) (defs i) Database.Definition_ r1.1.2 in
  let r3 := syncData (env Database.Reference) (refs i) Database.Reference r2.1.2 in
  let r4 := syncData (env Database.Symbol) (syms i) Database.Symbol r3.1.2 in
  syncAll env i disk =
    ({| jobCounter := jobCounter i; indexing := indexing i; path := path i;
        lastJobId := lastJobId i; jobs := jobs i;
        incs := r1.1.1; defs := r2.1.1; refs := r3.1.1; syms := r4.1.1 |},
     r4.1.2, []).
Proof.
  intros r1 r2 r3 r4. unfold syncAll. fold r1.
  pose proof (syncData_log (env Database.Include) (incs i) Database.Include disk) as H1.
  fold r1 in H1. destruct r1 as [[i1 d1] l1] eqn:E1. simpl in *. fold r2.
  pose proof (syncData_log (env Database.Definition_) (defs i) Database.Definition_ d1) as H2.
  fold r2 in H2. destruct r2 as [[i2 d2] l2] eqn:E2. simpl in *. fold r3.
  pose proof (syncData_log (env Database.Reference) (refs i) Database.Reference d2) as H3.
  fold r3 in H3. destruct r3 as [[i3 d3] l3] eqn:E3. simpl in *. fold r4.
  pose proof (syncData_log (env Database.Symbol) (syms i) Database.Symbol d3) as H4.
  fold r4 in H4. destruct r4 as [[i4 d4] l4] eqn:E4. simpl in *.
  by subst.
Qed.

Lemma stored_empty t k : stored ∅ t k = ∅.
Proof.
  unfold stored, storeOf, held. rewrite lookup_empty. simpl. rewrite lookup_empty.
  apply parse_empty.
Qed.

(** A sync of another category leaves a store alone. *)
Lemma stored_syncData_other env data type disk t k :
  distinct_stores → t ≠ type →
  stored (syncData env data type disk).1.2 t k = stored disk t k.
Proof.
  intros Hd Hne. unfold stored. rewrite storeOf_syncData.
  rewrite bool_decide_eq_false_2, andb_false_r; [done|].
  intros Heq. by apply Hne, Hd.
Qed.

(** With staged keys free of NUL, everything staged under a key is stored
    under it after the batch, piece by piece, whatever the reads gave. *)
Lemma Write_syncBatch_lower (rd : string → bool) (db : gmap string string) data k v x :
  store_ok db →
  nul_free data →
  v ∈ at_key data k → x ∈ parse (constData v) →
  x ∈ parse (held (Write (syncBatch rd db data) db) k).
Proof.
  intros Hok Hkeys Hv Hx. unfold at_key in Hv.
  destruct (data !! k) as [set|] eqn:Hk; simpl in Hv; [|set_solver].
  assert (constData k = k) as Hck by (apply constData_id, Hkeys; eauto).
  assert (∀ key' set', data !! key' = Some set' → k = constData key' → key' = k ∧ set' = set)
    as Honly.
  { intros key' set' Hk' Heq. rewrite constData_id in Heq by (apply Hkeys; eauto).
    subst key'. rewrite Hk in Hk'. by injection Hk' as <-. }
  destruct (decide (set ⊆ parse (Get (rd k) db k))) as [Hsub|Hnsub].
  - unfold held at 1. rewrite Write_lookup_other.
    + fold (held db k). assert (v ∈ parse (held db k)) as Hv' by (by apply (parse_Get (rd k)), Hsub).
      destruct (parse_elem_plain (held db k) v) as [Hp _];
        [by apply store_ok_held|done|].
      by rewrite (parse_plain v x Hp Hx).
    + intros v' (key' & set' & Hk' & Hns & Heq & _)%elem_of_syncBatch.
      destruct (Honly key' set' Hk' Heq) as [-> ->]. done.
  - assert ((k, serialise (elements (parse (Get (rd k) db k) ∪ set)))
            ∈ syncBatch rd db data) as Hin.
    { apply elem_of_syncBatch. exists k, set. by rewrite Hck. }
    destruct (Write_lookup_put _ db _ _ Hin) as (v' & Hin' & Hw).
    unfold held at 1. rewrite Hw. simpl.
    apply elem_of_syncBatch in Hin' as (key' & set' & Hk' & _ & Hkey' & ->).
    destruct (Honly key' set' Hk' Hkey') as [-> ->].
    apply elem_of_parse_serialise. exists v. split; [set_solver|done].
Qed.

Lemma stored_syncData_lower env data type disk k v x :
  disk_ok disk →
  opens env type = true → write_ok env = true →
  nul_free data →
  v ∈ at_key data k → x ∈ parse (constData v) →
  x ∈ stored (syncData env data type disk).1.2 type k.
Proof.
  intros Hok Ho Hw Hkeys Hv Hx. unfold stored. rewrite storeOf_syncData, Ho, Hw.
  rewrite bool_decide_eq_true_2 by done. simpl.
  by apply (Write_syncBatch_lower _ _ _ k v x); [apply storeOf_ok|..].
Qed.

(** A key whose staged set is empty or absent keeps its value when no
    staged key holds a NUL byte. *)
Lemma syncBatch_needs_staged (rd : string → bool) (db : gmap string string) data k v :
  nul_free data → at_key data k = ∅ → (k, v) ∉ syncBatch rd db data.
Proof.
  intros Hnul Hk (key & set & Hkey & Hns & Heq & _)%elem_of_syncBatch.
  rewrite constData_id in Heq by (apply Hnul; eauto). subst key.
  unfold at_key in Hk. rewrite Hkey in Hk. simpl in Hk. subst set.
  apply Hns. set_solver.
Qed.

(** C5, a failed commit.  When the name is not empty and the store opens,
    the staging map is empty after the call whether or not the commit
    succeeded; the call logs nothing, also when the commit fails; and after
    a failed commit every stored value is what it was, so what was staged is
    in neither place. *)
Theorem C5_failed_commit env data type disk :
  isEmpty (databaseName type) = false →
  open_ok env = true →
  (syncData env data type disk).1.1 = ∅
  ∧ (syncData env data type disk).2 = []
  ∧ (write_ok env = false →
     ∀ t k, held (storeOf (syncData env data type disk).1.2 t) k
            = held (storeOf disk t) k).
Proof.
  intros Hname Hopen.
  assert (opens env type = true) as Ho by (unfold opens; by rewrite Hname, Hopen).
  split; [by rewrite syncData_staging, Ho|]. split; [apply syncData_log|].
  intros Hw t k. by rewrite storeOf_syncData, Hw, andb_false_r.
Qed.

(** A key that is not the C string of a staged key gets no [Put]. *)
Lemma syncBatch_no_put (rd : string → bool) (db : gmap string string) data k v :
  (∀ key, is_Some (data !! key) → constData key ≠ k) →
  (k, v) ∉ syncBatch rd db data.
Proof.
  intros Hk (key & set & Hkey & _ & -> & _)%elem_of_syncBatch. by apply (Hk key).
Qed.

(** When no staged key holds a NUL byte, the keys that get no [Put] are
    the keys absent from the staging map. *)
Lemma syncBatch_absent_key (rd : string → bool) (db : gmap string string) data k v :
  nul_free data →
  data !! k = None →
  (k, v) ∉ syncBatch rd db data.
Proof.
  intros Hnul Hk. apply syncBatch_no_put. intros key Hkey Heq.
  rewrite constData_id in Heq by auto. subst.
  rewrite Hk in Hkey. by destruct Hkey.
Qed.

(** With no NUL byte in the staged keys, a call leaves every key that is
    absent from the staging map as it was, in every store. *)
Lemma syncData_absent_key env data type disk t k :
  nul_free data →
  data !! k = None →
  storeOf (syncData env data type disk).1.2 t !! k = storeOf disk t !! k.
Proof.
  intros Hnul Hk. rewrite storeOf_syncData.
  destruct (_ && _ && _) eqn:Hb; [|done].
  apply andb_prop in Hb as [_ Hn%bool_decide_eq_true].
  rewrite Write_lookup_other by (intros v; by apply syncBatch_absent_key).
  unfold storeOf. by rewrite Hn.
Qed.
End SyncCalls.

(** ** The coordinator *)

Section Coordinator.
Context `{Externals}.

Lemma wrap_int_id z : (- 2 ^ 31 ≤ z < 2 ^ 31)%Z → wrap_int z = z.
Proof. intros Hz. unfold wrap_int. rewrite Z.mod_small; lia. Qed.

Lemma above_size last (jobs : gmap Z IndexerJob) : size (above last jobs) ≤ size jobs.
Proof.
  rewrite <-size_dom. apply subseteq_size. unfold above.
  intros k [_ ?]%elem_of_filter. done.
Qed.

Lemma above_next last (jobs : gmap Z IndexerJob) :
  is_Some (jobs !! last) → size (above (last + 1) jobs) < size (above last jobs).
Proof.
  intros Hin. apply subset_size. split.
  - intros k [? ?]%elem_of_filter. apply elem_of_filter. split; [lia|done].
  - intros Hsub. assert (last ∈ above (last + 1) jobs) as [? _]%elem_of_filter; [|lia].
    apply Hsub, elem_of_filter. split; [lia|by apply elem_of_dom].
Qed.

(** The probe returns once it has more fuel than there are jobs ahead of
    it: the id is free, at or after [last], and [lastJobId] moves just past
    it. *)
Lemma freeId_spec fuel (jobs : gmap Z IndexerJob) last :
  (0 ≤ last)%Z →
  (last + Z.of_nat (size (above last jobs)) < INT_MAX)%Z →
  size (above last jobs) < fuel →
  ∃ id, freeId fuel jobs last = Some (id, (id + 1)%Z)
        ∧ jobs !! id = None ∧ (last ≤ id)%Z
        ∧ ∀ k, (last ≤ k < id)%Z → is_Some (jobs !! k).
Proof.
  revert last. induction fuel as [|fuel IH]; intros last H0 Hmax Hfuel; [lia|].
  simpl. unfold INT_MAX in Hmax. rewrite wrap_int_id by lia.
  destruct (decide (is_Some (jobs !! last))) as [Hin|Hout].
  - pose proof (above_next last jobs Hin) as Hlt.
    destruct (IH (last + 1)%Z) as (id & Heq & Hfree & Hle & Hbelow);
      [lia|unfold INT_MAX; lia|lia|].
    exists id. split; [done|]. split; [done|]. split; [lia|].
    intros k Hk. destruct (decide (k = last)) as [->|Hne]; [done|].
    apply Hbelow. lia.
  - exists last. split; [done|]. split.
    + by apply eq_None_not_Some.
    + split; [lia|]. intros k Hk. lia.
Qed.

(** C4, admission.  From a state whose [lastJobId] is not negative and far
    enough from [INT_MAX] for the probe not to overflow, [index] returns
    once its fuel exceeds the number of jobs; it returns -1 exactly when the
    input is being indexed, and then changes nothing; otherwise the id it
    returns was free, the input joins [indexing], the new job is recorded
    under the id and handed to the pool. *)
Theorem C4_index fuel input arguments mode i :
  (0 ≤ lastJobId i)%Z →
  (lastJobId i + Z.of_nat (size (jobs i)) < INT_MAX)%Z →
  size (jobs i) < fuel →
  ∃ id i' out,
    index fuel input arguments mode i = Some (id, i', out)
    ∧ (id = (-1)%Z ↔ input ∈ indexing i)
    ∧ (input ∈ indexing i → i' = i ∧ out = [])
    ∧ (input ∉ indexing i →
       let job := {| m_mode := mode; m_id := id; m_path := path i; m_in := input;
                     m_args := arguments; m_defs := ∅; m_refs := ∅; m_syms := ∅ |} in
       jobs i !! id = None
       ∧ indexing i' = indexing i ∪ {[input]}
       ∧ jobs i' = <[id := job]> (jobs i)
       ∧ out = [Connect id; PoolStart job]
       ∧ lastJobId i' = (id + 1)%Z
       ∧ jobCounter i' = jobCounter i ∧ path i' = path i
       ∧ incs i' = incs i ∧ defs i' = defs i ∧ refs i' = refs i ∧ syms i' = syms i).
Proof.
  intros H0 Hmax Hfuel. unfold index.
  destruct (decide (input ∈ indexing i)) as [Hin|Hout].
  - exists (-1)%Z, i, []. split; [done|]. split; [done|]. split; [done|].
    intros Hout. by destruct Hout.
  - pose proof (above_size (lastJobId i) (jobs i)) as Hab.
    destruct (freeId_spec fuel (jobs i) (lastJobId i)) as (id & -> & Hfree & Hle & _);
      [done|lia|lia|].
    eexists id, _, _. split; [done|]. split.
    { split; [lia|]. intros Hin. by destruct Hout. }
    split; [intros Hin; by destruct Hout|]. intros _. simpl. done.
Qed.

(** C3, completion.  With [jobCounter] below [INT_MAX]: [jobDone] removes
    the id from [jobs] and the filename from [indexing]; when no job is left
    or the incremented counter is [SYNCINTERVAL] (10) it runs the four
    syncs in their order and resets the counter to 0, otherwise it leaves
    the staging maps and the disk alone and the counter incremented; it logs
    a sync exactly when it syncs, and always ends by emitting
    [indexingDone(id)], once. *)
Theorem C3_jobDone env id filename i disk :
  (- 2 ^ 31 ≤ jobCounter i < INT_MAX)%Z →
  let result := jobDone env id filename i disk in
  let i' := result.1.1 in
  let due := delete id (jobs i) = ∅ ∨ (jobCounter i + 1)%Z = 10%Z in
  SYNCINTERVAL = 10%Z
  ∧ jobs i' = delete id (jobs i)
  ∧ indexing i' = indexing i ∖ {[filename]}
  ∧ path i' = path i ∧ lastJobId i' = lastJobId i
  ∧ (due →
     let r1 := syncData (env Database.Include) (incs i) Database.Include disk in
     let r2 := syncData (env Database.Definition_) (defs i) Database.Definition_ r1.1.2 in
     let r3 := syncData (env Database.Reference) (refs i) Database.Reference r2.1.2 in
     let r4 := syncData (env Database.Symbol) (syms i) Database.Symbol r3.1.2 in
     incs i' = r1.1.1 ∧ defs i' = r2.1.1 ∧ refs i' = r3.1.1 ∧ syms i' = r4.1.1
     ∧ result.1.2 = r4.1.2
     ∧ jobCounter i' = 0%Z
     ∧ result.2 = [qDebug "syncing"; qDebug "synced"; EmitIndexingDone id])
  ∧ (¬ due →
     incs i' = incs i ∧ defs i' = defs i ∧ refs i' = refs i ∧ syms i' = syms i
     ∧ result.1.2 = disk
     ∧ jobCounter i' = (jobCounter i + 1)%Z
     ∧ result.2 = [EmitIndexingDone id]).
Proof.
  intros Hjc result i' due. unfold INT_MAX in Hjc.
  assert (syncs id i = true ↔ due) as Hdue.
  { unfold syncs, due, SYNCINTERVAL. rewrite wrap_int_id by lia.
    rewrite orb_true_iff, bool_decide_eq_true, Z.eqb_eq. done. }
  subst result i'. unfold jobDone. simpl.
  change (bool_decide (delete id (jobs i) = ∅)
          || (wrap_int (jobCounter i + 1) =? SYNCINTERVAL)%Z) with (syncs id i).
  destruct (syncs id i) eqn:Hs.
  - rewrite syncAll_eq. simpl. do 5 (split; [done|]). split.
    + intros _. done.
    + intros Hn. destruct Hn. by apply Hdue.
  - simpl. do 5 (split; [done|]). split.
    + intros Hd. apply Hdue in Hd. done.
    + intros _. rewrite wrap_int_id by lia. done.
Qed.

(** C9, reindex.  Without an Information record, with an empty one, or with
    one whose first element is empty, [reindex] returns -1 and changes
    nothing; otherwise it returns what [index] returns for the first element
    as input and the rest as arguments, with the state [index] leaves. *)
Theorem C9_reindex fuel filename mode i :
  (resourceExists filename = false
   ∨ resourceRead filename = []
   ∨ (∃ data, resourceRead filename = EmptyString :: data) →
   ∃ out, reindex fuel filename mode i = Some ((-1)%Z, i, out))
  ∧ (∀ input data,
       resourceExists filename = true →
       resourceRead filename = input :: data →
       input ≠ EmptyString →
       reindex fuel filename mode i
       = (fun r : Z * IndexerImpl * list Effect =>
            (r.1.1, r.1.2, [qDebug "trying to reindex"; qDebug "reindexing"] ++ r.2))
         <$> index fuel input data mode i).
Proof.
  unfold reindex. split.
  - intros [Hex|[Hnil|[data Hempty]]].
    + rewrite Hex. simpl. eauto.
    + destruct (resourceExists filename); simpl; [|by eauto]. rewrite Hnil. eauto.
    + destruct (resourceExists filename); simpl; [|by eauto]. rewrite Hempty. simpl. eauto.
  - intros input data -> -> Hne. simpl.
    destruct input as [|c input]; [done|]. simpl.
    by destruct (index _ _ _ _ _) as [[[id i'] out]|].
Qed.
End Coordinator.

(** ** The filename symbol *)

Section FilenameSymbol.
Context `{Externals}.

Lemma get_lacks (s : string) c n a :
  contains s c = false → String.get n s = Some a → a ≠ c.
Proof.
  revert n. induction s as [|b s IH]; intros n Hs Hn; [by destruct n|].
  simpl in Hs. destruct (decide (b = c)) as [|Hb]; [done|].
  destruct n as [|n]; simpl in Hn; [by simplify_eq|]. by apply (IH n).
Qed.

Lemma at_lacks (s : string) c n : contains s c = false → c ≠ NUL → at_ s n ≠ c.
Proof.
  intros Hs Hc. unfold at_. destruct (String.get n s) as [a|] eqn:Hn; simpl.
  - by apply (get_lacks s c n).
  - done.
Qed.

(** Without a slash the scan finds nothing. *)
Lemma scanDown_none (s : string) n : contains s SLASH = false → scanDown s SLASH n = (-1)%Z.
Proof.
  intros Hs. induction n as [|n IH]; simpl;
    rewrite decide_False by (by apply at_lacks); done.
Qed.

(** With the only slash in front the scan ends at index 0. *)
Lemma scanDown_root (name : string) n :
  contains name SLASH = false → scanDown (String SLASH name) SLASH n = 0%Z.
Proof.
  intros Hs. induction n as [|n IH]; simpl; [done|].
  change (at_ (String SLASH name) (S n)) with (at_ name n).
  rewrite decide_False; [done|]. by apply at_lacks.
Qed.

Lemma lastIndexOf_none (s : string) from :
  contains s SLASH = false → lastIndexOf s SLASH from = (-1)%Z.
Proof.
  intros Hs. unfold lastIndexOf. destruct (_ >=? 0)%Z; [|done].
  by apply scanDown_none.
Qed.

Lemma lastIndexOf_root (name : string) :
  contains name SLASH = false → lastIndexOf (String SLASH name) SLASH (-1) = 0%Z.
Proof.
  intros Hs. unfold lastIndexOf.
  replace (-1 <? 0)%Z with true by done.
  destruct (_ >=? 0)%Z eqn:Hge; [by apply scanDown_root|].
  change (String.length (String SLASH name)) with (S (String.length name)) in Hge.
  rewrite Z.geb_leb, Z.leb_gt in Hge. lia.
Qed.

Lemma basenameIndex_S fuel (filename : string) idx :
  basenameIndex (S fuel) filename idx =
    let idx := lastIndexOf filename SLASH idx in
    let '(idx, backslashes) :=
      if (idx >? 0)%Z then skipBackslashes filename (Z.to_nat idx) 0%Z
      else (idx, 0%Z) in
    if negb (backslashes mod 2 =? 0)%Z || (idx =? 0)%Z then
      if (idx - 1 =? 0)%Z then Some (idx - 1)%Z
      else basenameIndex fuel filename (idx - 1)
    else Some (idx + backslashes)%Z.
Proof. done. Qed.

(** A filename without a slash: one round, and no symbol is inserted. *)
Lemma addFilenameSymbol_no_slash fuel (filename : string) syms :
  contains filename SLASH = false →
  addFilenameSymbol (S fuel) filename syms = Some syms.
Proof.
  intros Hs. unfold addFilenameSymbol.
  by rewrite basenameIndex_S, lastIndexOf_none.
Qed.

(** A filename whose only slash is its first byte: every round ends with
    [idx] back at -1, so no number of rounds reaches a [break]. *)
Lemma basenameIndex_root fuel (name : string) :
  contains name SLASH = false →
  basenameIndex fuel (String SLASH name) (-1) = None.
Proof.
  intros Hs. induction fuel as [|fuel IH]; [done|].
  by rewrite basenameIndex_S, lastIndexOf_root.
Qed.

(** C8, at the failing input: for the file /a.c in the root directory
    [addFilenameSymbol] reaches no [break], whatever the number of rounds;
    the claim has it terminate and insert a.c. *)
Theorem C8_root_file_loops fuel syms :
  basenameIndex fuel "/a.c" (-1) = None
  ∧ addFilenameSymbol fuel "/a.c" syms = None.
Proof.
  assert (basenameIndex fuel "/a.c" (-1) = None) as Hloop
    by (by apply (basenameIndex_root fuel "a.c")).
  split; [done|]. unfold addFilenameSymbol. by rewrite Hloop.
Qed.

(** Where the loop does end: the usual absolute path, and a path whose last
    slash is escaped. *)
Example addFilenameSymbol_abs :
  addFilenameSymbol 1 "/abs/a.c" ∅ = Some {[ "a.c" := {[ "/abs/a.c" ]} ]}.
Proof. by vm_compute. Qed.

Example addFilenameSymbol_escaped :
  addFilenameSymbol 2 "x/yy\/b" ∅ = Some {[ "yy\/b" := {[ "x/yy\/b" ]} ]}.
Proof. by vm_compute. Qed.
End FilenameSymbol.

(** ** Staging maps: inserting and folding *)

Section Staging.
Implicit Types (h dst src : gmap string (gset string)) (k key v x : string).

Lemma at_key_empty k : at_key ∅ k = ∅.
Proof. unfold at_key. by rewrite lookup_empty. Qed.

Lemma elem_of_at_key h k x : x ∈ at_key h k ↔ ∃ s, h !! k = Some s ∧ x ∈ s.
Proof.
  unfold at_key. destruct (h !! k) as [s|]; simpl.
  - split; [by eauto|]. by intros (s' & [= <-] & ?).
  - split; [set_solver|]. by intros (s' & [=] & ?).
Qed.

Lemma elem_of_hash_unite h key s k x :
  x ∈ at_key (hash_unite h key s) k ↔ x ∈ at_key h k ∨ (k = key ∧ x ∈ s).
Proof.
  unfold hash_unite, at_key at 1. destruct (decide (key = k)) as [->|Hne].
  - rewrite lookup_insert_eq. simpl. set_solver.
  - rewrite lookup_insert_ne by done. fold (at_key h k). naive_solver.
Qed.

Lemma elem_of_hash_insert h key v k x :
  x ∈ at_key (hash_insert h key v) k ↔ x ∈ at_key h k ∨ (k = key ∧ x = v).
Proof.
  change (hash_insert h key v) with (hash_unite h key {[v]}).
  rewrite elem_of_hash_unite. set_solver.
Qed.

Lemma hash_unite_is_Some h key s k :
  is_Some (hash_unite h key s !! k) ↔ is_Some (h !! k) ∨ k = key.
Proof.
  unfold hash_unite. destruct (decide (key = k)) as [->|Hne].
  - rewrite lookup_insert_eq. naive_solver.
  - rewrite lookup_insert_ne by done. naive_solver.
Qed.

Lemma hash_insert_is_Some h key v k :
  is_Some (hash_insert h key v !! k) ↔ is_Some (h !! k) ∨ k = key.
Proof. apply hash_unite_is_Some. Qed.

(** [uniteSets] adds to every key of the source what the source has there,
    and empties the source. *)
Lemma elem_of_uniteSets dst src k x :
  x ∈ at_key (uniteSets dst src).1 k ↔ x ∈ at_key dst k ∨ x ∈ at_key src k.
Proof.
  unfold uniteSets. simpl.
  assert (∀ l d, x ∈ at_key (foldl (fun d kv => hash_unite d kv.1 kv.2) d l) k
                 ↔ x ∈ at_key d k ∨ ∃ s, (k, s) ∈ l ∧ x ∈ s) as Hgen.
  { induction l as [|[k0 s0] l IH]; intros d; simpl.
    - split; [by left|]. intros [?|(s & Hs & _)]; [done|by inversion Hs].
    - rewrite IH, elem_of_hash_unite. simpl. split.
      + intros [[?|[-> ?]]|(s & Hs & ?)]; [by left|right..].
        * exists s0. split; [by left|done].
        * exists s. split; [by right|done].
      + intros [?|(s & Hs & ?)]; [by left; left|].
        apply elem_of_cons in Hs as [[= -> ->]|Hs]; [left; right; done|].
        right. eauto. }
  rewrite Hgen. apply or_iff_compat_l. rewrite elem_of_at_key.
  split; intros (s & Hs & ?); exists s; split; try done;
    by apply elem_of_map_to_list.
Qed.

Lemma uniteSets_is_Some dst src k :
  is_Some ((uniteSets dst src).1 !! k) ↔ is_Some (dst !! k) ∨ is_Some (src !! k).
Proof.
  unfold uniteSets. simpl.
  assert (∀ l d, is_Some (foldl (fun d kv => hash_unite d kv.1 kv.2) d l !! k)
                 ↔ is_Some (d !! k) ∨ ∃ s, (k, s) ∈ l) as Hgen.
  { induction l as [|[k0 s0] l IH]; intros d; simpl.
    - split; [by left|]. intros [?|(s & Hs)]; [done|by inversion Hs].
    - rewrite IH, hash_unite_is_Some. simpl. split.
      + intros [[?|Hk]|(s & Hs)]; [by left|right..].
        * subst. exists s0. by left.
        * exists s. by right.
      + intros [?|(s & Hs)]; [by left; left|].
        apply elem_of_cons in Hs as [Heq|Hs]; [simplify_eq; left; by right|].
        right. eauto. }
  rewrite Hgen. apply or_iff_compat_l.
  split.
  - intros (s & Hs%elem_of_map_to_list). eauto.
  - intros (s & Hs). exists s. by apply elem_of_map_to_list.
Qed.

End Staging.

(** ** The walks of a job *)

Section Walks.
Context `{Externals}.

(** What one inclusion may add: the job's input, under the resolved path,
    which differs from the input. *)
Lemma elem_of_addInclusion job inc incs k x :
  x ∈ at_key (addInclusion job inc incs) k →
  x ∈ at_key incs k
  ∨ (x = m_in job ∧ k = resolved (constData inc) ∧ k ≠ m_in job).
Proof.
  unfold addInclusion. case_decide as Heq; [by left|].
  intros [?|[-> ->]]%elem_of_hash_insert; [by left|right]. done.
Qed.

Lemma addInclusion_is_Some job inc incs k :
  is_Some (addInclusion job inc incs !! k) →
  is_Some (incs !! k) ∨ k = resolved (constData inc).
Proof.
  unfold addInclusion. case_decide as Heq; [by left|].
  by intros ?%hash_insert_is_Some.
Qed.

(** A property of the include map that [addInclusion] keeps is kept by the
    whole inclusion walk, and so by [run]. *)
Lemma inclusionVisitor_keeps (P : gmap string (gset string) → Prop) job i incs :
  (∀ inc incs, P incs → P (addInclusion job inc incs)) →
  P incs → P (inclusionVisitor job i incs).
Proof.
  intros Hadd Hincs. unfold inclusionVisitor.
  generalize (addInclusion job (included_file i) incs) (Hadd (included_file i) incs Hincs).
  induction (inclusion_stack i) as [|inf l IH]; intros incs' Hincs'; simpl; [done|].
  by apply IH, Hadd.
Qed.

Lemma inclusions_keep (P : gmap string (gset string) → Prop) job l incs :
  (∀ inc incs, P incs → P (addInclusion job inc incs)) →
  P incs → P (foldl (fun incs i => inclusionVisitor job i incs) incs l).
Proof.
  intros Hadd. revert incs. induction l as [|i l IH]; intros incs Hincs; simpl; [done|].
  by apply IH, inclusionVisitor_keeps.
Qed.

Lemma run_incs_keeps (P : gmap string (gset string) → Prop) fuel job i :
  (∀ inc incs, P incs → P (addInclusion job inc incs)) →
  P (incs i) → P (incs (run fuel job i).1.1.2).
Proof.
  intros Hadd Hincs. unfold run.
  destruct (cachedUnit _ _ _) as [unit|]; [|done].
  case_decide; [|done].
  destruct (addFilenameSymbol _ _ _); simpl; by apply inclusions_keep.
Qed.

(** [run] leaves the coordinator's own fields alone. *)
Lemma run_coordinator fuel job i :
  let i' := (run fuel job i).1.1.2 in
  jobCounter i' = jobCounter i ∧ indexing i' = indexing i ∧ path i' = path i
  ∧ lastJobId i' = lastJobId i ∧ jobs i' = jobs i.
Proof.
  unfold run. destruct (cachedUnit _ _ _) as [unit|]; [|done].
  case_decide; [|done]. by destruct (addFilenameSymbol _ _ _).
Qed.





(** What [run] does to the shared definition and reference maps: nothing,
    or the fold of job-local maps that the visit of some cursors built. *)
Lemma run_defs_refs fuel job i :
  let i' := (run fuel job i).1.1.2 in
  (defs i' = defs i ∧ refs i' = refs i)
  ∨ ∃ cursors,
      let job' := foldl (fun job c => indexVisitor c job) job cursors in
      defs i' = (uniteSets (defs i) (m_defs job')).1
      ∧ refs i' = (uniteSets (refs i) (m_refs job')).1.
Proof.
  unfold run. destruct (cachedUnit _ _ _) as [unit|]; [|by left].
  case_decide; [|by left].
  destruct (addFilenameSymbol _ _ _); simpl; [right|by left].
  by exists (children unit).
Qed.
End Walks.

(** * Further properties of the functions *)

(** ** The stored format *)

Section Format.
Context `{Externals}.

(** X1.  A set whose elements are not empty and hold no line feed and no
    NUL byte is read back from its serialised form as it was. *)
Theorem X1_parse_serialise (set : gset string) :
  (∀ x, x ∈ set → plain x ∧ x ≠ EmptyString) →
  parse (serialise (elements set)) = set.
Proof.
  intros Hset. apply leibniz_equiv. intros x. rewrite elem_of_parse_serialise. split.
  - intros (v & Hv%elem_of_elements & Hx).
    destruct (Hset v Hv) as [Hp _]. by rewrite (parse_plain v x Hp Hx).
  - intros Hx. exists x. split; [by apply elem_of_elements|].
    destruct (Hset x Hx) as [Hp Hne]. by apply parse_plain_self.
Qed.

(** With plain staged elements the pieces are the elements. *)
Lemma pieces_plain (set : gset string) x :
  (∀ v, v ∈ set → plain v ∧ v ≠ EmptyString) →
  (∃ v, v ∈ set ∧ x ∈ parse (constData v)) ↔ x ∈ set.
Proof.
  intros Hplain. split.
  - intros (v & Hv & Hx). destruct (Hplain v Hv) as [Hp _].
    by rewrite (parse_plain v x Hp Hx).
  - intros Hx. exists x. split; [done|].
    destruct (Hplain x Hx) as [Hp Hne]. by apply parse_plain_self.
Qed.
End Format.

(** ** The coordinator's calls *)

Section CoordinatorCalls.
Context `{Externals}.

(** [index] changes nothing, or records one fresh job for its input. *)
Lemma index_impl fuel input arguments mode i id i' out :
  index fuel input arguments mode i = Some (id, i', out) →
  i' = i
  ∨ ∃ job, m_in job = input ∧ m_defs job = ∅ ∧ m_refs job = ∅
           ∧ jobs i' = <[id := job]> (jobs i)
           ∧ incs i' = incs i ∧ defs i' = defs i ∧ refs i' = refs i ∧ syms i' = syms i.
Proof.
  unfold index. case_decide; [intros [= <- <- <-]; by left|].
  destruct (freeId _ _ _) as [[id0 last]|]; [|done].
  intros [= <- <- <-]. right. eexists. by repeat split.
Qed.

Lemma reindex_impl fuel filename mode i id i' out :
  reindex fuel filename mode i = Some (id, i', out) →
  i' = i
  ∨ ∃ job, m_in job ∈ take 1 (resourceRead filename)
           ∧ m_defs job = ∅ ∧ m_refs job = ∅
           ∧ jobs i' = <[id := job]> (jobs i)
           ∧ incs i' = incs i ∧ defs i' = defs i ∧ refs i' = refs i ∧ syms i' = syms i.
Proof.
  unfold reindex. destruct (resourceExists filename); simpl; [|intros [= <- <- <-]; by left].
  destruct (resourceRead filename) as [|input data]; [intros [= <- <- <-]; by left|].
  destruct (isEmpty input); [intros [= <- <- <-]; by left|].
  destruct (index _ _ _ _ _) as [[[id0 i0] out0]|] eqn:Hindex; [|done].
  intros [= <- <- <-].
  destruct (index_impl _ _ _ _ _ _ _ _ Hindex) as [->|(job & <- & ?)]; [by left|right].
  exists job. split; [by left|done].
Qed.

(** [jobDone], field by field. *)
Lemma jobDone_sync env id filename i disk :
  let r := jobDone env id filename i disk in
  let r1 := syncData (env Database.Include) (incs i) Database.Include disk in
  let r2 := syncData (env Database.Definition_) (defs i) Database.Definition_ r1.1.2 in
  let r3 := syncData (env Database.Reference) (refs i) Database.Reference r2.1.2 in
  let r4 := syncData (env Database.Symbol) (syms i) Database.Symbol r3.1.2 in
  jobs r.1.1 = delete id (jobs i)
  ∧ if syncs id i
    then incs r.1.1 = r1.1.1 ∧ defs r.1.1 = r2.1.1 ∧ refs r.1.1 = r3.1.1
         ∧ syms r.1.1 = r4.1.1 ∧ r.1.2 = r4.1.2
    else incs r.1.1 = incs i ∧ defs r.1.1 = defs i ∧ refs r.1.1 = refs i
         ∧ syms r.1.1 = syms i ∧ r.1.2 = disk.
Proof.
  unfold jobDone. simpl.
  change (bool_decide (delete id (jobs i) = ∅)
          || (wrap_int (jobCounter i + 1) =? SYNCINTERVAL)%Z) with (syncs id i).
  destruct (syncs id i); [|done]. by rewrite syncAll_eq.
Qed.

(** X6.  When a completion leaves no job, each staging map is emptied if
    the store of its category opens, and kept as it is, for the next sync,
    if the store does not open or has no name. *)
Theorem X6_quiescent_sync env id filename i disk :
  delete id (jobs i) = ∅ →
  let i' := (jobDone env id filename i disk).1.1 in
  incs i' = (if opens (env Database.Include) Database.Include then ∅ else incs i)
  ∧ defs i' = (if opens (env Database.Definition_) Database.Definition_ then ∅ else defs i)
  ∧ refs i' = (if opens (env Database.Reference) Database.Reference then ∅ else refs i)
  ∧ syms i' = (if opens (env Database.Symbol) Database.Symbol then ∅ else syms i)
  ∧ jobCounter i' = 0%Z.
Proof.
  intros Hempty i'.
  pose proof (jobDone_sync env id filename i disk) as [_ Hs].
  assert (syncs id i = true) as Hdue
    by (unfold syncs; by rewrite bool_decide_eq_true_2).
  rewrite Hdue in Hs. destruct Hs as (Hi & Hd & Hr & Hy & _).
  subst i'. rewrite Hi, Hd, Hr, Hy, !syncData_staging.
  do 4 (split; [done|]).
  unfold jobDone. simpl.
  change (bool_decide (delete id (jobs i) = ∅)
          || (wrap_int (jobCounter i + 1) =? SYNCINTERVAL)%Z) with (syncs id i).
  rewrite Hdue. by destruct (syncAll _ _ _) as [[??]?].
Qed.

(** The probe, whatever its fuel: when it returns, the id is free, no
    smaller id from [last] on is, and [lastJobId] is just past it. *)
Lemma freeId_sound fuel (jobs : gmap Z IndexerJob) last id last' :
  (0 ≤ last)%Z →
  (last + Z.of_nat (size (above last jobs)) < INT_MAX)%Z →
  freeId fuel jobs last = Some (id, last') →
  jobs !! id = None
  ∧ last' = (id + 1)%Z
  ∧ (last ≤ id ≤ last + Z.of_nat (size (above last jobs)))%Z
  ∧ ∀ k, (last ≤ k < id)%Z → is_Some (jobs !! k).
Proof.
  revert last. induction fuel as [|fuel IH]; intros last H0 Hmax; [done|].
  simpl. unfold INT_MAX in Hmax.
  destruct (decide (is_Some (jobs !! last))) as [Hin|Hout].
  - pose proof (above_next last jobs Hin) as Hlt.
    rewrite wrap_int_id by lia. intros Hrec.
    destruct (IH (last + 1)%Z) as (Hfree & Hl & Hle & Hbelow);
      [lia|unfold INT_MAX; lia|done|].
    split; [done|]. split; [done|]. split; [lia|].
    intros k Hk. destruct (decide (k = last)) as [->|Hne]; [done|]. apply Hbelow. lia.
  - intros [= <- <-]. split; [by apply eq_None_not_Some|].
    split; [apply wrap_int_id; lia|]. split; [lia|]. intros k Hk. lia.
Qed.

(** X9.  An admitted input is the least free id at or after [lastJobId]:
    whenever [index] admits an input, the id it returns is not in [jobs],
    every id from [lastJobId] up to it is, and it is at most the number of
    jobs away from [lastJobId]. *)
Theorem X9_index_least_free_id fuel input arguments mode i id i' out :
  (0 ≤ lastJobId i)%Z →
  (lastJobId i + Z.of_nat (size (jobs i)) < INT_MAX)%Z →
  input ∉ indexing i →
  index fuel input arguments mode i = Some (id, i', out) →
  jobs i !! id = None
  ∧ (lastJobId i ≤ id ≤ lastJobId i + Z.of_nat (size (jobs i)))%Z
  ∧ (∀ k, (lastJobId i ≤ k < id)%Z → is_Some (jobs i !! k))
  ∧ m_id <$> jobs i' !! id = Some id.
Proof.
  intros H0 Hmax Hin. unfold index. rewrite decide_False by done.
  pose proof (above_size (lastJobId i) (jobs i)) as Hab.
  destruct (freeId _ _ _) as [[id0 last]|] eqn:Hfree; [|done].
  intros [= <- <- <-].
  assert (lastJobId i + Z.of_nat (size (above (lastJobId i) (jobs i))) < INT_MAX)%Z
    as Hmax' by lia.
  destruct (freeId_sound _ _ _ _ _ H0 Hmax' Hfree) as (Hnone & _ & Hle & Hbelow).
  split; [done|]. split; [lia|]. split; [done|].
  simpl. by rewrite lookup_insert_eq.
Qed.

(** X10.  One job per input: once an input is admitted, submitting it again
    returns -1 and changes nothing, other inputs are as admissible as
    before, and after the completion of that job the input is out of
    [indexing] and the id out of [jobs]. *)
Theorem X10_one_job_per_input fuel input arguments mode i id i' out :
  input ∉ indexing i →
  index fuel input arguments mode i = Some (id, i', out) →
  (∀ fuel' arguments' mode',
     index fuel' input arguments' mode' i' = Some ((-1)%Z, i', []))
  ∧ (∀ other, other ≠ input → (other ∈ indexing i' ↔ other ∈ indexing i))
  ∧ (∀ env disk,
       (input ∉ indexing (jobDone env id input i' disk).1.1)
       ∧ jobs (jobDone env id input i' disk).1.1 !! id = None).
Proof.
  intros Hin Hindex. unfold index in Hindex. rewrite decide_False in Hindex by done.
  destruct (freeId _ _ _) as [[id0 last]|]; [|done].
  injection Hindex as <- <- <-. split; [|split].
  - intros fuel' arguments' mode'. unfold index. simpl.
    rewrite decide_True; [done|set_solver].
  - intros other Hne. simpl. set_solver.
  - intros env disk.
    pose proof (jobDone_sync env id0 input
      {| jobCounter := jobCounter i; indexing := indexing i ∪ {[input]};
         path := path i; lastJobId := last;
         jobs := <[id0 := {| m_mode := mode; m_id := id0; m_path := path i;
                             m_in := input; m_args := arguments;
                             m_defs := ∅; m_refs := ∅; m_syms := ∅ |}]> (jobs i);
         incs := incs i; defs := defs i; refs := refs i; syms := syms i |} disk)
      as [Hj _].
    split; [|by rewrite Hj, lookup_delete_eq].
    unfold jobDone. simpl. destruct (_ || _); [|simpl; set_solver].
    rewrite syncAll_eq. simpl. set_solver.
Qed.

(** X11.  All the ways [reindex] rejects: from a state in which the probe
    cannot overflow and with fuel beyond the number of jobs, [reindex]
    returns, and it returns -1 exactly when there is no Information record,
    or the record is empty, or its first element is empty, or its first
    element is being indexed. *)
Theorem X11_reindex_rejects fuel filename mode i :
  (0 ≤ lastJobId i)%Z →
  (lastJobId i + Z.of_nat (size (jobs i)) < INT_MAX)%Z →
  size (jobs i) < fuel →
  ∃ id i' out,
    reindex fuel filename mode i = Some (id, i', out)
    ∧ (id = (-1)%Z ↔
       resourceExists filename = false
       ∨ resourceRead filename = []
       ∨ ∃ input data, resourceRead filename = input :: data
                       ∧ (input = EmptyString ∨ input ∈ indexing i)).
Proof.
  intros H0 Hmax Hfuel. unfold reindex.
  destruct (resourceExists filename); simpl.
  2:{ eexists _, _, _. split; [done|]. split; [by left|done]. }
  destruct (resourceRead filename) as [|input data].
  { eexists _, _, _. split; [done|]. split; [|done]. intros _. right. by left. }
  destruct input as [|c input]; simpl.
  { eexists _, _, _. split; [done|]. split; [|done]. intros _. right. right. eauto. }
  unfold index. destruct (decide (String c input ∈ indexing i)) as [Hin|Hout].
  { eexists _, _, _. split; [done|]. split; [|done]. intros _. right. right. eauto. }
  pose proof (above_size (lastJobId i) (jobs i)) as Hab.
  destruct (freeId_spec fuel (jobs i) (lastJobId i)) as (id & -> & _ & Hle & _);
    [done|lia|lia|].
  eexists _, _, _. split; [done|]. split; [lia|].
  intros [?|[?|(input' & data' & [= <- <-] & [?|?])]]; done.
Qed.
End CoordinatorCalls.

(** ** The walks, in full *)

Section WalksInFull.
Context `{Externals}.

(** X13.  [uniteSets] leaves under every key the union of what the
    destination and the source held there, has a key exactly where one of
    the two had it, and empties the source. *)
Theorem X13_uniteSets_unites (dst src : gmap string (gset string)) k :
  at_key (uniteSets dst src).1 k = at_key dst k ∪ at_key src k
  ∧ (is_Some ((uniteSets dst src).1 !! k) ↔ is_Some (dst !! k) ∨ is_Some (src !! k))
  ∧ (uniteSets dst src).2 = ∅.
Proof.
  split; [|split; [apply uniteSets_is_Some|done]].
  apply leibniz_equiv. intros x. rewrite elem_of_uniteSets. set_solver.
Qed.

Lemma elem_of_addInclusion_iff job inc incs k x :
  x ∈ at_key (addInclusion job inc incs) k ↔
  x ∈ at_key incs k
  ∨ (x = m_in job ∧ k ≠ m_in job ∧ k = resolved (constData inc)).
Proof.
  unfold addInclusion. case_decide as Heq.
  - split; [by left|]. intros [?|(_ & Hne & ->)]; [done|]. by destruct Hne.
  - rewrite elem_of_hash_insert. split.
    + intros [?|[-> ->]]; [by left|right]. done.
    + intros [?|(-> & _ & ->)]; [by left|by right].
Qed.

Lemma elem_of_addInclusions job (l : list string) incs k x :
  x ∈ at_key (foldl (fun incs inf => addInclusion job inf incs) incs l) k ↔
  x ∈ at_key incs k
  ∨ (x = m_in job ∧ k ≠ m_in job ∧ ∃ f, f ∈ l ∧ k = resolved (constData f)).
Proof.
  revert incs. induction l as [|f l IH]; intros incs; simpl.
  - split; [by left|]. intros [?|(_ & _ & f & Hf & _)]; [done|by inversion Hf].
  - rewrite IH, elem_of_addInclusion_iff. split.
    + intros [[?|(-> & Hne & ->)]|(-> & Hne & f' & Hf' & ->)]; [by left|right..].
      * split; [done|]. split; [done|]. exists f. split; [by left|done].
      * split; [done|]. split; [done|]. exists f'. split; [by right|done].
    + intros [?|(-> & Hne & f' & Hf' & ->)]; [by left; left|].
      apply elem_of_cons in Hf' as [->|Hf'].
      * left. right. done.
      * right. split; [done|]. split; [done|]. by exists f'.
Qed.

(** X14.  After the inclusion callback for one inclusion, the include map
    holds under a path what it held before and, when the path is the
    resolved name of the included file or of a file of its inclusion stack
    and is not the job's input, that input; nothing else. *)
Theorem X14_inclusionVisitor_records job i incs k x :
  x ∈ at_key (inclusionVisitor job i incs) k ↔
  x ∈ at_key incs k
  ∨ (x = m_in job ∧ k ≠ m_in job
     ∧ ∃ f, f ∈ included_file i :: inclusion_stack i ∧ k = resolved (constData f)).
Proof. apply (elem_of_addInclusions job (included_file i :: inclusion_stack i)). Qed.

(** *** Name permutations *)

Lemma length_app (s t : string) :
  String.length (s +:+ t) = String.length s + String.length t.
Proof. induction s as [|a s IH]; [done|]. rewrite app_cons. simpl. by rewrite IH. Qed.

Lemma length_zero_iff (s : string) : (String.length s =? 0) = true ↔ s = EmptyString.
Proof. by destruct s. Qed.

(** The loop, entered with names that are not empty: it records the USR
    under both names qualified by every non-empty prefix of the scopes. *)
Lemma elem_of_addNamePermutations_from cur qusr qparam qnoparam syms k x :
  qparam ≠ EmptyString →
  x ∈ at_key (addNamePermutations_from cur qusr qparam qnoparam syms) k ↔
  x ∈ at_key syms k
  ∨ (x = qusr
     ∧ ∃ j, 1 ≤ j ≤ length (scopeNames cur)
            ∧ (k = qualify qparam (take j (scopeNames cur))
               ∨ k = qualify qnoparam (take j (scopeNames cur)))).
Proof.
  revert qparam qnoparam syms.
  induction cur as [|kind usr rusr file line col isDef name parent IH];
    intros qparam qnoparam syms Hne; simpl.
  { split; [by left|]. intros [?|(_ & j & Hj & _)]; [done|simpl in Hj; lia]. }
  destruct (clang_isTranslationUnit kind).
  { split; [by left|]. intros [?|(_ & j & Hj & _)]; [done|simpl in Hj; lia]. }
  destruct name as [name|].
  2:{ split; [by left|]. intros [?|(_ & j & Hj & _)]; [done|simpl in Hj; lia]. }
  destruct (decide (constData name = EmptyString)) as [Hname|Hname].
  { rewrite Hname. simpl.
    split; [by left|]. intros [?|(_ & j & Hj & _)]; [done|simpl in Hj; lia]. }
  destruct (String.length (constData name) =? 0) eqn:Hlen.
  { by apply length_zero_iff in Hlen. }
  destruct qparam as [|c qparam]; [done|]. simpl.
  set (qp := (constData name +:+ "::") +:+ String c qparam).
  set (qnp := (constData name +:+ "::") +:+ qnoparam).
  assert (qp ≠ EmptyString) as Hqp.
  { unfold qp. destruct (constData name); [done|]. done. }
  assert (∀ syms',
    x ∈ at_key (addNamePermutations_from parent qusr qp qnp syms') k ↔
    x ∈ at_key syms' k
    ∨ (x = qusr
       ∧ ∃ j, 2 ≤ j ≤ S (length (scopeNames parent))
              ∧ (k = qualify (String c qparam) (take j (constData name :: scopeNames parent))
                 ∨ k = qualify qnoparam (take j (constData name :: scopeNames parent)))))
    as Hrec.
  { intros syms'. rewrite IH by done. apply or_iff_compat_l, and_iff_compat_l. split.
    - intros (j & Hj & Hk). exists (S j). split; [lia|]. done.
    - intros (j & Hj & Hk). destruct j as [|j]; [lia|]. exists j. split; [lia|]. done. }
  assert (∀ P : Prop,
    (P ∨ x = qusr ∧ (k = qp ∨ k = qnp))
    ∨ (x = qusr
       ∧ ∃ j, 2 ≤ j ≤ S (length (scopeNames parent))
              ∧ (k = qualify (String c qparam) (take j (constData name :: scopeNames parent))
                 ∨ k = qualify qnoparam (take j (constData name :: scopeNames parent))))
    ↔ P ∨ (x = qusr
           ∧ ∃ j, 1 ≤ j ≤ S (length (scopeNames parent))
                  ∧ (k = qualify (String c qparam)
                           (take j (constData name :: scopeNames parent))
                     ∨ k = qualify qnoparam
                             (take j (constData name :: scopeNames parent))))) as Hmerge.
  { intros P. split.
    - intros [[?|[-> Hk]]|(-> & j & Hj & Hk)]; [by left|right..].
      + split; [done|]. exists 1. split; [lia|]. done.
      + split; [done|]. exists j. split; [lia|]. done.
    - intros [?|(-> & j & Hj & Hk)]; [by left; left|].
      destruct (decide (j = 1)) as [->|Hj1].
      + left. right. done.
      + right. split; [done|]. exists j. split; [lia|]. done. }
  rewrite Hrec, <-Hmerge. apply or_iff_compat_r.
  case_decide as Hdiff.
  - rewrite !elem_of_hash_insert. naive_solver.
  - rewrite elem_of_hash_insert, <-Hdiff. naive_solver.
Qed.

(** X15. [addNamePermutations] (lines 172-211) records the USR, and nothing
    else, under the cursor's display name qualified by each run of enclosing
    scopes, innermost first, with and without the parameter list; it climbs
    the semantic parents up to the first null cursor, translation unit or
    nameless cursor, and leaves the definitions and the references alone. *)
Theorem X15_addNamePermutations_records cursor usr job k x :
  (x ∈ at_key (m_syms (addNamePermutations cursor usr job)) k ↔
   x ∈ at_key (m_syms job) k
   ∨ (x = constData usr
      ∧ ∃ leaf outer j,
          scopeNames cursor = leaf :: outer ∧ j ≤ length outer
          ∧ (k = qualify leaf (take j outer)
             ∨ k = qualify (withoutParameters leaf) (take j outer))))
  ∧ m_defs (addNamePermutations cursor usr job) = m_defs job
  ∧ m_refs (addNamePermutations cursor usr job) = m_refs job.
Proof.
  split; [|done]. unfold addNamePermutations. simpl.
  destruct cursor as [|kind cusr rusr file line col isDef name parent]; simpl.
  { split; [by left|]. by intros [?|(_ & ? & ? & ? & ? & _)]. }
  destruct (clang_isTranslationUnit kind).
  { split; [by left|]. by intros [?|(_ & ? & ? & ? & ? & _)]. }
  destruct name as [name|].
  2:{ split; [by left|]. by intros [?|(_ & ? & ? & ? & ? & _)]. }
  destruct (decide (constData name = EmptyString)) as [Hname|Hname].
  { rewrite Hname. simpl. split; [by left|]. by intros [?|(_ & ? & ? & ? & ? & _)]. }
  destruct (String.length (constData name) =? 0) eqn:Hlen.
  { by apply length_zero_iff in Hlen. }
  rewrite !app_empty_r. fold (withoutParameters (constData name)).
  set (leaf := constData name) in *. set (bare := withoutParameters leaf).
  rewrite elem_of_addNamePermutations_from by done.
  assert (x ∈ at_key
            (if decide (leaf ≠ bare)
             then hash_insert (hash_insert (m_syms job) leaf (constData usr)) bare
                    (constData usr)
             else hash_insert (m_syms job) leaf (constData usr)) k
          ↔ x ∈ at_key (m_syms job) k ∨ (x = constData usr ∧ (k = leaf ∨ k = bare)))
    as ->.
  { case_decide as Hdiff.
    - rewrite !elem_of_hash_insert. naive_solver.
    - rewrite elem_of_hash_insert, <-Hdiff. naive_solver. }
  split.
  - intros [[?|[-> Hk]]|(-> & j & Hj & Hk)]; [by left|right..].
    + split; [done|]. exists leaf, (scopeNames parent), 0. split; [done|].
      split; [lia|]. done.
    + split; [done|]. exists leaf, (scopeNames parent), j. split; [done|].
      split; [lia|]. done.
  - intros [?|(-> & leaf' & outer & j & [= <- <-] & Hj & Hk)]; [by left; left|].
    destruct j as [|j].
    + left. right. done.
    + right. split; [done|]. exists (S j). split; [lia|]. done.
Qed.

Lemma indexOf_spec (s : string) (c : ascii) :
  (contains s c = false ∧ indexOf s c = (-1)%Z)
  ∨ (∃ pre post, s = pre +:+ String c post ∧ contains pre c = false
                 ∧ indexOf s c = Z.of_nat (String.length pre)
                 ∧ left_ s (String.length pre) = pre).
Proof.
  induction s as [|a s IH]; [by left|]. simpl.
  destruct (decide (a = c)) as [->|Hne].
  { right. exists EmptyString, s. done. }
  destruct IH as [[Hc Hi]|(pre & post & -> & Hc & Hi & Hl)].
  - left. by rewrite Hi.
  - right. exists (String a pre), post. rewrite Hi.
    split; [by rewrite app_cons|]. split.
    { simpl. by rewrite decide_False. }
    split.
    { destruct (Z.ltb_spec (Z.of_nat (String.length pre)) 0); simpl; lia. }
    unfold left_ in *. simpl. by rewrite Hl.
Qed.

(** X16. The name without parameters (lines 197-199) is the display name
    cut before its first opening parenthesis: it holds no parenthesis, and
    the display name is it followed by nothing or by a parenthesis and the
    rest. *)
Theorem X16_withoutParameters_cuts name :
  contains (withoutParameters name) "("%char = false
  ∧ ∃ rest, name = withoutParameters name +:+ rest
            ∧ (rest = EmptyString ∨ ∃ r, rest = String "("%char r).
Proof.
  unfold withoutParameters.
  destruct (indexOf_spec name "("%char) as [[Hc Hi]|(pre & post & Hs & Hc & Hi & Hl)].
  - rewrite Hi. rewrite decide_False by naive_solver. split; [done|].
    exists EmptyString. rewrite app_empty_r. by split; [|left].
  - rewrite Hi. rewrite decide_True by lia. rewrite Nat2Z.id, Hl.
    split; [done|]. exists (String "("%char post). split; [done|]. right. by eexists.
Qed.

(** *** The cursor visit *)

Lemma noUSR_spec (cusr : string) : noUSR cusr = false ↔ usable cusr.
Proof.
  unfold usable. split.
  - intros Hno. split; intros ->; discriminate Hno.
  - intros [Hempty Hbare]. unfold noUSR.
    destruct cusr as [|a [|b [|c r]]]; try done.
    change (String.eqb (String a (String b EmptyString)) "c:" = false).
    by apply String.eqb_neq.
Qed.

Lemma constData_idemp (s : string) : constData (constData s) = constData s.
Proof. apply constData_id, constData_no_NUL. Qed.

(** One visit in full: which USR the cursor goes under, if any. *)
Lemma indexVisitor_cases kind usr rusr file line col isDef name parent job :
  let c := Cursor kind usr rusr file line col isDef name parent in
  let cusr := if noUSR (constData usr) then constData rusr else constData usr in
  indexVisitor c job =
    if decide (kind = CXCursor_CXXAccessSpecifier) then job
    else if noUSR cusr then job
    else match file with
         | None => job
         | Some cfilename =>
             if decide (constData cfilename = EmptyString) then job
             else
               let qloc := location cfilename line col in
               {| m_mode := m_mode job; m_id := m_id job; m_path := m_path job;
                  m_in := m_in job; m_args := m_args job;
                  m_defs := if isDef then hash_insert (m_defs job) cusr qloc
                            else m_defs job;
                  m_refs := hash_insert (m_refs job) cusr qloc;
                  m_syms := if isDef then m_syms (addNamePermutations c cusr job)
                            else m_syms job |}
         end.
Proof.
  intros c cusr.
  assert (constData cusr = cusr) as Hid.
  { unfold cusr. destruct (noUSR _); apply constData_idemp. }
  destruct kind; [done|..];
    (unfold indexVisitor, addNamePermutations, c;
     cbn [m_syms m_defs m_refs m_mode m_id m_path m_in m_args];
     rewrite decide_False by done;
     fold cusr; destruct (noUSR cusr); [done|];
     destruct file as [cfilename|]; [|done];
     destruct (decide (constData cfilename = EmptyString)) as [->|Hf]; [done|];
     destruct (String.length (constData cfilename) =? 0) eqn:Hlen;
       [by apply length_zero_iff in Hlen|];
     destruct isDef; [|by destruct job];
     rewrite Hid; reflexivity).
Qed.

(** The USR a cursor goes under: its own when usable, else that of the
    cursor it refers to. *)
Lemma recorded_usr usr rusr u :
  (usable (constData usr) ∧ u = constData usr)
  ∨ (¬ usable (constData usr) ∧ usable (constData rusr) ∧ u = constData rusr) →
  (if noUSR (constData usr) then constData rusr else constData usr) = u
  ∧ noUSR u = false.
Proof.
  intros [[Hown ->]|(Hown & Href & ->)].
  - pose proof Hown as Hno%noUSR_spec. by rewrite Hno.
  - destruct (noUSR (constData usr)) eqn:Hno.
    + split; [done|]. by apply noUSR_spec.
    + by apply noUSR_spec in Hno.
Qed.

(** X17. A visited cursor (lines 213-271) that is no access specifier and
    has a file name goes under its own USR when that is usable, else under
    the USR of the cursor it refers to when that one is: its location is
    added to the references under that USR, and for a definition also to
    the definitions, with the name permutations added to the symbols; the
    rest of the job stays. *)
Theorem X17_indexVisitor_records kind usr rusr cfile line col isDef name parent job u :
  kind ≠ CXCursor_CXXAccessSpecifier →
  constData cfile ≠ EmptyString →
  (usable (constData usr) ∧ u = constData usr)
  ∨ (¬ usable (constData usr) ∧ usable (constData rusr) ∧ u = constData rusr) →
  let c := Cursor kind usr rusr (Some cfile) line col isDef name parent in
  let job' := indexVisitor c job in
  m_refs job' = hash_insert (m_refs job) u (location cfile line col)
  ∧ m_defs job' = (if isDef then hash_insert (m_defs job) u (location cfile line col)
                   else m_defs job)
  ∧ m_syms job' = (if isDef then m_syms (addNamePermutations c u job) else m_syms job)
  ∧ m_id job' = m_id job ∧ m_in job' = m_in job ∧ m_args job' = m_args job
  ∧ m_mode job' = m_mode job ∧ m_path job' = m_path job.
Proof.
  intros Hkind Hfile Hu c job'. unfold job', c. rewrite indexVisitor_cases.
  rewrite decide_False by done.
  destruct (recorded_usr usr rusr u Hu) as [-> ->].
  rewrite decide_False by done. done.
Qed.

(** X18. A visit changes nothing for an access specifier, for a cursor
    whose own USR and referenced USR are both empty or the bare prefix, and
    for a cursor without a file name. *)
Theorem X18_indexVisitor_skips kind usr rusr file line col isDef name parent job :
  kind = CXCursor_CXXAccessSpecifier
  ∨ (¬ usable (constData usr) ∧ ¬ usable (constData rusr))
  ∨ file = None
  ∨ (∃ cfile, file = Some cfile ∧ constData cfile = EmptyString) →
  indexVisitor (Cursor kind usr rusr file line col isDef name parent) job = job.
Proof.
  intros Hskip. rewrite indexVisitor_cases.
  destruct (decide (kind = CXCursor_CXXAccessSpecifier)) as [|Hkind]; [done|].
  destruct (noUSR (if noUSR (constData usr) then constData rusr else constData usr))
    eqn:Hno; [done|].
  destruct Hskip as [?|[[Hown Href]|[->|(cfile & -> & Hfile)]]]; [done|..|done|].
  - destruct (noUSR (constData usr)) eqn:Hno'; by apply noUSR_spec in Hno.
  - by rewrite decide_True.
Qed.

(** *** What a walk records *)

Lemma staged_ok_empty : staged_ok ∅.
Proof.
  split.
  - intros k [? Hk]. by rewrite lookup_empty in Hk.
  - intros k x. rewrite at_key_empty. set_solver.
Qed.

Lemma staged_ok_insert h u cfile line col :
  staged_ok h → usable u → contains u NUL = false →
  staged_ok (hash_insert h u (location cfile line col)).
Proof.
  intros [Hkeys Hvals] Hu Hnul. split.
  - intros k [?| ->]%hash_insert_is_Some; auto.
  - intros k x [?|[-> ->]]%elem_of_hash_insert; eauto.
Qed.

Lemma staged_ok_uniteSets dst src :
  staged_ok dst → staged_ok src → staged_ok (uniteSets dst src).1.
Proof.
  intros [Hkd Hvd] [Hks Hvs]. split.
  - intros k [?|?]%uniteSets_is_Some; auto.
  - intros k x [?|?]%elem_of_uniteSets; eauto.
Qed.

Lemma staged_ok_indexVisitor c job :
  staged_ok (m_defs job) → staged_ok (m_refs job) →
  staged_ok (m_defs (indexVisitor c job)) ∧ staged_ok (m_refs (indexVisitor c job)).
Proof.
  intros Hd Hr.
  destruct c as [|kind usr rusr file line col isDef name parent]; [done|].
  rewrite indexVisitor_cases.
  destruct (decide (kind = CXCursor_CXXAccessSpecifier)); [done|].
  set (cusr := if noUSR (constData usr) then constData rusr else constData usr).
  assert (contains cusr NUL = false) as Hnul.
  { unfold cusr. destruct (noUSR _); apply constData_no_NUL. }
  destruct (noUSR cusr) eqn:Hno; [done|]. apply noUSR_spec in Hno.
  destruct file as [cfile|]; [|done].
  destruct (decide (constData cfile = EmptyString)); [done|]. simpl.
  split; [destruct isDef; [|done]|]; by apply staged_ok_insert.
Qed.

Lemma staged_ok_visit cursors job :
  staged_ok (m_defs job) → staged_ok (m_refs job) →
  let job' := foldl (fun job c => indexVisitor c job) job cursors in
  staged_ok (m_defs job') ∧ staged_ok (m_refs job').
Proof.
  revert job. induction cursors as [|c l IH]; intros job Hd Hr; simpl; [done|].
  by apply IH; apply staged_ok_indexVisitor.
Qed.

Lemma location_not_empty cfile line col : location cfile line col ≠ EmptyString.
Proof.
  intros Heq. apply (f_equal String.length) in Heq. revert Heq.
  unfold location. rewrite !length_app. simpl. lia.
Qed.

Lemma indexVisitor_mono c job k :
  at_key (m_defs job) k ⊆ at_key (m_defs (indexVisitor c job)) k
  ∧ at_key (m_refs job) k ⊆ at_key (m_refs (indexVisitor c job)) k.
Proof.
  destruct c as [|kind usr rusr file line col isDef name parent]; [done|].
  rewrite indexVisitor_cases.
  destruct (decide (kind = CXCursor_CXXAccessSpecifier)); [done|].
  destruct (noUSR _); [done|]. destruct file as [cfile|]; [|done].
  destruct (decide (constData cfile = EmptyString)); [done|]. simpl.
  split; [destruct isDef; [|done]|]; intros x Hx; apply elem_of_hash_insert; by left.
Qed.

Lemma visit_mono cursors job k :
  let job' := foldl (fun job c => indexVisitor c job) job cursors in
  at_key (m_defs job) k ⊆ at_key (m_defs job') k
  ∧ at_key (m_refs job) k ⊆ at_key (m_refs job') k.
Proof.
  revert job. induction cursors as [|c l IH]; intros job; simpl; [done|].
  destruct (IH (indexVisitor c job)) as [Hd Hr].
  destruct (indexVisitor_mono c job k) as [Hd' Hr'].
  split; by etrans.
Qed.

(** A cursor of the walk that can be recorded is among the references
    after the walk, and among the definitions when it is one. *)
Lemma visit_records cursors job kind usr rusr cfile line col isDef name parent u :
  Cursor kind usr rusr (Some cfile) line col isDef name parent ∈ cursors →
  kind ≠ CXCursor_CXXAccessSpecifier →
  constData cfile ≠ EmptyString →
  (usable (constData usr) ∧ u = constData usr)
  ∨ (¬ usable (constData usr) ∧ usable (constData rusr) ∧ u = constData rusr) →
  let job' := foldl (fun job c => indexVisitor c job) job cursors in
  location cfile line col ∈ at_key (m_refs job') u
  ∧ (isDef = true → location cfile line col ∈ at_key (m_defs job') u).
Proof.
  intros Hin Hkind Hfile Hu. revert job.
  induction cursors as [|c l IH]; intros job; [by apply elem_of_nil in Hin|].
  apply elem_of_cons in Hin as [<-|Hin]; [|by apply IH].
  cbn [foldl]. rewrite indexVisitor_cases. rewrite decide_False by done.
  destruct (recorded_usr usr rusr u Hu) as [-> ->].
  rewrite decide_False by done.
  match goal with |- context [foldl _ ?j l] => destruct (visit_mono l j u) as [Hd Hr] end.
  split.
  - apply Hr. simpl. apply elem_of_hash_insert. by right.
  - intros ->. apply Hd. simpl. apply elem_of_hash_insert. by right.
Qed.
End WalksInFull.

(** ** The filename symbol, path by path *)

Section FilenameInFull.
Context `{Externals}.

Lemma at_app_l (s t : string) n : n < String.length s → at_ (s +:+ t) n = at_ s n.
Proof.
  revert n. induction s as [|a s IH]; intros n Hn; simpl in Hn; [lia|].
  rewrite app_cons. destruct n as [|n]; [done|].
  change (at_ (s +:+ t) n = at_ s n). apply IH. lia.
Qed.

Lemma at_app_r (s t : string) n : at_ (s +:+ t) (String.length s + n) = at_ t n.
Proof.
  induction s as [|a s IH]; [done|]. rewrite app_cons. exact IH.
Qed.

Lemma substring_all (t : string) : String.substring 0 (String.length t) t = t.
Proof. induction t as [|a t IH]; [done|]. simpl. by rewrite IH. Qed.

Lemma substring_app_r (s t : string) :
  String.substring (String.length s) (String.length t) (s +:+ t) = t.
Proof. induction s as [|a s IH]; [apply substring_all|]. by rewrite app_cons. Qed.

(** [mid] gives a suffix. *)
Lemma substring_suffix (s : string) n :
  ∃ pre, s = pre +:+ String.substring n (String.length s - n) s.
Proof.
  revert n. induction s as [|a s IH]; intros n; [exists EmptyString; by destruct n|].
  destruct n as [|n].
  - exists EmptyString. by rewrite Nat.sub_0_r, substring_all.
  - destruct (IH n) as [pre Hpre]. exists (String a pre).
    rewrite app_cons. simpl. by rewrite <-Hpre.
Qed.

(** The last slash of [dir/base], for a [base] without one. *)
Lemma scanDown_last (dir base : string) n :
  contains base SLASH = false →
  scanDown (dir +:+ String SLASH base) SLASH (String.length dir + n)
  = Z.of_nat (String.length dir).
Proof.
  intros Hbase. induction n as [|n IH].
  - rewrite Nat.add_0_r. destruct (String.length dir) eqn:Hlen; simpl;
      rewrite <-?Hlen, <-(Nat.add_0_r (String.length dir)), at_app_r;
      by rewrite decide_True.
  - rewrite Nat.add_succ_r. simpl.
    rewrite <-Nat.add_succ_r, at_app_r.
    change (at_ (String SLASH base) (S n)) with (at_ base n).
    rewrite decide_False by (by apply at_lacks). rewrite <-IH. done.
Qed.

Lemma lastIndexOf_last (dir base : string) :
  contains base SLASH = false →
  lastIndexOf (dir +:+ String SLASH base) SLASH (-1) = Z.of_nat (String.length dir).
Proof.
  intros Hbase. unfold lastIndexOf. rewrite length_app. simpl String.length.
  replace (-1 <? 0)%Z with true by done.
  destruct (_ >=? 0)%Z eqn:Hge.
  2:{ rewrite Z.geb_leb, Z.leb_gt in Hge. lia. }
  replace (Z.to_nat (-1 + Z.of_nat (String.length dir + S (String.length base))))
    with (String.length dir + String.length base) by lia.
  by apply scanDown_last.
Qed.

Lemma skipBackslashes_stop (filename : string) m b :
  at_ filename m ≠ BACKSLASH →
  skipBackslashes filename (S m) b = (Z.of_nat (S m), b).
Proof. intros Hm. simpl. by rewrite decide_False. Qed.

Lemma at_escapes p (rest : string) m : m < p → at_ (escapes p +:+ rest) m = BACKSLASH.
Proof.
  revert m. induction p as [|p IH]; intros m Hm; [lia|].
  simpl. rewrite app_cons. destruct m as [|m]; [done|].
  change (at_ (escapes p +:+ rest) m = BACKSLASH). apply IH. lia.
Qed.

Lemma length_escapes p : String.length (escapes p) = p.
Proof. induction p as [|p IH]; [done|]. simpl. by rewrite IH. Qed.

Lemma skipBackslashes_escapes p (rest : string) m b :
  m ≤ p → skipBackslashes (escapes p +:+ rest) m b = (0%Z, (b + Z.of_nat m)%Z).
Proof.
  revert b. induction m as [|m IH]; intros b Hm; simpl.
  - f_equal. lia.
  - rewrite at_escapes by lia. rewrite decide_True by done.
    rewrite IH by lia. f_equal. lia.
Qed.

(** Backslashes up to the only slash: every round ends with [idx] back at
    -1, so no number of rounds reaches a [break]. *)
Lemma basenameIndex_escaped_root fuel p (name : string) :
  contains name SLASH = false →
  basenameIndex fuel (escapes p +:+ String SLASH name) (-1) = None.
Proof.
  intros Hname. induction fuel as [|fuel IH]; [done|].
  rewrite basenameIndex_S, lastIndexOf_last, length_escapes by done. simpl.
  destruct p as [|p]; [done|].
  replace (Z.of_nat (S p) >? 0)%Z with true by (symmetry; apply Z.gtb_lt; lia).
  rewrite Nat2Z.id, skipBackslashes_escapes by done.
  by rewrite orb_true_r.
Qed.

Lemma basenameIndex_none_addFilenameSymbol fuel (filename : string) syms :
  basenameIndex fuel filename (-1) = None → addFilenameSymbol fuel filename syms = None.
Proof. intros Hloop. unfold addFilenameSymbol. by rewrite Hloop. Qed.

(** X20. For a path whose last slash follows a byte that is no backslash,
    [addFilenameSymbol] (lines 279-302) ends in its first round and files
    the full path under what follows that slash. *)
Theorem X20_addFilenameSymbol_basename fuel (dir : string) c (base : string) syms :
  c ≠ BACKSLASH →
  contains base SLASH = false →
  let filename := dir +:+ String c (String SLASH base) in
  addFilenameSymbol (S fuel) filename syms = Some (hash_insert syms base filename).
Proof.
  intros Hc Hbase filename.
  assert (filename = (dir +:+ String c EmptyString) +:+ String SLASH base) as Hsplit.
  { unfold filename. by rewrite app_assoc'. }
  assert (String.length (dir +:+ String c EmptyString) = S (String.length dir)) as Hlen.
  { rewrite length_app. simpl. lia. }
  assert (at_ filename (String.length dir) = c) as Hat.
  { unfold filename. rewrite <-(Nat.add_0_r (String.length dir)). by rewrite at_app_r. }
  unfold addFilenameSymbol.
  rewrite basenameIndex_S, Hsplit, lastIndexOf_last, Hlen, <-Hsplit by done. simpl.
  replace (Z.of_nat (S (String.length dir)) >? 0)%Z with true
    by (symmetry; apply Z.gtb_lt; lia).
  rewrite Nat2Z.id, skipBackslashes_stop by (by rewrite Hat).
  replace (Z.of_nat (S (String.length dir)) =? 0)%Z with false
    by (symmetry; apply Z.eqb_neq; lia).
  simpl.
  replace (Z.of_nat (S (String.length dir)) + 0 =? -1)%Z with false
    by (symmetry; apply Z.eqb_neq; lia).
  do 2 f_equal. unfold mid.
  replace (Z.to_nat (Z.of_nat (S (String.length dir)) + 0 + 1))
    with (String.length (dir +:+ String c (String SLASH EmptyString)))
    by (rewrite length_app; simpl; lia).
  assert (filename = (dir +:+ String c (String SLASH EmptyString)) +:+ base) as Hsplit'.
  { unfold filename. by rewrite app_assoc'. }
  rewrite Hsplit'.
  rewrite (length_app _ base), Nat.add_sub_swap, Nat.sub_diag by done. simpl.
  apply substring_app_r.
Qed.

(** X21. A filename without a slash gets no symbol: the first round finds
    nothing and the function returns with the symbols as they were. *)
Theorem X21_addFilenameSymbol_no_slash fuel (filename : string) syms :
  contains filename SLASH = false →
  addFilenameSymbol (S fuel) filename syms = Some syms.
Proof.
  intros Hs. unfold addFilenameSymbol.
  by rewrite basenameIndex_S, lastIndexOf_none.
Qed.

(** X22. A filename whose only slash is its first byte, or follows nothing
    but backslashes, keeps [addFilenameSymbol] in its loop: no number of
    rounds reaches a [break]. *)
Theorem X22_addFilenameSymbol_root_loops fuel p (name : string) syms :
  contains name SLASH = false →
  addFilenameSymbol fuel (escapes p +:+ String SLASH name) syms = None.
Proof.
  intros Hname. unfold addFilenameSymbol.
  by rewrite basenameIndex_escaped_root.
Qed.

(** X23. Whenever [addFilenameSymbol] returns it has added nothing, or the
    filename itself under one of its suffixes. *)
Theorem X23_addFilenameSymbol_adds_suffix fuel (filename : string) syms syms' :
  addFilenameSymbol fuel filename syms = Some syms' →
  syms' = syms
  ∨ ∃ dir base, filename = dir +:+ base ∧ syms' = hash_insert syms base filename.
Proof.
  unfold addFilenameSymbol. destruct (basenameIndex _ _ _) as [idx|]; [|done].
  destruct (idx =? -1)%Z; intros [= <-]; [by left|right].
  destruct (substring_suffix filename (Z.to_nat (idx + 1))) as [pre Hpre].
  by exists pre, (mid filename (idx + 1)).
Qed.
End FilenameInFull.

(** ** Runs of a job *)

Section JobRuns.
Context `{Externals}.

Lemma warnings_no_done diags : List.filter isDone (warnings diags) = [].
Proof.
  unfold warnings. induction diags as [|d l IH]; [done|]. simpl.
  by destruct (d.1 >=? CXDiagnostic_Warning)%Z.
Qed.

(** The walk changes the three maps of the job only. *)
Lemma indexVisitor_identity c job :
  m_id (indexVisitor c job) = m_id job ∧ m_in (indexVisitor c job) = m_in job
  ∧ m_args (indexVisitor c job) = m_args job ∧ m_mode (indexVisitor c job) = m_mode job
  ∧ m_path (indexVisitor c job) = m_path job.
Proof.
  destruct c as [|kind usr rusr file line col isDef name parent]; [done|].
  rewrite indexVisitor_cases.
  destruct (decide (kind = CXCursor_CXXAccessSpecifier)); [done|].
  destruct (noUSR _); [done|]. destruct file as [cfile|]; [|done].
  by destruct (decide (constData cfile = EmptyString)).
Qed.

Lemma visit_identity cursors job :
  let job' := foldl (fun job c => indexVisitor c job) job cursors in
  m_id job' = m_id job ∧ m_in job' = m_in job ∧ m_args job' = m_args job
  ∧ m_mode job' = m_mode job ∧ m_path job' = m_path job.
Proof.
  revert job. induction cursors as [|c l IH]; intros job; simpl; [done|].
  destruct (IH (indexVisitor c job)) as (-> & -> & -> & -> & ->).
  apply indexVisitor_identity.
Qed.

(** X24. A run that returns has emitted [done] once, as the last thing it
    did, with the job's id and input; a run still in the filename loop has
    not emitted it. *)
Theorem X24_run_emits_done_once fuel job i :
  let log := (run fuel job i).1.2 in
  let returned := (run fuel job i).2 in
  List.filter isDone log
  = (if returned then [EmitDone (m_id job) (m_in job)] else [])
  ∧ (if returned then last log = Some (EmitDone (m_id job) (m_in job)) else True).
Proof.
  unfold run. destruct (cachedUnit _ _ _) as [unit|]; [|done].
  case_decide.
  - destruct (visit_identity (children unit) job) as (Hid & Hin & _).
    destruct (addFilenameSymbol _ _ _); simpl.
    + rewrite Hid, Hin, !List.filter_app, warnings_no_done.
      split; [done|]. by rewrite app_comm_cons, last_snoc.
    + rewrite !List.filter_app, warnings_no_done. done.
  - simpl. rewrite !List.filter_app, warnings_no_done.
    split; [done|]. by rewrite app_comm_cons, last_snoc.
Qed.

(** X25. A job whose unit was parsed from source and whose filename has
    its only slash in front never finishes: the inclusions are recorded,
    then the run stays in the filename loop, whatever the number of rounds;
    nothing is folded into the shared definitions, references and symbols
    and [done] is not emitted. *)
Theorem X25_run_hangs_on_root_file fuel job i unit p (name : string) :
  cachedUnit (m_in job) (m_args job) (unitModeOf (m_mode job)) = Some unit →
  origin unit = UnitCache_Source →
  filename unit = escapes p +:+ String SLASH name →
  contains name SLASH = false →
  (run fuel job i).2 = false
  ∧ List.filter isDone (run fuel job i).1.2 = []
  ∧ defs (run fuel job i).1.1.2 = defs i
  ∧ refs (run fuel job i).1.1.2 = refs i
  ∧ syms (run fuel job i).1.1.2 = syms i.
Proof.
  intros Hunit Horigin Hfile Hname. unfold run.
  change (match m_mode job with
          | Normal => Z.lor UnitCache_Source UnitCache_AST
          | Force => Z.lor (Z.lor UnitCache_Source UnitCache_AST) UnitCache_Force
          end) with (unitModeOf (m_mode job)).
  rewrite Hunit, decide_True by done.
  rewrite Hfile, basenameIndex_none_addFilenameSymbol
    by (by apply basenameIndex_escaped_root).
  simpl. rewrite !List.filter_app, warnings_no_done. done.
Qed.

Lemma addInclusion_mono job inc incs k :
  at_key incs k ⊆ at_key (addInclusion job inc incs) k.
Proof.
  unfold addInclusion. case_decide; [done|].
  intros x Hx. apply elem_of_hash_insert. by left.
Qed.

Lemma run_syms fuel job i :
  syms (run fuel job i).1.1.2 = syms i
  ∨ ∃ s, syms (run fuel job i).1.1.2 = (uniteSets (syms i) s).1.
Proof.
  unfold run. destruct (cachedUnit _ _ _) as [unit|]; [|by left].
  case_decide; [|by left].
  destruct (addFilenameSymbol _ _ _) as [s|]; simpl; [right|by left].
  by exists s.
Qed.

(** X26. A run only adds to the shared maps: what the inclusions, the
    definitions, the references and the symbols held under a key they still
    hold after it; and it leaves the job table, the inputs being indexed,
    the counter and the id sequence alone. *)
Theorem X26_run_only_adds fuel job i k :
  let i' := (run fuel job i).1.1.2 in
  at_key (incs i) k ⊆ at_key (incs i') k
  ∧ at_key (defs i) k ⊆ at_key (defs i') k
  ∧ at_key (refs i) k ⊆ at_key (refs i') k
  ∧ at_key (syms i) k ⊆ at_key (syms i') k
  ∧ jobs i' = jobs i ∧ indexing i' = indexing i
  ∧ jobCounter i' = jobCounter i ∧ lastJobId i' = lastJobId i.
Proof.
  intros i'. unfold i'.
  pose proof (run_coordinator fuel job i) as (Hc & Hi & _ & Hl & Hj).
  split; [|split; [|split; [|split]]]; [| | | |done].
  - apply (run_incs_keeps (fun incs' => at_key (incs i) k ⊆ at_key incs' k)); [|done].
    intros inc incs' Hsub. etrans; [done|]. apply addInclusion_mono.
  - destruct (run_defs_refs fuel job i) as [[-> _]|(cursors & -> & _)]; [done|].
    intros x Hx. apply elem_of_uniteSets. by left.
  - destruct (run_defs_refs fuel job i) as [[_ ->]|(cursors & _ & ->)]; [done|].
    intros x Hx. apply elem_of_uniteSets. by left.
  - destruct (run_syms fuel job i) as [->|(s & ->)]; [done|].
    intros x Hx. apply elem_of_uniteSets. by left.
Qed.

(** What a run from source that leaves the filename loop folds into the
    shared definitions and references. *)
Lemma run_from_source fuel job i unit :
  cachedUnit (m_in job) (m_args job) (unitModeOf (m_mode job)) = Some unit →
  origin unit = UnitCache_Source →
  is_Some (basenameIndex fuel (filename unit) (-1)) →
  let job' := foldl (fun job c => indexVisitor c job) job (children unit) in
  defs (run fuel job i).1.1.2 = (uniteSets (defs i) (m_defs job')).1
  ∧ refs (run fuel job i).1.1.2 = (uniteSets (refs i) (m_refs job')).1.
Proof.
  intros Hunit Horigin [idx Hidx]. unfold run.
  change (match m_mode job with
          | Normal => Z.lor UnitCache_Source UnitCache_AST
          | Force => Z.lor (Z.lor UnitCache_Source UnitCache_AST) UnitCache_Force
          end) with (unitModeOf (m_mode job)).
  rewrite Hunit, decide_True by done.
  unfold addFilenameSymbol. rewrite Hidx. by destruct (idx =? -1)%Z.
Qed.
End JobRuns.

(** * Runs: what every reachable world satisfies *)

Section Runs.
Context `{Externals}.

Lemma after_snoc path es e : after path (es ++ [e]) = step (after path es) e.
Proof. unfold after. by rewrite foldl_app. Qed.

(** A property of the fresh world that every event preserves holds after
    every run. *)
Lemma after_ind (P : World → Prop) path :
  P {| impl := newIndexer path; disk := ∅; pending := [] |} →
  (∀ w e, P w → P (step w e)) →
  ∀ es, P (after path es).
Proof.
  intros Hinit Hstep es. induction es as [|e es IH] using rev_ind; [done|].
  rewrite after_snoc. by apply Hstep.
Qed.

Lemma after_ind_good (good : Event → Prop) (P : World → Prop) path :
  P {| impl := newIndexer path; disk := ∅; pending := [] |} →
  (∀ w e, good e → P w → P (step w e)) →
  ∀ es, Forall good es → P (after path es).
Proof.
  intros Hinit Hstep es. induction es as [|e es IH] using rev_ind; [done|].
  intros [Hes He]%Forall_app. inversion_clear He as [|? ? He' _].
  rewrite after_snoc. apply Hstep; [done|]. by apply IH.
Qed.

(** *** [jobDone], section by section *)

Lemma jobDone_head env id filename i disk :
  jobDone env id filename i disk =
    if syncDue (jobDoneHead id filename i) then
      let '(impl, disk, log) := syncAll env (jobDoneHead id filename i) disk in
      (resetCounter impl, disk,
       ([qDebug "syncing"] ++ log ++ [qDebug "synced"; EmitIndexingDone id])%list)
    else (jobDoneHead id filename i, disk, [EmitIndexingDone id]).
Proof. done. Qed.

Lemma syncs_syncDue id filename i : syncDue (jobDoneHead id filename i) = syncs id i.
Proof. done. Qed.

(** One pending call. *)
Lemma step_sync w t env rest :
  pending w = (t, env) :: rest →
  step w EvSync =
    let r := syncData env (stagedFor t (impl w)) t (disk w) in
    {| impl := match rest with
               | [] => resetCounter (setStaged t r.1.1 (impl w))
               | _ => setStaged t r.1.1 (impl w)
               end;
       disk := r.1.2; pending := rest |}.
Proof.
  intros Hp. simpl. rewrite Hp. unfold syncOne.
  by destruct (syncData _ _ _ _) as [[data disk'] log].
Qed.

(** An uninterrupted [jobDone] is its sections one after the other. *)
Lemma step_jobDone_sections w env id filename :
  pending w = [] →
  step w (EvJobDone env id filename)
  = foldl step w [EvJobDoneBegin env id filename; EvSync; EvSync; EvSync; EvSync].
Proof.
  intros Hp. simpl. rewrite Hp. rewrite jobDone_head.
  destruct (syncDue (jobDoneHead id filename (impl w))) eqn:Hdue; simpl; [|done].
  rewrite syncAll_eq. unfold syncOne. simpl.
  destruct (syncData (env Database.Include) _ _ _) as [[i1 d1] l1]. simpl.
  destruct (syncData (env Database.Definition_) _ _ _) as [[i2 d2] l2]. simpl.
  destruct (syncData (env Database.Reference) _ _ _) as [[i3 d3] l3]. simpl.
  destruct (syncData (env Database.Symbol) _ _ _) as [[i4 d4] l4]. simpl.
  done.
Qed.

(** A property that every section preserves holds after every run. *)
Lemma after_ind_sections (good : Event → Prop) (P : World → Prop) path :
  (∀ env id f, good (EvJobDone env id f) → good (EvJobDoneBegin env id f)) →
  good EvSync →
  P {| impl := newIndexer path; disk := ∅; pending := [] |} →
  (∀ w e, is_section e → good e → P w → P (step w e)) →
  ∀ es, Forall good es → P (after path es).
Proof.
  intros Hbegin Hsync Hinit Hstep. apply after_ind_good; [done|].
  intros w e He Hw.
  destruct e as [fuel input args mode|fuel fname mode|fuel id|env id fname|a
                |env id fname|]; try (by apply Hstep).
  destruct (pending w) as [|p rest] eqn:Hp.
  - rewrite step_jobDone_sections by done. cbn [foldl].
    do 4 (apply Hstep; [done|done|]). apply Hstep; [done|by apply Hbegin|done].
  - simpl. by rewrite Hp.
Qed.

Lemma after_ind_all_sections (P : World → Prop) path :
  P {| impl := newIndexer path; disk := ∅; pending := [] |} →
  (∀ w e, is_section e → P w → P (step w e)) →
  ∀ es, P (after path es).
Proof.
  intros Hinit Hstep es.
  apply (after_ind_sections (fun _ => True) P); auto.
  by apply Forall_true.
Qed.

(** *** The sections, one by one *)

(** [index] changes nothing, or records one job with empty maps for its
    input. *)
Lemma index_job fuel input arguments mode i id i' out :
  index fuel input arguments mode i = Some (id, i', out) →
  i' = i
  ∨ ∃ job, m_in job = input ∧ m_defs job = ∅ ∧ m_refs job = ∅ ∧ m_syms job = ∅
           ∧ jobs i' = <[id := job]> (jobs i)
           ∧ incs i' = incs i ∧ defs i' = defs i ∧ refs i' = refs i ∧ syms i' = syms i
           ∧ jobCounter i' = jobCounter i.
Proof.
  unfold index. case_decide; [intros [= <- <- <-]; by left|].
  destruct (freeId _ _ _) as [[id0 last]|]; [|done].
  intros [= <- <- <-]. right. eexists. by repeat split.
Qed.

(** A submitting event changes nothing, or records one job with empty maps
    for an input it submits; the shared maps, the disk and the pending
    syncs stay. *)
Lemma step_submit w e :
  match e with EvIndex _ _ _ _ | EvReindex _ _ _ => True | _ => False end →
  disk (step w e) = disk w
  ∧ pending (step w e) = pending w
  ∧ (impl (step w e) = impl w
     ∨ ∃ id job, m_in job ∈ submitted e
                 ∧ m_defs job = ∅ ∧ m_refs job = ∅ ∧ m_syms job = ∅
                 ∧ jobs (impl (step w e)) = <[id := job]> (jobs (impl w))
                 ∧ incs (impl (step w e)) = incs (impl w)
                 ∧ defs (impl (step w e)) = defs (impl w)
                 ∧ refs (impl (step w e)) = refs (impl w)
                 ∧ syms (impl (step w e)) = syms (impl w)
                 ∧ jobCounter (impl (step w e)) = jobCounter (impl w)).
Proof.
  destruct e as [fuel input args mode|fuel fname mode|fuel id|env id fname|a
                |env id fname|]; try done; intros _; simpl;
    (destruct (pending w) as [|p rest] eqn:Hp; [|by rewrite Hp; split; [|split; [|left]]]).
  - destruct (index _ _ _ _ _) as [[[id i'] out]|] eqn:Hi; simpl;
      [|by rewrite Hp; split; [|split; [|left]]].
    split; [done|]. split; [done|].
    destruct (index_job _ _ _ _ _ _ _ _ Hi) as [->|(job & <- & ?)]; [by left|right].
    exists id, job. split; [by left|done].
  - destruct (reindex _ _ _ _) as [[[id i'] out]|] eqn:Hi; simpl;
      [|by rewrite Hp; split; [|split; [|left]]].
    split; [done|]. split; [done|].
    unfold reindex in Hi. destruct (resourceExists fname); simpl in Hi;
      [|injection Hi as <- <- <-; by left].
    destruct (resourceRead fname) as [|input data] eqn:Hread;
      [injection Hi as <- <- <-; by left|].
    destruct (isEmpty input); [injection Hi as <- <- <-; by left|].
    destruct (index _ _ _ _ _) as [[[id0 i0] out0]|] eqn:Hindex; [|done].
    injection Hi as <- <- <-.
    destruct (index_job _ _ _ _ _ _ _ _ Hindex) as [->|(job & <- & ?)]; [by left|right].
    exists id0, job. split; [by left|done].
Qed.

Lemma step_begin w env id filename :
  step w (EvJobDoneBegin env id filename) =
    match pending w with
    | [] => {| impl := jobDoneHead id filename (impl w); disk := disk w;
               pending := if syncs id (impl w) then syncCalls env else [] |}
    | _ => w
    end.
Proof. done. Qed.

(** Only a sync changes the disk. *)
Lemma step_disk_same w e :
  is_section e → e ≠ EvSync → disk (step w e) = disk w.
Proof.
  destruct e as [fuel input args mode|fuel fname mode|fuel id|env id fname|a
                |env id fname|]; try done; intros _ _; simpl.
  - destruct (pending w); [|done]. by destruct (index _ _ _ _ _) as [[[??]?]|].
  - destruct (pending w); [|done]. by destruct (reindex _ _ _ _) as [[[??]?]|].
  - destruct (jobs _ !! _); [|done]. by destruct (run _ _ _) as [[[??]?]?].
  - by destruct (pending w).
Qed.

(** The disk after a section: as before, or after one call of
    [syncData] on it. *)
Lemma step_disk w e :
  is_section e →
  disk (step w e) = disk w
  ∨ ∃ t env rest, pending w = (t, env) :: rest
      ∧ disk (step w e) = (syncData env (stagedFor t (impl w)) t (disk w)).1.2.
Proof.
  intros He.
  destruct e as [fuel input args mode|fuel fname mode|fuel id|env id fname|a
                |env id fname|]; try (left; by apply step_disk_same).
  destruct (pending w) as [|[t env] rest] eqn:Hp.
  - left. simpl. by rewrite Hp.
  - right. exists t, env, rest. split; [done|]. by rewrite (step_sync w t env rest).
Qed.

Lemma after_disk_ok path es : disk_ok (disk (after path es)).
Proof.
  apply (after_ind_all_sections (fun w => disk_ok (disk w))).
  - intros name db. simpl. by rewrite lookup_empty.
  - intros w e He Hok.
    destruct (step_disk w e He) as [->|(t & env & rest & _ & ->)]; [done|].
    by apply syncData_disk_ok.
Qed.

(** The pending syncs are a tail of the four calls of one [jobDone]. *)
Lemma pending_shape path es :
  ∃ env, pending (after path es) `suffix_of` syncCalls env.
Proof.
  apply (after_ind_all_sections (fun w => ∃ env, pending w `suffix_of` syncCalls env)).
  - exists (fun _ => {| open_ok := true; read_ok := fun _ => true; write_ok := true |}).
    simpl. apply suffix_nil.
  - intros w e He [env0 Hw].
    destruct e as [fuel input args mode|fuel fname mode|fuel id|env id fname|a
                  |env id fname|]; try done.
    + destruct (step_submit w (EvIndex fuel input args mode) I) as (_ & -> & _). eauto.
    + destruct (step_submit w (EvReindex fuel fname mode) I) as (_ & -> & _). eauto.
    + simpl. destruct (jobs _ !! _); [|by eauto].
      destruct (run _ _ _) as [[[??]?]?]. simpl. eauto.
    + simpl. eauto.
    + rewrite step_begin. destruct (pending w) eqn:Hp; [|rewrite Hp; by eauto].
      simpl. exists env. destruct (syncs _ _); [done|apply suffix_nil].
    + destruct (pending w) as [|[t env] rest] eqn:Hp.
      * simpl. rewrite !Hp. eauto.
      * rewrite (step_sync w t env rest Hp). simpl. exists env0.
        by apply suffix_cons_l with (t, env).
Qed.


(** *** Stored sets along a run *)

Lemma syncAll_disk_ok env i disk : disk_ok disk → disk_ok (syncAll env i disk).1.2.
Proof.
  intros Hok. rewrite syncAll_eq. simpl. by do 4 apply syncData_disk_ok.
Qed.

Lemma syncAll_mono env i disk t k :
  disk_ok disk → (∀ t', reads (env t')) →
  stored disk t k ⊆ stored (syncAll env i disk).1.2 t k.
Proof.
  intros Hok Hrd. rewrite syncAll_eq. simpl.
  etrans; [apply syncData_mono; [done|by apply reads_reads_at]|].
  etrans; [apply syncData_mono; [by apply syncData_disk_ok|by apply reads_reads_at]|].
  etrans; [apply syncData_mono;
           [by do 2 apply syncData_disk_ok|by apply reads_reads_at]|].
  apply syncData_mono; [by do 3 apply syncData_disk_ok|by apply reads_reads_at].
Qed.

(** The syncs that are pending read as the [jobDone] that left them
    does. *)
Lemma pending_reads path es :
  Forall reads_ok es → ∀ t env, (t, env) ∈ pending (after path es) → reads env.
Proof.
  apply (after_ind_sections reads_ok
           (fun w => ∀ t env, (t, env) ∈ pending w → reads env)); [done|done|..].
  - intros t env Hin. simpl in Hin. by apply elem_of_nil in Hin.
  - intros w e He Hgood Hw.
    destruct e as [fuel input args mode|fuel fname mode|fuel id|env id fname|a
                  |env id fname|]; try done.
    + by destruct (step_submit w (EvIndex fuel input args mode) I) as (_ & -> & _).
    + by destruct (step_submit w (EvReindex fuel fname mode) I) as (_ & -> & _).
    + simpl. destruct (jobs _ !! _); [|done]. by destruct (run _ _ _) as [[[??]?]?].
    + rewrite step_begin. destruct (pending w) eqn:Hp; [|simpl; by rewrite Hp].
      simpl. destruct (syncs _ _); [|by intros ?? ?%elem_of_nil].
      intros t env' Hin. unfold syncCalls in Hin.
      repeat (apply elem_of_cons in Hin as [[= -> ->]|Hin]; [by apply Hgood|]).
      by apply elem_of_nil in Hin.
    + destruct (pending w) as [|[t env] rest] eqn:Hp.
      * simpl. by rewrite !Hp.
      * rewrite (step_sync w t env rest Hp). simpl. intros t' env' Hin.
        apply (Hw t'). by right.
Qed.

(** An event whose reads succeed keeps what is stored. *)
Lemma step_mono w e t k :
  disk_ok (disk w) →
  (∀ t' env, (t', env) ∈ pending w → reads env) →
  reads_ok e →
  stored (disk w) t k ⊆ stored (disk (step w e)) t k.
Proof.
  intros Hok Hpend He.
  destruct e as [fuel input args mode|fuel fname mode|fuel id|env id fname|a
                |env id fname|]; try (by rewrite step_disk_same).
  - simpl. destruct (pending w); [|done]. rewrite jobDone_head.
    destruct (syncDue _); [|done].
    pose proof (syncAll_mono env (jobDoneHead id fname (impl w)) (disk w) t k Hok He).
    by destruct (syncAll _ _ _) as [[??]?].
  - destruct (pending w) as [|[t' env] rest] eqn:Hp.
    + simpl. by rewrite Hp.
    + rewrite (step_sync w t' env rest Hp). simpl.
      apply syncData_mono; [done|]. apply reads_reads_at, (Hpend t'). by left.
Qed.

(** ** The claims on [syncData] *)

(** C1, monotonic union.  On the stores of any run, one more call of
    [syncData] with any staging map, for any category and whatever the
    outcome of opening and committing, leaves at a key a stored set that
    contains the one stored before, provided the reads of the call for
    that key succeed; hence so does every further event of a run whose
    reads succeed. *)
Theorem C1_monotonic_union path es :
  (∀ env data type t k,
     reads_at env data k →
     stored (disk (after path es)) t k
     ⊆ stored (syncData env data type (disk (after path es))).1.2 t k)
  ∧ (∀ e t k,
       Forall reads_ok (es ++ [e]) →
       stored (disk (after path es)) t k
       ⊆ stored (disk (after path (es ++ [e]))) t k).
Proof.
  pose proof (after_disk_ok path es) as Hok. split.
  - intros. by apply syncData_mono.
  - intros e t k [Hes He]%Forall_app. inversion_clear He as [|? ? He' _].
    rewrite after_snoc. apply step_mono; [done|by apply pending_reads|done].
Qed.

(** C2, idempotent no-op skip.  On the stores of any run: the test of line
    84 is the subset test; the loop body for a staged key whose read
    succeeds and whose set is within the set stored under that key adds no
    [Put]; and when that holds for every staged key the batch is empty and
    no stored value changes. *)
Theorem C2_noop_skip path es type data env key set :
  let db := storeOf (disk (after path es)) type in
  data !! key = Some set →
  set ⊆ parse (held db key) →
  read_ok env key = true →
  (size (parse (held db (constData key)) ∩ set) = size set
   ↔ set ⊆ parse (held db (constData key)))
  ∧ (∀ batch, syncEntry (read_ok env) db batch key set = batch)
  ∧ ((∀ key' set', data !! key' = Some set' →
                   set' ⊆ parse (held db key') ∧ read_ok env key' = true) →
     syncBatch (read_ok env) db data = []
     ∧ ∀ t k,
         held (storeOf (syncData env data type (disk (after path es))).1.2 t) k
         = held (storeOf (disk (after path es)) t) k).
Proof.
  intros db Hkey Hsub Hread.
  assert (store_ok db) as Hok by apply storeOf_ok, after_disk_ok.
  assert (∀ key' set', set' ⊆ parse (held db key') →
                       set' ⊆ parse (held db (constData key'))) as Hc.
  { intros key' set' Hs. destruct (decide (held db key' = EmptyString)) as [He|Hne].
    - rewrite He in Hs. rewrite parse_empty in Hs. set_solver.
    - by rewrite (store_ok_held_constData db key' Hok Hne). }
  split; [apply skip_iff|]. split.
  - intros batch. rewrite syncEntry_putOf, Hread. unfold putOf.
    rewrite decide_True by (by apply Hc). apply app_nil_r.
  - intros Hall.
    assert (syncBatch (read_ok env) db data = []) as Hnil.
    { apply elem_of_nil_inv. intros [k v] Hin.
      apply elem_of_syncBatch in Hin as (key' & set' & Hk' & Hns & -> & _).
      destruct (Hall key' set' Hk') as [Hs Hr]. rewrite Hr in Hns.
      by apply Hns, Hc. }
    split; [done|]. intros t k. rewrite storeOf_syncData. fold db. rewrite Hnil.
    by destruct (_ && _ && _) eqn:Hb;
      [apply andb_prop in Hb as [_ Hn%bool_decide_eq_true]; unfold db, storeOf; rewrite Hn|].
Qed.
End Runs.

(** ** The sections of jobs and syncs, field by field *)

Section Sections.
Context `{Externals}.

(** A section of a job leaves the coordinator's own fields alone. *)
Lemma wstep_coordinator a i :
  jobCounter (wstep a i) = jobCounter i ∧ indexing (wstep a i) = indexing i
  ∧ path (wstep a i) = path i ∧ lastJobId (wstep a i) = lastJobId i.
Proof.
  destruct a as [id inc|fuel id|id|id|id]; simpl;
    destruct (jobs i !! id) as [job|]; try done.
  - destruct (sourceUnit job); [|done]. by case_bool_decide.
  - destruct (sourceUnit job); [|done]. by destruct (addFilenameSymbol _ _ _).
Qed.

(** It puts no job on record and takes none off; a job keeps what
    identifies it. *)
Lemma wstep_jobs a i id job' :
  jobs (wstep a i) !! id = Some job' →
  ∃ job, jobs i !! id = Some job
         ∧ m_in job' = m_in job ∧ m_id job' = m_id job ∧ m_args job' = m_args job
         ∧ m_mode job' = m_mode job ∧ m_path job' = m_path job.
Proof.
  assert (∀ id0 job0 d r s,
            jobs i !! id0 = Some job0 →
            <[id0 := setMaps job0 d r s]> (jobs i) !! id = Some job' →
            ∃ job, jobs i !! id = Some job
                   ∧ m_in job' = m_in job ∧ m_id job' = m_id job
                   ∧ m_args job' = m_args job ∧ m_mode job' = m_mode job
                   ∧ m_path job' = m_path job) as Hset.
  { intros id0 job0 d r s Hjob [[<- <-]|[_ ?]]%lookup_insert_Some; eauto 10. }
  destruct a as [id0 inc|fuel id0|id0|id0|id0]; simpl;
    destruct (jobs i !! id0) as [job|] eqn:Hjob; try (by eauto 10).
  - destruct (sourceUnit job); [|by eauto 10]. case_bool_decide; simpl; eauto 10.
  - destruct (sourceUnit job) as [unit|]; [|by eauto 10].
    destruct (addFilenameSymbol _ _ _); simpl; [|by eauto 10].
    clear Hset. intros Hl.
    apply lookup_insert_Some in Hl as [[-> Heq]|[_ ?]]; [|by eauto 10].
    subst job'. exists job. split; [done|]. simpl.
    by destruct (visit_identity (children unit) job) as (-> & -> & -> & -> & ->).
  - simpl. by apply Hset.
  - simpl. by apply Hset.
  - simpl. by apply Hset.
Qed.

(** The include map after it: as before, or with one inclusion added for
    a job on record. *)
Lemma wstep_incs a i :
  incs (wstep a i) = incs i
  ∨ ∃ id inc job, jobs i !! id = Some job
                  ∧ incs (wstep a i) = addInclusion job inc (incs i).
Proof.
  destruct a as [id inc|fuel id|id|id|id]; simpl;
    destruct (jobs i !! id) as [job|] eqn:Hjob; try (by left).
  - destruct (sourceUnit job); [|by left]. case_bool_decide; [|by left].
    right. by exists id, inc, job.
  - destruct (sourceUnit job); [|by left]. by destruct (addFilenameSymbol _ _ _); left.
Qed.

(** The shared maps after a pending sync: the synced one is emptied when
    its store opens, the others stay; the jobs stay. *)
Lemma step_sync_staged w t env rest t' :
  pending w = (t, env) :: rest →
  stagedFor t' (impl (step w EvSync)) =
    (if decide (t' = t) then (if opens env t then ∅ else stagedFor t (impl w))
     else stagedFor t' (impl w))
  ∧ jobs (impl (step w EvSync)) = jobs (impl w)
  ∧ disk (step w EvSync) = (syncData env (stagedFor t (impl w)) t (disk w)).1.2
  ∧ pending (step w EvSync) = rest.
Proof.
  intros Hp. rewrite (step_sync w t env rest Hp). simpl.
  rewrite syncData_staging.
  split; [|by destruct rest, t].
  destruct rest, t, t'; simpl; try done.
Qed.
End Sections.

(** ** No self-include *)

Section NoSelfInclude.
Context `{Externals}.

(** The include map never holds a path under itself. *)
Lemma incs_no_self path es k : k ∉ at_key (incs (impl (after path es))) k.
Proof.
  revert k. apply (after_ind_all_sections (fun w => ∀ k, k ∉ at_key (incs (impl w)) k)).
  - intros k. unfold newIndexer. destruct (startsWith _ _); simpl;
      rewrite at_key_empty; set_solver.
  - intros w e He Hw k.
    assert (∀ job inc incs, (∀ k, k ∉ at_key incs k) →
                            ∀ k, k ∉ at_key (addInclusion job inc incs) k) as Hadd.
    { intros job inc incs Hincs k' Hk.
      apply elem_of_addInclusion in Hk as [Hk|(Hx & _ & Hne)]; [by apply (Hincs k')|done]. }
    destruct e as [fuel input args mode|fuel fname mode|fuel id|env id fname|a
                  |env id fname|]; try done.
    + destruct (step_submit w (EvIndex fuel input args mode) I)
        as (_ & _ & [->|(? & ? & _ & _ & _ & _ & _ & -> & _)]); apply Hw.
    + destruct (step_submit w (EvReindex fuel fname mode) I)
        as (_ & _ & [->|(? & ? & _ & _ & _ & _ & _ & -> & _)]); apply Hw.
    + simpl. destruct (jobs (impl w) !! id) as [job|]; [|apply Hw].
      pose proof (run_incs_keeps (fun incs => ∀ k, k ∉ at_key incs k) fuel job (impl w))
        as Hrun.
      destruct (run fuel job (impl w)) as [[[job' i'] out] ret]. simpl in *.
      apply Hrun; [|done]. intros inc incs. apply Hadd.
    + simpl. destruct (wstep_incs a (impl w)) as [->|(id & inc & job & _ & ->)];
        [apply Hw|by apply Hadd].
    + rewrite step_begin. destruct (pending w); apply Hw.
    + destruct (pending w) as [|[t env] rest] eqn:Hp.
      * simpl. rewrite Hp. apply Hw.
      * destruct (step_sync_staged w t env rest Database.Include Hp) as (Hincs & _).
        cbn [stagedFor] in Hincs. rewrite Hincs.
        destruct (decide (Database.Include = t)) as [<-|_]; [|apply Hw].
        destruct (opens _ _); [rewrite at_key_empty; set_solver|apply Hw].
Qed.

Lemma include_ok_step w e :
  distinct_stores →
  (∀ s, contains (resolved (constData s)) NUL = false) →
  is_section e →
  Forall plain (submitted e) →
  include_ok w → include_ok (step w e).
Proof.
  intros Hdist Hres Hsec Hsub (Hjobs & Hincs & Hkeys & Hdb & Hok).
  assert (∀ job inc incs,
            plain (m_in job) →
            (∀ k v, v ∈ at_key incs k → v ≠ k ∧ plain v)
            ∧ (∀ k, is_Some (incs !! k) → contains k NUL = false) →
            (∀ k v, v ∈ at_key (addInclusion job inc incs) k → v ≠ k ∧ plain v)
            ∧ (∀ k, is_Some (addInclusion job inc incs !! k) → contains k NUL = false))
    as Hadd.
  { intros job inc incs Hp [Hi Hk]. split.
    - intros k v [?|(-> & -> & Hne)]%elem_of_addInclusion; [by apply Hi|done].
    - intros k [?| ->]%addInclusion_is_Some; [by apply Hk|apply Hres]. }
  assert (match e with EvIndex _ _ _ _ | EvReindex _ _ _ => True | _ => False end →
          include_ok (step w e)) as Hsubmit.
  { intros He.
    destruct (step_submit w e He)
      as (Hd & _ & [Hi|(id & job & Hjob & _ & _ & _ & Hj & Hi & _)]);
      unfold include_ok; rewrite Hd, ?Hi; [done|]. rewrite Hj.
    split; [|done].
    intros id' job' [[_ <-]|[_ ?]]%lookup_insert_Some; [|by eauto].
    by apply (proj1 (Forall_forall _ _) Hsub). }
  destruct e as [fuel input args mode|fuel fname mode|fuel id|env id fname|a
                |env id fname|]; [by apply Hsubmit..| |done| | |].
  - simpl. destruct (jobs (impl w) !! id) as [job|] eqn:Hjob; [|done].
    pose proof (run_coordinator fuel job (impl w)) as (_ & _ & _ & _ & Hj).
    pose proof (run_incs_keeps
      (fun incs => (∀ k v, v ∈ at_key incs k → v ≠ k ∧ plain v)
                   ∧ (∀ k, is_Some (incs !! k) → contains k NUL = false))
      fuel job (impl w)) as Hrun.
    destruct (run fuel job (impl w)) as [[[job' i'] out] ret]. simpl in *.
    destruct Hrun as [Hincs' Hkeys']; [|done|].
    { intros inc incs. apply Hadd. by apply (Hjobs id). }
    unfold include_ok. simpl. by rewrite Hj.
  - unfold include_ok. simpl. split; [|split; [|split; [|done]]].
    + intros id job' (job & Hjob & -> & _)%wstep_jobs. by apply (Hjobs id).
    + destruct (wstep_incs a (impl w)) as [->|(id & inc & job & Hjob & ->)]; [done|].
      apply Hadd; [by apply (Hjobs id)|done].
    + destruct (wstep_incs a (impl w)) as [->|(id & inc & job & Hjob & ->)]; [done|].
      apply Hadd; [by apply (Hjobs id)|done].
  - rewrite step_begin. destruct (pending w); [|done].
    unfold include_ok. simpl. split; [|done].
    intros id' job [_ ?]%lookup_delete_Some. by eauto.
  - destruct (pending w) as [|[t env] rest] eqn:Hp.
    { simpl. by rewrite Hp. }
    destruct (step_sync_staged w t env rest Database.Include Hp) as (Hi & Hj & Hd & _).
    cbn [stagedFor] in Hi. unfold include_ok. rewrite Hi, Hj, Hd.
    split; [done|]. split; [|split; [|split]].
    + destruct (decide (Database.Include = t)) as [<-|_]; [|done].
      destruct (opens _ _); [|done]. intros k v. rewrite at_key_empty. set_solver.
    + destruct (decide (Database.Include = t)) as [<-|_]; [|done].
      destruct (opens _ _); [|done]. intros k. rewrite lookup_empty. by intros [??].
    + intros k x. destruct (decide (Database.Include = t)) as [<-|Hne].
      * intros [?|(key & v & <- & Hv & Hx)]%stored_syncData_within; [by apply Hdb| |done].
        simpl in Hv. destruct (Hincs key v Hv) as [Hne Hpl].
        rewrite constData_id
          by (apply Hkeys; apply elem_of_at_key in Hv as (? & ? & _); eauto).
        by rewrite (parse_plain v x Hpl Hx).
      * rewrite stored_syncData_other by done. apply Hdb.
    + by apply syncData_disk_ok.
Qed.

Lemma include_ok_after path es :
  distinct_stores →
  (∀ s, contains (resolved (constData s)) NUL = false) →
  Forall (fun e => Forall plain (submitted e)) es →
  include_ok (after path es).
Proof.
  intros Hdist Hres.
  apply (after_ind_sections (fun e => Forall plain (submitted e))); [done|done|..].
  - unfold include_ok, newIndexer. destruct (startsWith _ _); simpl;
      (split; [|split; [|split; [|split]]]).
    all: try (intros id job; by rewrite lookup_empty).
    all: try (intros k v; rewrite at_key_empty; set_solver).
    all: try (intros k; rewrite lookup_empty; by intros [??]).
    all: try (intros k x; rewrite stored_empty; set_solver).
  - intros w e. by apply include_ok_step.
Qed.

(** C6, no self-include.  An inclusion whose resolved path is the job's
    input is skipped; after any run the include map holds no path under
    itself; and when the four stores are distinct, resolved paths hold no
    NUL byte and no submitted input holds a line feed or a NUL byte, the
    Include store holds no path under itself either. *)
Theorem C6_no_self_include path es k :
  (∀ job inc incs, resolved (constData inc) = m_in job → addInclusion job inc incs = incs)
  ∧ (k ∉ at_key (incs (impl (after path es))) k)
  ∧ (distinct_stores →
     (∀ s, contains (resolved (constData s)) NUL = false) →
     Forall (fun e => Forall plain (submitted e)) es →
     k ∉ stored (disk (after path es)) Database.Include k).
Proof.
  split; [|split].
  - intros job inc incs Heq. unfold addInclusion. by rewrite decide_True.
  - apply incs_no_self.
  - intros Hdist Hres Hsub Hk.
    destruct (include_ok_after path es Hdist Hres Hsub) as (_ & _ & _ & Hdb & _).
    by apply (Hdb k k).
Qed.
End NoSelfInclude.

(** ** Definitions are references *)

Section DefinitionsAreReferences.
Context `{Externals}.




End DefinitionsAreReferences.

(** ** The keys of the staging maps *)

Section Keys.
Context `{Externals}.

Lemma contains_substring s c n m :
  contains s c = false → contains (String.substring n m s) c = false.
Proof.
  revert n m. induction s as [|x s IH]; intros n m.
  - by destruct n, m.
  - simpl. case_decide; [done|]. intros Hs.
    destruct n, m; simpl; rewrite ?decide_False by done; auto.
Qed.

Lemma nul_free_empty : nul_free ∅.
Proof. intros key [? Hk]. by rewrite lookup_empty in Hk. Qed.

Lemma nul_free_hash_insert h key v :
  nul_free h → contains key NUL = false → nul_free (hash_insert h key v).
Proof. intros Hh Hkey k [?| ->]%hash_insert_is_Some; auto. Qed.

Lemma nul_free_uniteSets dst src :
  nul_free dst → nul_free src → nul_free (uniteSets dst src).1.
Proof. intros Hd Hs k [?|?]%uniteSets_is_Some; auto. Qed.

Lemma nul_free_addInclusion job inc incs :
  paths_ok → nul_free incs → nul_free (addInclusion job inc incs).
Proof.
  intros [Hres _] Hincs. unfold addInclusion. case_decide; [done|].
  by apply nul_free_hash_insert.
Qed.

Lemma nul_free_inclusionVisitor job i incs :
  paths_ok → nul_free incs → nul_free (inclusionVisitor job i incs).
Proof.
  intros Hp Hincs. unfold inclusionVisitor.
  assert (∀ l incs, nul_free incs →
            nul_free (foldl (fun incs inf => addInclusion job inf incs) incs l)) as Hgen.
  { induction l as [|inf l IH]; intros incs0 H0; simpl; [done|].
    by apply IH, nul_free_addInclusion. }
  by apply Hgen, nul_free_addInclusion.
Qed.

Lemma nul_free_inclusions job l incs :
  paths_ok → nul_free incs →
  nul_free (foldl (fun incs i => inclusionVisitor job i incs) incs l).
Proof.
  intros Hp. revert incs. induction l as [|i l IH]; intros incs Hincs; simpl; [done|].
  by apply IH, nul_free_inclusionVisitor.
Qed.

(** The names that [addNamePermutations] builds are C strings joined by
    [::] and cut at a parenthesis. *)
Lemma nul_free_addNamePermutations_from cur qusr qparam qnoparam syms :
  contains qparam NUL = false → contains qnoparam NUL = false →
  nul_free syms →
  nul_free (addNamePermutations_from cur qusr qparam qnoparam syms).
Proof.
  revert qparam qnoparam syms.
  induction cur as [|kind usr rusr file line col isDef name parent IH];
    intros qparam qnoparam syms Hp Hn Hsyms; simpl; [done|].
  destruct (clang_isTranslationUnit kind); [done|].
  destruct name as [name|]; [|done].
  destruct (String.length (constData name) =? 0)%nat; [done|].
  pose proof (constData_no_NUL name) as Hname.
  destruct (isEmpty qparam).
  - assert (contains (constData name ++ qparam) NUL = false) as Hp'
      by (by rewrite contains_app, Hname, Hp).
    assert (contains (constData name ++ qnoparam) NUL = false) as Hn'
      by (by rewrite contains_app, Hname, Hn).
    assert (contains (if decide (indexOf (constData name ++ qnoparam) "(" ≠ (-1)%Z)
                      then left_ (constData name ++ qnoparam)
                             (Z.to_nat (indexOf (constData name ++ qnoparam) "("))
                      else constData name ++ qnoparam) NUL = false) as Hn''.
    { case_decide; [by apply contains_substring|done]. }
    apply IH; [done|done|].
    match goal with |- nul_free (if ?d then _ else _) => destruct d end;
      repeat apply nul_free_hash_insert; done.
  - assert (contains ((constData name ++ "::") ++ qparam) NUL = false) as Hp'
      by (by rewrite !contains_app, Hname, Hp).
    assert (contains ((constData name ++ "::") ++ qnoparam) NUL = false) as Hn'
      by (by rewrite !contains_app, Hname, Hn).
    apply IH; [done|done|].
    match goal with |- nul_free (if ?d then _ else _) => destruct d end;
      repeat apply nul_free_hash_insert; done.
Qed.

Lemma nul_free_indexVisitor c job :
  nul_free (m_defs job) → nul_free (m_refs job) → nul_free (m_syms job) →
  nul_free (m_defs (indexVisitor c job)) ∧ nul_free (m_refs (indexVisitor c job))
  ∧ nul_free (m_syms (indexVisitor c job)).
Proof.
  intros Hd Hr Hs.
  destruct c as [|kind usr rusr file line col isDef name parent]; [done|].
  rewrite indexVisitor_cases.
  destruct (decide (kind = CXCursor_CXXAccessSpecifier)); [done|].
  destruct (noUSR _); [done|]. destruct file as [cfile|]; [|done].
  destruct (decide (constData cfile = EmptyString)); [done|].
  cbn [m_defs m_refs m_syms].
  assert (contains (if noUSR (constData usr) then constData rusr else constData usr)
            NUL = false) as Hu by (destruct (noUSR _); apply constData_no_NUL).
  split; [destruct isDef; [by apply nul_free_hash_insert|done]|].
  split; [by apply nul_free_hash_insert|].
  destruct isDef; [|done]. unfold addNamePermutations. cbn [m_syms].
  by apply nul_free_addNamePermutations_from.
Qed.

Lemma nul_free_visit cursors job :
  nul_free (m_defs job) → nul_free (m_refs job) → nul_free (m_syms job) →
  let job' := foldl (fun job c => indexVisitor c job) job cursors in
  nul_free (m_defs job') ∧ nul_free (m_refs job') ∧ nul_free (m_syms job').
Proof.
  revert job. induction cursors as [|c l IH]; intros job Hd Hr Hs; simpl; [done|].
  destruct (nul_free_indexVisitor c job Hd Hr Hs) as (? & ? & ?). by apply IH.
Qed.

Lemma nul_free_addFilenameSymbol fuel fname syms syms' :
  contains fname NUL = false → nul_free syms →
  addFilenameSymbol fuel fname syms = Some syms' → nul_free syms'.
Proof.
  intros Hf Hs. unfold addFilenameSymbol.
  destruct (basenameIndex _ _ _) as [idx|]; [|done].
  destruct (idx =? -1)%Z; intros [= <-]; [done|].
  apply nul_free_hash_insert; [done|]. by apply contains_substring.
Qed.

Lemma sourceUnit_cached job unit :
  sourceUnit job = Some unit →
  cachedUnit (m_in job) (m_args job) (unitModeOf (m_mode job)) = Some unit
  ∧ origin unit = UnitCache_Source.
Proof.
  unfold sourceUnit. destruct (cachedUnit _ _ _) as [u|]; [|done].
  case_decide; [|done]. by intros [= ->].
Qed.

(** What a run makes of the shared state: nothing, when the unit is not
    parsed from source; else the inclusions recorded and, when the filename
    loop ends, the three maps of the walked job folded in. *)
Lemma run_shared fuel job i :
  let i' := (run fuel job i).1.1.2 in
  i' = i
  ∨ ∃ unit,
      sourceUnit job = Some unit
      ∧ let incs' := foldl (fun incs i => inclusionVisitor job i incs)
                       (incs i) (inclusions unit) in
        let job' := foldl (fun job c => indexVisitor c job) job (children unit) in
        match addFilenameSymbol fuel (filename unit) (m_syms job') with
        | None => i' = setShared i (jobs i) incs' (defs i) (refs i) (syms i)
        | Some syms' =>
            i' = setShared i (jobs i) incs'
                   (uniteSets (defs i) (m_defs job')).1
                   (uniteSets (refs i) (m_refs job')).1
                   (uniteSets (syms i) syms').1
        end.
Proof.
  unfold run, sourceUnit.
  change (match m_mode job with
          | Normal => Z.lor UnitCache_Source UnitCache_AST
          | Force => Z.lor (Z.lor UnitCache_Source UnitCache_AST) UnitCache_Force
          end) with (unitModeOf (m_mode job)).
  destruct (cachedUnit _ _ _) as [unit|]; [|by left].
  case_decide; [|by left]. right. exists unit. split; [done|].
  by destruct (addFilenameSymbol _ _ _).
Qed.

Lemma keys_ok_wstep a i : paths_ok → keys_ok i → keys_ok (wstep a i).
Proof.
  intros Hp [Hshared Hjobs].
  pose proof (Hshared Database.Include) as Hi.
  pose proof (Hshared Database.Definition_) as Hd.
  pose proof (Hshared Database.Reference) as Hr.
  pose proof (Hshared Database.Symbol) as Hs. simpl in Hi, Hd, Hr, Hs.
  destruct a as [id inc|fuel id|id|id|id]; simpl;
    destruct (jobs i !! id) as [job|] eqn:Hjob; try done;
    destruct (Hjobs id job Hjob) as (Hjd & Hjr & Hjs).
  - destruct (sourceUnit job); [|done]. case_bool_decide; [|done].
    split; [|done]. intros [| | |]; simpl; [|done..]. by apply nul_free_addInclusion.
  - destruct (sourceUnit job) as [unit|] eqn:Hunit; [|done].
    destruct (addFilenameSymbol _ _ _) as [syms'|] eqn:Hsym; [|done].
    split; [by intros [| | |]|]. simpl.
    destruct (nul_free_visit (children unit) job Hjd Hjr Hjs) as (Hd' & Hr' & Hs').
    intros id' job' [[_ <-]|[_ ?]]%lookup_insert_Some; [|by eauto]. simpl.
    split; [done|]. split; [done|].
    apply sourceUnit_cached in Hunit as [Hunit _]. destruct Hp as [_ Hf].
    by apply (nul_free_addFilenameSymbol _ _ _ _ (Hf _ _ _ _ Hunit) Hs' Hsym).
  - split.
    + intros [| | |]; simpl; [done| |done..]. by apply nul_free_uniteSets.
    + simpl. intros id' job' [[_ <-]|[_ ?]]%lookup_insert_Some; [|by eauto]. simpl.
      split; [apply nul_free_empty|done].
  - split.
    + intros [| | |]; simpl; [done..| |done]. by apply nul_free_uniteSets.
    + simpl. intros id' job' [[_ <-]|[_ ?]]%lookup_insert_Some; [|by eauto]. simpl.
      split; [done|]. split; [apply nul_free_empty|done].
  - split.
    + intros [| | |]; simpl; [done..|]. by apply nul_free_uniteSets.
    + simpl. intros id' job' [[_ <-]|[_ ?]]%lookup_insert_Some; [|by eauto]. simpl.
      split; [done|]. split; [done|apply nul_free_empty].
Qed.

Lemma keys_ok_step w e :
  paths_ok → is_section e → keys_ok (impl w) → keys_ok (impl (step w e)).
Proof.
  intros Hp Hsec Hinv. pose proof Hinv as [Hshared Hjobs].
  assert (match e with EvIndex _ _ _ _ | EvReindex _ _ _ => True | _ => False end →
          keys_ok (impl (step w e))) as Hsubmit.
  { intros He.
    destruct (step_submit w e He)
      as (_ & _ & [->|(id & job & _ & Hjd & Hjr & Hjs & Hj & Hi & Hd & Hr & Hs & _)]);
      [done|].
    split.
    { intros t. generalize (Hshared t).
      destruct t; simpl; by rewrite ?Hi, ?Hd, ?Hr, ?Hs. }
    rewrite Hj. intros id' job' [[_ <-]|[_ ?]]%lookup_insert_Some; [|by eauto].
    rewrite Hjd, Hjs, Hjr. by repeat split; apply nul_free_empty. }
  destruct e as [fuel input args mode|fuel fname mode|fuel id|env id fname|a
                |env id fname|]; [by apply Hsubmit..| |done| | |].
  - simpl. destruct (jobs (impl w) !! id) as [job|] eqn:Hjob; [|done].
    pose proof (run_shared fuel job (impl w)) as Hrun.
    destruct (run fuel job (impl w)) as [[[job' i'] out] ret]. simpl in *.
    destruct Hrun as [->|(unit & Hunit & Hrun)]; [done|].
    destruct (Hjobs id job Hjob) as (Hjd & Hjr & Hjs).
    destruct (nul_free_visit (children unit) job Hjd Hjr Hjs) as (Hd' & Hr' & Hs').
    pose proof (Hshared Database.Include) as Hi.
    pose proof (Hshared Database.Definition_) as Hd.
    pose proof (Hshared Database.Reference) as Hr.
    pose proof (Hshared Database.Symbol) as Hs. simpl in Hi, Hd, Hr, Hs.
    destruct (addFilenameSymbol _ _ _) as [syms'|] eqn:Hsym; subst i'.
    + split; [|done]. intros [| | |]; simpl;
        [by apply nul_free_inclusions|by apply nul_free_uniteSets..|].
      apply nul_free_uniteSets; [done|].
      apply sourceUnit_cached in Hunit as [Hunit _]. destruct Hp as [_ Hf].
      by apply (nul_free_addFilenameSymbol _ _ _ _ (Hf _ _ _ _ Hunit) Hs' Hsym).
    + split; [|done]. intros [| | |]; simpl; [by apply nul_free_inclusions|done..].
  - by apply keys_ok_wstep.
  - rewrite step_begin. destruct (pending w); [|done]. simpl.
    split; [intros t; generalize (Hshared t); by destruct t|]. simpl.
    intros id' job' [_ ?]%lookup_delete_Some. by eauto.
  - destruct (pending w) as [|[t env] rest] eqn:Hpend; [simpl; by rewrite Hpend|].
    split.
    + intros t'. destruct (step_sync_staged w t env rest t' Hpend) as (-> & _).
      case_decide; [|done]. destruct (opens _ _); [apply nul_free_empty|done].
    + destruct (step_sync_staged w t env rest t Hpend) as (_ & -> & _). done.
Qed.

Lemma keys_ok_after path es : paths_ok → keys_ok (impl (after path es)).
Proof.
  intros Hp. apply (after_ind_all_sections (fun w => keys_ok (impl w))).
  - unfold keys_ok, newIndexer. destruct (startsWith _ _); simpl;
      (split; [intros [| | |]; apply nul_free_empty|];
       intros id job; by rewrite lookup_empty).
  - intros w e Hsec. by apply keys_ok_step.
Qed.

(** C10, the frame of a sync.  A sync writes under the C strings of the
    staged keys only, and a key that gets no [Put] keeps its stored bytes,
    or its absence, in every store: so a sync of a staging map whose keys
    hold no NUL byte writes under staged keys only and leaves every key
    absent from the map as it was.  The staging maps of a run of the
    indexer are such maps when paths are C strings: whatever category is
    synced then and whatever the store does, every [Put] of the sync is
    under a key of the staging map, and every key absent from the staging
    map is left as it was. *)
Theorem C10_frame path es type env k :
  (∀ data disk,
     nul_free data → data !! k = None →
     (∀ v, (k, v) ∉ syncBatch (read_ok env) (storeOf disk type) data)
     ∧ ∀ t, storeOf (syncData env data type disk).1.2 t !! k = storeOf disk t !! k)
  ∧ (paths_ok →
     let w := after path es in
     let data := stagedFor type (impl w) in
     nul_free data
     ∧ (data !! k = None →
        (∀ v, (k, v) ∉ syncBatch (read_ok env) (storeOf (disk w) type) data)
        ∧ ∀ t, storeOf (syncData env data type (disk w)).1.2 t !! k
               = storeOf (disk w) t !! k)).
Proof.
  assert (∀ data disk,
            nul_free data → data !! k = None →
            (∀ v, (k, v) ∉ syncBatch (read_ok env) (storeOf disk type) data)
            ∧ ∀ t, storeOf (syncData env data type disk).1.2 t !! k = storeOf disk t !! k)
    as Hframe.
  { intros data disk Hnul Hk. split.
    - intros v. by apply syncBatch_absent_key.
    - intros t. by apply syncData_absent_key. }
  split; [done|]. intros Hp w data.
  assert (nul_free data) as Hnul by (destruct (keys_ok_after path es Hp) as [Hs _]; apply Hs).
  split; [done|]. by apply Hframe.
Qed.
End Keys.

(** ** The stores over a run *)

Section StoresInRuns.
Context `{Externals}.

Lemma store_written_Write rd db data :
  store_written db → store_written (Write (syncBatch rd db data) db).
Proof.
  intros Hdb k v Hk.
  destruct (Write_lookup (syncBatch rd db data) db k) as [Heq|(v' & Hin & Heq)].
  - apply Hdb. by rewrite <-Heq.
  - rewrite Hk in Heq. simplify_eq.
    apply elem_of_syncBatch in Hin as (key & set & _ & Hnsub & -> & ->).
    split; [apply constData_no_NUL|]. eexists. split; [|done].
    intros Hnil%elements_empty_inv. apply Hnsub.
    apply leibniz_equiv in Hnil. set_solver.
Qed.

Lemma syncData_written env data type disk :
  (∀ name db, disk !! name = Some db → store_written db) →
  ∀ name db, (syncData env data type disk).1.2 !! name = Some db → store_written db.
Proof.
  intros Hdisk name db. destruct (opens env type) eqn:Hopen.
  - rewrite syncData_opened by done. simpl.
    assert (store_written (storeOf disk type)) as Hst.
    { unfold storeOf. destruct (disk !! _) as [d|] eqn:Hd; simpl; [by eauto|].
      intros k v. by rewrite lookup_empty. }
    destruct (decide (constData (databaseName type) = name)) as [<-|Hne].
    + rewrite lookup_insert_eq. intros [= <-].
      destruct (write_ok env); [by apply store_written_Write|done].
    + rewrite lookup_insert_ne by done. apply Hdisk.
  - rewrite syncData_closed by done. apply Hdisk.
Qed.

(** X2.  After any run, every key of every store holds no NUL byte, and
    every value is the serialised form of a list that is not empty: C
    strings, each followed by a line feed. *)
Theorem X2_stores_hold_serialised_lists path es name db k v :
  disk (after path es) !! name = Some db →
  db !! k = Some v →
  contains k NUL = false
  ∧ contains v NUL = false
  ∧ ∃ l, l ≠ [] ∧ v = serialise l.
Proof.
  intros Hname Hk.
  assert (∀ name db, disk (after path es) !! name = Some db → store_written db) as Hall.
  { apply (after_ind_all_sections
             (fun w => ∀ name db, disk w !! name = Some db → store_written db)).
    - intros name' db'. simpl. by rewrite lookup_empty.
    - intros w e Hsec Hw.
      destruct (step_disk w e Hsec) as [->|(t & env & rest & _ & ->)]; [done|].
      by apply syncData_written. }
  destruct (Hall name db Hname k v Hk) as [Hnul (l & Hl & ->)].
  split; [done|]. split; [apply serialise_no_NUL|]. eauto.
Qed.

(** X3.  After any run, whatever is read back from a store under any key
    is not empty and holds no line feed and no NUL byte. *)
Theorem X3_stored_elements_are_plain path es t k x :
  x ∈ stored (disk (after path es)) t k →
  x ≠ EmptyString ∧ contains x LF = false ∧ contains x NUL = false.
Proof.
  intros Hx.
  destruct (parse_elem_plain (held (storeOf (disk (after path es)) t) k) x)
    as [[Hlf Hnul] Hne]; [|done|done].
  apply store_ok_held, storeOf_ok, after_disk_ok.
Qed.

(** What a sync that opens, reads the key and commits leaves under it. *)
Lemma stored_syncData_iff env data type disk k x :
  disk_ok disk →
  opens env type = true → write_ok env = true →
  nul_free data →
  (is_Some (data !! k) → read_ok env k = true) →
  x ∈ stored (syncData env data type disk).1.2 type k ↔
  x ∈ stored disk type k ∨ ∃ v, v ∈ at_key data k ∧ x ∈ parse (constData v).
Proof.
  intros Hok Hopen Hwrite Hkeys Hread. split.
  - intros [?|(key & v & <- & Hv & Hx)]%stored_syncData_within; [by left| |done].
    right. exists v. split; [|done].
    rewrite constData_id; [done|]. apply Hkeys.
    apply elem_of_at_key in Hv as (s & -> & _). eauto.
  - intros [Hx|(v & Hv & Hx)].
    + apply syncData_mono; [done| |done].
      intros key Hkey Heq. rewrite constData_id in Heq by auto. subst key. auto.
    + by apply (stored_syncData_lower _ _ _ _ k v x).
Qed.

(** What it leaves under a key whose read fails: the staged set alone. *)
Lemma stored_syncData_unread env data type disk k x :
  opens env type = true → write_ok env = true →
  nul_free data →
  at_key data k ≠ ∅ → read_ok env k = false →
  x ∈ stored (syncData env data type disk).1.2 type k ↔
  ∃ v, v ∈ at_key data k ∧ x ∈ parse (constData v).
Proof.
  intros Hopen Hwrite Hkeys Hne Hread.
  unfold stored. rewrite storeOf_syncData, Hopen, Hwrite, bool_decide_eq_true_2 by done.
  simpl. unfold at_key in *.
  destruct (data !! k) as [set|] eqn:Hk; simpl in *; [|done].
  assert (constData k = k) as Hck by (apply constData_id, Hkeys; eauto).
  assert (∀ v, (k, v) ∈ syncBatch (read_ok env) (storeOf disk type) data →
               v = serialise (elements set)) as Hput.
  { intros v (key & set' & Hkey & _ & Heq & ->)%elem_of_syncBatch.
    rewrite constData_id in Heq by (apply Hkeys; eauto). subst key.
    rewrite Hk in Hkey. injection Hkey as <-.
    rewrite Hread. unfold Get. rewrite parse_empty. f_equal. f_equal. set_solver. }
  destruct (Write_lookup_put (syncBatch (read_ok env) (storeOf disk type) data)
              (storeOf disk type) k (serialise (elements set)))
    as (v' & Hin & Hv').
  { apply elem_of_syncBatch. exists k, set. rewrite Hread. unfold Get.
    rewrite parse_empty. split; [done|]. split; [set_solver|]. split; [done|].
    f_equal. f_equal. set_solver. }
  unfold held. rewrite Hv', (Hput v' Hin). simpl.
  rewrite elem_of_parse_serialise. by setoid_rewrite elem_of_elements.
Qed.

(** X4.  On the stores of any run, take a sync that opens its store and
    commits, with no NUL byte in the staged keys.  Under a key whose read
    succeeds, or that is not staged, it stores what was stored there and
    the pieces of what was staged there, and nothing else; when the staged
    elements are not empty and hold no line feed and no NUL byte, the
    stored set becomes the union of the two sets.  Under a staged key whose
    read fails it stores the pieces of what was staged there and nothing
    else: what was stored there before is gone. *)
Theorem X4_sync_stores_the_union path es env data type k :
  opens env type = true →
  write_ok env = true →
  nul_free data →
  let disk' := (syncData env data type (disk (after path es))).1.2 in
  ((is_Some (data !! k) → read_ok env k = true) →
   (∀ x, x ∈ stored disk' type k ↔
         x ∈ stored (disk (after path es)) type k
         ∨ ∃ v, v ∈ at_key data k ∧ x ∈ parse (constData v))
   ∧ ((∀ v, v ∈ at_key data k → plain v ∧ v ≠ EmptyString) →
      stored disk' type k = stored (disk (after path es)) type k ∪ at_key data k))
  ∧ (at_key data k ≠ ∅ → read_ok env k = false →
     (∀ x, x ∈ stored disk' type k ↔ ∃ v, v ∈ at_key data k ∧ x ∈ parse (constData v))
     ∧ ((∀ v, v ∈ at_key data k → plain v ∧ v ≠ EmptyString) →
        stored disk' type k = at_key data k)).
Proof.
  intros Hopen Hwrite Hkeys disk'.
  pose proof (after_disk_ok path es) as Hok.
  split.
  - intros Hread. split.
    + intros x. by apply stored_syncData_iff.
    + intros Hplain. apply leibniz_equiv. intros x. unfold disk'.
      rewrite stored_syncData_iff, elem_of_union by done.
      apply or_iff_compat_l. by apply pieces_plain.
  - intros Hne Hread. split.
    + intros x. by apply stored_syncData_unread.
    + intros Hplain. apply leibniz_equiv. intros x. unfold disk'.
      rewrite stored_syncData_unread by done. by apply pieces_plain.
Qed.

(** X5.  After a sync that opens its store and commits, whatever its reads
    did, syncing the same staging map again adds no [Put] when its reads of
    the staged keys succeed, provided no staged key holds a NUL byte and
    what was staged is not empty and holds no line feed and no NUL byte. *)
Theorem X5_second_sync_writes_nothing path es env env' data type :
  opens env type = true →
  write_ok env = true →
  nul_free data →
  (∀ key v, v ∈ at_key data key → plain v ∧ v ≠ EmptyString) →
  (∀ key, is_Some (data !! key) → read_ok env' key = true) →
  syncBatch (read_ok env')
    (storeOf (syncData env data type (disk (after path es))).1.2 type) data = [].
Proof.
  intros Hopen Hwrite Hkeys Hplain Hread. apply elem_of_nil_inv. intros [k v] Hin.
  apply elem_of_syncBatch in Hin as (key & set & Hkey & Hnsub & -> & _).
  apply Hnsub. intros x Hx.
  assert (x ∈ at_key data key) as Hx' by (apply elem_of_at_key; eauto).
  rewrite constData_id by (apply Hkeys; eauto).
  rewrite Hread, Get_true by eauto.
  destruct (Hplain key x Hx') as [Hp Hne].
  apply (stored_syncData_lower _ _ _ _ key x x); auto using after_disk_ok.
  by apply parse_plain_self.
Qed.
End StoresInRuns.

(** ** The coordinator over a run *)

Section CoordinatorRuns.
Context `{Externals}.

Lemma section_or_jobDone e :
  is_section e ∨ ∃ env id filename, e = EvJobDone env id filename.
Proof. destruct e; simpl; eauto. Qed.

(** What a pending sync leaves of the coordinator's fields. *)
Lemma step_sync_coordinator w t env rest :
  pending w = (t, env) :: rest →
  lastJobId (impl (step w EvSync)) = lastJobId (impl w)
  ∧ indexing (impl (step w EvSync)) = indexing (impl w)
  ∧ path (impl (step w EvSync)) = path (impl w)
  ∧ jobCounter (impl (step w EvSync))
    = match rest with [] => 0%Z | _ => jobCounter (impl w) end.
Proof.
  intros Hp. rewrite (step_sync w t env rest Hp). simpl.
  destruct rest, t; done.
Qed.

(** X7.  In a run of an indexer made with an absolute path the completion
    counter is between 0 and [SYNCINTERVAL], and below [SYNCINTERVAL]
    whenever no [jobDone] is under way: no more than ten completions pass
    without a sync. *)
Theorem X7_jobCounter_bounded path es :
  startsWith path SLASH = true →
  (0 ≤ jobCounter (impl (after path es)) ≤ SYNCINTERVAL)%Z
  ∧ (pending (after path es) = [] →
     (jobCounter (impl (after path es)) < SYNCINTERVAL)%Z).
Proof.
  intros Habs.
  apply (after_ind_all_sections
           (fun w => (0 ≤ jobCounter (impl w) ≤ SYNCINTERVAL)%Z
                     ∧ (pending w = [] → (jobCounter (impl w) < SYNCINTERVAL)%Z))).
  { unfold newIndexer. rewrite Habs. simpl. unfold SYNCINTERVAL. lia. }
  intros w e Hsec [Hw Hidle]. unfold SYNCINTERVAL in *.
  assert (match e with EvIndex _ _ _ _ | EvReindex _ _ _ => True | _ => False end →
          (0 ≤ jobCounter (impl (step w e)) ≤ 10)%Z
          ∧ (pending (step w e) = [] → (jobCounter (impl (step w e)) < 10)%Z)) as Hsubmit.
  { intros He.
    destruct (step_submit w e He)
      as (_ & -> & [->|(id & job & _ & _ & _ & _ & _ & _ & _ & _ & _ & ->)]); done. }
  destruct e as [fuel input args mode|fuel fname mode|fuel id|env id fname|a
                |env id fname|]; [by apply Hsubmit..| |done| | |].
  - simpl. destruct (jobs (impl w) !! id) as [job|]; [|done].
    pose proof (run_coordinator fuel job (impl w)) as (Hjc & _).
    destruct (run fuel job (impl w)) as [[[job' i'] out] ret]. simpl in *. by rewrite Hjc.
  - simpl. by destruct (wstep_coordinator a (impl w)) as (-> & _).
  - rewrite step_begin. destruct (pending w) eqn:Hp; [|by rewrite Hp].
    simpl. rewrite wrap_int_id by lia. specialize (Hidle eq_refl).
    split; [lia|]. unfold syncs, SYNCINTERVAL.
    destruct (bool_decide _ || _) eqn:Hdue; [done|]. intros _.
    apply orb_false_elim in Hdue as [_ Hne%Z.eqb_neq].
    rewrite wrap_int_id in Hne by lia. lia.
  - destruct (pending w) as [|[t env] rest] eqn:Hp; [simpl; rewrite Hp; by auto|].
    destruct (step_sync_coordinator w t env rest Hp) as (_ & _ & _ & ->).
    destruct (step_sync_staged w t env rest t Hp) as (_ & _ & _ & ->).
    destruct rest; [lia|]. split; [lia|done].
Qed.

Lemma index_ids_ok fuel input arguments mode i id i' out :
  (lastJobId i < INT_MAX)%Z →
  ids_ok i →
  index fuel input arguments mode i = Some (id, i', out) →
  ids_ok i'
  ∧ (lastJobId i ≤ lastJobId i' ≤ lastJobId i + 1)%Z
  ∧ (input ∉ indexing i → id = lastJobId i ∧ lastJobId i' = (id + 1)%Z).
Proof.
  intros Hmax [H0 Hjobs]. unfold index, INT_MAX in *.
  case_decide as Hin; [intros [= <- <- <-]; split; [done|split; [lia|done]]|].
  destruct fuel as [|fuel]; [done|]. simpl.
  rewrite decide_False.
  2:{ intros [job Hjob]. destruct (Hjobs _ _ Hjob). lia. }
  rewrite wrap_int_id by lia. intros [= <- <- <-]. simpl.
  split; [|split; [lia|done]]. split; simpl; [lia|].
  intros id job [[<- <-]|[_ Hjob]]%lookup_insert_Some; simpl; [split; [lia|done]|].
  destruct (Hjobs _ _ Hjob). split; [lia|done].
Qed.

Lemma step_ids_ok_section w e :
  is_section e →
  (lastJobId (impl w) < INT_MAX)%Z →
  ids_ok (impl w) →
  ids_ok (impl (step w e))
  ∧ (lastJobId (impl w) ≤ lastJobId (impl (step w e)) ≤ lastJobId (impl w) + 1)%Z
  ∧ (match e with EvIndex _ _ _ _ | EvReindex _ _ _ => False | _ => True end →
     lastJobId (impl (step w e)) = lastJobId (impl w)).
Proof.
  intros Hsec Hmax Hok.
  destruct e as [fuel input args mode|fuel fname mode|fuel id|env id fname|a
                |env id fname|]; [| | |done| | |].
  - simpl. destruct (pending w); [|split; [done|split; [lia|done]]].
    destruct (index _ _ _ _ _) as [[[id i'] out]|] eqn:Hi; simpl;
      [|split; [done|split; [lia|done]]].
    by destruct (index_ids_ok _ _ _ _ _ _ _ _ Hmax Hok Hi) as (? & ? & _).
  - simpl. destruct (pending w); [|split; [done|split; [lia|done]]].
    destruct (reindex _ _ _ _) as [[[id i'] out]|] eqn:Hr; simpl;
      [|split; [done|split; [lia|done]]].
    unfold reindex in Hr.
    destruct (resourceExists fname); simpl in Hr;
      [|simplify_eq; split; [done|split; [lia|done]]].
    destruct (resourceRead fname) as [|input data];
      [simplify_eq; split; [done|split; [lia|done]]|].
    destruct (isEmpty input); [simplify_eq; split; [done|split; [lia|done]]|].
    destruct (index _ _ _ _ _) as [[[id0 i0] out0]|] eqn:Hi; [|done]. simplify_eq.
    by destruct (index_ids_ok _ _ _ _ _ _ _ _ Hmax Hok Hi) as (? & ? & _).
  - simpl. destruct (jobs (impl w) !! id) as [job|]; [|split; [done|split; [lia|done]]].
    pose proof (run_coordinator fuel job (impl w)) as (_ & _ & _ & Hl & Hj).
    destruct (run fuel job (impl w)) as [[[job' i'] out] ret]. simpl in *.
    unfold ids_ok. rewrite Hl, Hj. split; [done|split; [lia|done]].
  - simpl. destruct (wstep_coordinator a (impl w)) as (_ & _ & _ & Hl).
    unfold ids_ok. rewrite Hl. split; [|split; [lia|done]].
    destruct Hok as [H0 Hjobs]. split; [done|].
    intros id job' (job & Hjob & _ & -> & _)%wstep_jobs. by apply Hjobs.
  - rewrite step_begin. destruct (pending w); [|split; [done|split; [lia|done]]].
    simpl. split; [|split; [lia|done]]. destruct Hok as [H0 Hjobs]. split; [done|].
    simpl. intros id' job [_ Hjob]%lookup_delete_Some. by apply Hjobs.
  - destruct (pending w) as [|[t env] rest] eqn:Hp.
    { simpl. rewrite Hp. split; [done|split; [lia|done]]. }
    destruct (step_sync_coordinator w t env rest Hp) as (Hl & _).
    destruct (step_sync_staged w t env rest t Hp) as (_ & Hj & _).
    unfold ids_ok. rewrite Hl, Hj. split; [done|split; [lia|done]].
Qed.

Lemma step_ids_ok w e :
  (lastJobId (impl w) < INT_MAX)%Z →
  ids_ok (impl w) →
  ids_ok (impl (step w e))
  ∧ (lastJobId (impl w) ≤ lastJobId (impl (step w e)) ≤ lastJobId (impl w) + 1)%Z.
Proof.
  intros Hmax Hok.
  destruct (section_or_jobDone e) as [Hsec|(env & id & fname & ->)].
  { by destruct (step_ids_ok_section w e Hsec Hmax Hok) as (? & ? & _). }
  destruct (pending w) as [|p rest] eqn:Hp; [|simpl; rewrite Hp; split; [done|lia]].
  rewrite step_jobDone_sections by done. cbn [foldl].
  assert (∀ w' e', is_section e' →
            match e' with EvIndex _ _ _ _ | EvReindex _ _ _ => False | _ => True end →
            ids_ok (impl w') ∧ lastJobId (impl w') = lastJobId (impl w) →
            ids_ok (impl (step w' e'))
            ∧ lastJobId (impl (step w' e')) = lastJobId (impl w)) as Hnext.
  { intros w' e' Hsec He' [Hok' Hl'].
    destruct (step_ids_ok_section w' e' Hsec) as (? & _ & Heq); [lia|done|].
    split; [done|]. rewrite Heq by done. done. }
  destruct (Hnext _ EvSync I I
             (Hnext _ EvSync I I
               (Hnext _ EvSync I I
                 (Hnext _ EvSync I I
                   (Hnext w (EvJobDoneBegin env id fname) I I (conj Hok eq_refl))))))
    as [? ->].
  split; [done|lia].
Qed.

Lemma after_ids_ok path es :
  startsWith path SLASH = true →
  (Z.of_nat (length es) < INT_MAX)%Z →
  ids_ok (impl (after path es))
  ∧ (lastJobId (impl (after path es)) ≤ Z.of_nat (length es))%Z.
Proof.
  intros Habs. induction es as [|e es IH] using rev_ind; intros Hlen.
  - unfold after, newIndexer. simpl. rewrite Habs. simpl.
    split; [|done]. split; [done|]. intros id job. simpl. by rewrite lookup_empty.
  - rewrite List.length_app in Hlen. simpl in Hlen.
    destruct IH as [Hok Hle]; [lia|].
    rewrite after_snoc, List.length_app. simpl.
    destruct (step_ids_ok (after path es) e) as [Hok' Hle']; [lia|done|].
    split; [done|lia].
Qed.

(** X8.  In a run of fewer than [INT_MAX] events of an indexer made with an
    absolute path the ids are handed out in sequence: [lastJobId] is at
    most the number of events, every recorded job carries the id it sits
    under, which is below [lastJobId], and the next admission takes
    [lastJobId] itself at the first probe. *)
Theorem X8_ids_in_sequence path es fuel input arguments mode :
  startsWith path SLASH = true →
  (Z.of_nat (length es) < INT_MAX)%Z →
  let i := impl (after path es) in
  (0 ≤ lastJobId i ≤ Z.of_nat (length es))%Z
  ∧ (∀ id job, jobs i !! id = Some job → (0 ≤ id < lastJobId i)%Z ∧ m_id job = id)
  ∧ (input ∉ indexing i →
     ∃ i' out, index (S fuel) input arguments mode i = Some (lastJobId i, i', out)
               ∧ lastJobId i' = (lastJobId i + 1)%Z).
Proof.
  intros Habs Hlen i.
  destruct (after_ids_ok path es Habs Hlen) as [[H0 Hjobs] Hle]. fold i in H0, Hjobs, Hle.
  split; [lia|]. split; [done|]. intros Hin.
  unfold index. rewrite decide_False by done. simpl.
  rewrite decide_False.
  2:{ intros [job Hjob]. destruct (Hjobs _ _ Hjob). lia. }
  eexists _, _. split; [done|]. simpl. unfold INT_MAX in Hlen. apply wrap_int_id. lia.
Qed.

Lemma syncData_frame env data type d name :
  (is_Some (d !! name) → is_Some ((syncData env data type d).1.2 !! name))
  ∧ ((∀ t, constData (databaseName t) ≠ name) →
     (syncData env data type d).1.2 !! name = d !! name).
Proof.
  destruct (opens env type) eqn:Hopen.
  - rewrite syncData_opened by done. simpl. split.
    + intros Hd. destruct (decide (constData (databaseName type) = name)) as [<-|Hne].
      * by rewrite lookup_insert_eq.
      * by rewrite lookup_insert_ne.
    + intros Hname. by rewrite lookup_insert_ne.
  - by rewrite syncData_closed.
Qed.

Lemma section_disk_frame w e name :
  is_section e →
  (is_Some (disk w !! name) → is_Some (disk (step w e) !! name))
  ∧ ((∀ t, constData (databaseName t) ≠ name) →
     disk (step w e) !! name = disk w !! name).
Proof.
  intros Hsec.
  destruct (step_disk w e Hsec) as [->|(t & env & rest & _ & ->)]; [done|].
  apply syncData_frame.
Qed.

(** X12.  No event removes a store or touches a place on the disk that is
    not the C string of the name of one of the four databases. *)
Theorem X12_disk_frame w e name :
  (is_Some (disk w !! name) → is_Some (disk (step w e) !! name))
  ∧ ((∀ t, constData (databaseName t) ≠ name) →
     disk (step w e) !! name = disk w !! name).
Proof.
  destruct (section_or_jobDone e) as [Hsec|(env & id & fname & ->)];
    [by apply section_disk_frame|].
  destruct (pending w) as [|p rest] eqn:Hp; [|simpl; by rewrite Hp].
  rewrite step_jobDone_sections by done. cbn [foldl].
  assert (∀ w' e', is_section e' →
            (is_Some (disk w !! name) → is_Some (disk w' !! name))
            ∧ ((∀ t, constData (databaseName t) ≠ name) → disk w' !! name = disk w !! name) →
            (is_Some (disk w !! name) → is_Some (disk (step w' e') !! name))
            ∧ ((∀ t, constData (databaseName t) ≠ name) →
               disk (step w' e') !! name = disk w !! name)) as Hnext.
  { intros w' e' Hsec [Hs Hn]. destruct (section_disk_frame w' e' name Hsec) as [Hs' Hn'].
    split; [by auto|]. intros Hname. by rewrite Hn', Hn. }
  by do 5 (apply Hnext; [done|]).
Qed.
End CoordinatorRuns.

(** ** The shared definitions and references over a run *)

Section StagedUsrs.
Context `{Externals}.

Lemma usrs_ok_wstep a i : usrs_ok i → usrs_ok (wstep a i).
Proof.
  intros (Hjobs & Hdefs & Hrefs).
  destruct a as [id inc|fuel id|id|id|id]; simpl;
    destruct (jobs i !! id) as [job|] eqn:Hjob; try done;
    destruct (Hjobs id job Hjob) as [Hjd Hjr].
  - destruct (sourceUnit job); [|done]. by case_bool_decide.
  - destruct (sourceUnit job) as [unit|]; [|done].
    destruct (addFilenameSymbol _ _ _); [|done].
    split; [|done]. simpl.
    intros id' job' [[_ <-]|[_ ?]]%lookup_insert_Some; [|by eauto]. simpl.
    by apply staged_ok_visit.
  - split; [|split; [by apply staged_ok_uniteSets|done]]. simpl.
    intros id' job' [[_ <-]|[_ ?]]%lookup_insert_Some; [|by eauto]. simpl.
    split; [apply staged_ok_empty|done].
  - split; [|split; [done|by apply staged_ok_uniteSets]]. simpl.
    intros id' job' [[_ <-]|[_ ?]]%lookup_insert_Some; [|by eauto]. simpl.
    split; [done|apply staged_ok_empty].
  - split; [|done]. simpl.
    intros id' job' [[_ <-]|[_ ?]]%lookup_insert_Some; [|by eauto]. done.
Qed.

Lemma usrs_ok_step w e : is_section e → usrs_ok (impl w) → usrs_ok (impl (step w e)).
Proof.
  intros Hsec Hinv. pose proof Hinv as (Hjobs & Hdefs & Hrefs).
  assert (match e with EvIndex _ _ _ _ | EvReindex _ _ _ => True | _ => False end →
          usrs_ok (impl (step w e))) as Hsubmit.
  { intros He.
    destruct (step_submit w e He)
      as (_ & _ & [->|(id & job & _ & Hjd & Hjr & _ & Hj & _ & Hd & Hr & _)]); [done|].
    unfold usrs_ok. rewrite Hj, Hd, Hr. split; [|done].
    intros id' job' [[_ <-]|[_ ?]]%lookup_insert_Some; [|by eauto].
    rewrite Hjd, Hjr. split; apply staged_ok_empty. }
  destruct e as [fuel input args mode|fuel fname mode|fuel id|env id fname|a
                |env id fname|]; [by apply Hsubmit..| |done| | |].
  - simpl. destruct (jobs (impl w) !! id) as [job|] eqn:Hjob; [|done].
    pose proof (run_coordinator fuel job (impl w)) as (_ & _ & _ & _ & Hj).
    pose proof (run_defs_refs fuel job (impl w)) as Hrun.
    destruct (run fuel job (impl w)) as [[[job' i'] out] ret]. simpl in *.
    unfold usrs_ok. rewrite Hj. split; [done|].
    destruct Hrun as [[-> ->]|(cursors & -> & ->)]; [done|].
    destruct (Hjobs id job Hjob) as [Hjd Hjr].
    destruct (staged_ok_visit cursors job Hjd Hjr) as [Hd' Hr'].
    split; by apply staged_ok_uniteSets.
  - by apply usrs_ok_wstep.
  - rewrite step_begin. destruct (pending w); [|done]. simpl.
    split; [|done]. simpl. intros id' job' [_ ?]%lookup_delete_Some. by eauto.
  - destruct (pending w) as [|[t env] rest] eqn:Hp; [simpl; by rewrite Hp|].
    destruct (step_sync_staged w t env rest Database.Definition_ Hp) as (Hd & Hj & _).
    destruct (step_sync_staged w t env rest Database.Reference Hp) as (Hr & _).
    cbn [stagedFor] in Hd, Hr. unfold usrs_ok. rewrite Hd, Hr, Hj.
    split; [done|].
    assert (∀ t', staged_ok (stagedFor t' (impl w)) →
                  staged_ok (if decide (t' = t)
                             then if opens env t then ∅ else stagedFor t (impl w)
                             else stagedFor t' (impl w))) as Hcase.
    { intros t' Ht'. destruct (decide (t' = t)) as [<-|_]; [|done].
      destruct (opens _ _); [apply staged_ok_empty|done]. }
    split; [apply (Hcase Database.Definition_)|apply (Hcase Database.Reference)]; done.
Qed.

Lemma after_usrs_ok path es : usrs_ok (impl (after path es)).
Proof.
  apply (after_ind_all_sections (fun w => usrs_ok (impl w))).
  - unfold usrs_ok, newIndexer. destruct (startsWith _ _); simpl;
      (split; [|split; apply staged_ok_empty]);
      intros id job Hjob; by rewrite lookup_empty in Hjob.
  - intros w e. apply usrs_ok_step.
Qed.

(** X19. In every run the shared definitions and references are keyed by
    usable USRs (not empty, not the bare prefix: what lines 264-265 assert)
    that hold no NUL byte, and every value is a cursor location, resolved
    file name, line and column. *)
Theorem X19_staged_usrs_and_locations path es :
  let i := impl (after path es) in
  ((∀ k, is_Some (defs i !! k) ∨ is_Some (refs i !! k) →
         k ≠ EmptyString ∧ k ≠ "c:"%string ∧ contains k NUL = false)
   ∧ (∀ k x, x ∈ at_key (defs i) k ∨ x ∈ at_key (refs i) k →
             ∃ cfile (line col : N),
               x = resolved (constData cfile) +:+ ":" +:+ pretty line
                   +:+ ":" +:+ pretty col)).
Proof.
  destruct (after_usrs_ok path es) as (_ & [Hkd Hvd] & [Hkr Hvr]).
  assert (∀ cfile line col,
            location cfile line col
            = resolved (constData cfile) +:+ ":" +:+ pretty line +:+ ":" +:+ pretty col)
    as Hloc.
  { intros. unfold location. by rewrite !app_assoc'. }
  simpl. split.
  - intros k [Hk|Hk]; [destruct (Hkd k Hk) as [[? ?] ?]|destruct (Hkr k Hk) as [[? ?] ?]];
      done.
  - intros k x [Hx|Hx];
      [destruct (Hvd k x Hx) as (f & l & c & ->)|destruct (Hvr k x Hx) as (f & l & c & ->)];
      exists f, l, c; apply Hloc.
Qed.
End StagedUsrs.

(** ** What a completion that syncs stores *)

Section Completion.
Context `{Externals}.

Lemma storeOf_syncData_other env data type disk t :
  distinct_stores → t ≠ type →
  storeOf (syncData env data type disk).1.2 t = storeOf disk t.
Proof.
  intros Hd Hne. rewrite storeOf_syncData.
  rewrite bool_decide_eq_false_2, andb_false_r; [done|].
  intros Heq. by apply Hne, Hd.
Qed.

(** The store of a category depends on the store alone. *)
Lemma storeOf_syncData_same env data type disk disk' :
  storeOf disk type = storeOf disk' type →
  storeOf (syncData env data type disk).1.2 type
  = storeOf (syncData env data type disk').1.2 type.
Proof. intros Heq. by rewrite !storeOf_syncData, Heq. Qed.

(** With distinct stores, what a whole [jobDone] that syncs leaves in the
    store of a category is what the sync of that category leaves there. *)
Lemma jobDone_storeOf env id fname w t :
  distinct_stores → pending w = [] → syncs id (impl w) = true →
  storeOf (disk (step w (EvJobDone env id fname))) t
  = storeOf (syncData (env t) (stagedFor t (impl w)) t (disk w)).1.2 t.
Proof.
  intros Hdist Hp Hsyncs. simpl. rewrite Hp.
  pose proof (jobDone_sync env id fname (impl w) (disk w)) as [_ Hs].
  rewrite Hsyncs in Hs. destruct Hs as (_ & _ & _ & _ & Hdisk).
  destruct (jobDone _ _ _ _ _) as [[i' d'] out]. simpl in *. subst d'.
  destruct t; cbn [stagedFor].
  - by do 3 (rewrite storeOf_syncData_other by done).
  - do 2 (rewrite storeOf_syncData_other by done).
    apply storeOf_syncData_same. by rewrite storeOf_syncData_other.
  - rewrite storeOf_syncData_other by done.
    apply storeOf_syncData_same. by do 2 (rewrite storeOf_syncData_other by done).
  - apply storeOf_syncData_same. by do 3 (rewrite storeOf_syncData_other by done).
Qed.

Lemma staged_nul_free path es t :
  t = Database.Definition_ ∨ t = Database.Reference →
  nul_free (stagedFor t (impl (after path es))).
Proof.
  destruct (after_usrs_ok path es) as (_ & [Hkd _] & [Hkr _]).
  intros [-> | ->] k Hk; simpl in Hk; [by apply Hkd|by apply Hkr].
Qed.

(** X27. Take a completion that syncs, when none is under way, and the
    Definition or the Reference store, which opens and commits.  Under a
    USR whose read succeeds, or under which nothing is staged, the store
    then holds what it held and the pieces of the locations staged there,
    and nothing else; with no line feed and no NUL byte in the staged
    locations, the stored set is the union of what was stored and what was
    staged.  Under a USR with staged locations whose read fails it holds
    the pieces of the staged locations and nothing else. *)
Theorem X27_completion_stores_locations path es env id fname t u :
  distinct_stores →
  t = Database.Definition_ ∨ t = Database.Reference →
  let w := after path es in
  let w' := step w (EvJobDone env id fname) in
  pending w = [] →
  syncs id (impl w) = true →
  opens (env t) t = true → write_ok (env t) = true →
  ((is_Some (stagedFor t (impl w) !! u) → read_ok (env t) u = true) →
   (∀ x, x ∈ stored (disk w') t u ↔
         x ∈ stored (disk w) t u
         ∨ ∃ v, v ∈ at_key (stagedFor t (impl w)) u ∧ x ∈ parse (constData v))
   ∧ ((∀ v, v ∈ at_key (stagedFor t (impl w)) u → plain v) →
      stored (disk w') t u = stored (disk w) t u ∪ at_key (stagedFor t (impl w)) u))
  ∧ (at_key (stagedFor t (impl w)) u ≠ ∅ → read_ok (env t) u = false →
     ∀ x, x ∈ stored (disk w') t u ↔
          ∃ v, v ∈ at_key (stagedFor t (impl w)) u ∧ x ∈ parse (constData v)).
Proof.
  intros Hdist Ht w w' Hidle Hsyncs Hopen Hwrite.
  pose proof (after_disk_ok path es) as Hok.
  pose proof (after_usrs_ok path es) as Husrs.
  pose proof (staged_nul_free path es t Ht) as Hnul.
  assert (∀ x, x ∈ stored (disk w') t u ↔
               x ∈ stored (syncData (env t) (stagedFor t (impl w)) t (disk w)).1.2 t u)
    as Hone.
  { intros x. unfold stored, w'. by rewrite jobDone_storeOf. }
  split.
  - intros Hread.
    assert (∀ x, x ∈ stored (disk w') t u ↔
                 x ∈ stored (disk w) t u
                 ∨ ∃ v, v ∈ at_key (stagedFor t (impl w)) u ∧ x ∈ parse (constData v))
      as Hiff.
    { intros x. rewrite Hone. by apply stored_syncData_iff. }
    split; [done|].
    intros Hplain. apply leibniz_equiv. intros x.
    rewrite Hiff, elem_of_union.
    apply or_iff_compat_l, pieces_plain.
    intros v Hv. split; [by apply Hplain|].
    destruct Husrs as (_ & [_ Hvd] & [_ Hvr]).
    destruct Ht as [-> | ->]; simpl in Hv.
    + destruct (Hvd u v Hv) as (f & l & c & ->). apply location_not_empty.
    + destruct (Hvr u v Hv) as (f & l & c & ->). apply location_not_empty.
  - intros Hne Hread x. rewrite Hone. by apply stored_syncData_unread.
Qed.
End Completion.

(** ** One file, from submission to the stores *)

Section SingleFile.
Context `{Externals}.

(** X28. One file through a fresh indexer: it is submitted and gets the
    first id (0 when the indexer was made with an absolute path), its job
    parses it from source and leaves the filename loop, and its completion
    syncs.  Then every cursor of the unit that is no access specifier, has
    a file name and a usable USR, its own or else the referenced one, has
    the pieces of its location in the Reference store under that USR, and a
    definition has them in the Definition store too, when that store opens
    and commits. *)
Theorem X28_indexed_cursor_is_stored path fuel input args mode unit env
    kind usr rusr cfile line col isDef name parent u t x :
  distinct_stores →
  cachedUnit input args (unitModeOf mode) = Some unit →
  origin unit = UnitCache_Source →
  is_Some (basenameIndex fuel (filename unit) (-1)) →
  Cursor kind usr rusr (Some cfile) line col isDef name parent ∈ children unit →
  kind ≠ CXCursor_CXXAccessSpecifier →
  constData cfile ≠ EmptyString →
  (usable (constData usr) ∧ u = constData usr)
  ∨ (¬ usable (constData usr) ∧ usable (constData rusr) ∧ u = constData rusr) →
  t = Database.Reference ∨ (t = Database.Definition_ ∧ isDef = true) →
  opens (env t) t = true → write_ok (env t) = true →
  x ∈ parse (constData (location cfile line col)) →
  let id := lastJobId (newIndexer path) in
  (startsWith path SLASH = true → id = 0%Z)
  ∧ x ∈ stored (disk (after path [EvIndex 1 input args mode; EvRun fuel id;
                                  EvJobDone env id input])) t u.
Proof.
  intros Hdist Hunit Horigin Hloop Hin Hkind Hfile Hu Ht Hopen Hwrite Hx id.
  rename path into root.
  split; [intros Habs; unfold id, newIndexer; by rewrite Habs|].
  change [EvIndex 1 input args mode; EvRun fuel id; EvJobDone env id input]
    with ([EvIndex 1 input args mode; EvRun fuel id] ++ [EvJobDone env id input])%list.
  rewrite after_snoc.
  set (es := [EvIndex 1 input args mode; EvRun fuel id]).
  set (i0 := newIndexer root).
  set (job := {| m_mode := mode; m_id := id; m_path := path i0; m_in := input;
                 m_args := args; m_defs := ∅; m_refs := ∅; m_syms := ∅ |}).
  set (i1 := {| jobCounter := jobCounter i0; indexing := ∅ ∪ {[input]};
                path := path i0;
                lastJobId := wrap_int (id + 1); jobs := <[id := job]> ∅;
                incs := ∅; defs := ∅; refs := ∅; syms := ∅ |}).
  assert (indexing i0 = ∅ ∧ jobs i0 = ∅ ∧ incs i0 = ∅ ∧ defs i0 = ∅ ∧ refs i0 = ∅
          ∧ syms i0 = ∅) as (Hi0 & Hj0 & Hinc0 & Hd0 & Hr0 & Hs0).
  { unfold i0, newIndexer. by destruct (startsWith _ _). }
  assert (impl (after root es) = (run fuel job i1).1.1.2
          ∧ pending (after root es) = []) as [Himpl Hidle].
  { assert (index 1 input args mode i0
            = Some (id, i1, [Connect id; PoolStart job])) as Hindex.
    { unfold index. rewrite Hi0, Hj0, Hinc0, Hd0, Hr0, Hs0.
      rewrite decide_False by set_solver. cbn [freeId].
      rewrite decide_False; [done|]. rewrite lookup_empty. by intros [? ?]. }
    unfold es, after. cbn [foldl]. fold i0.
    assert (step {| impl := i0; disk := ∅; pending := [] |} (EvIndex 1 input args mode)
            = {| impl := i1; disk := ∅; pending := [] |}) as ->.
    { cbn [step pending impl disk]. by rewrite Hindex. }
    cbn [step pending impl disk jobs i1]. rewrite lookup_insert_eq.
    by destruct (run fuel job i1) as [[[job' i'] out] ret]. }
  destruct (run_coordinator fuel job i1) as (_ & _ & _ & _ & Hjobs).
  destruct (run_from_source fuel job i1 unit Hunit Horigin Hloop) as [Hdefs Hrefs].
  destruct (visit_records (children unit) job _ _ _ _ _ _ _ _ _ u Hin Hkind Hfile Hu)
    as [Hr Hd].
  assert (t = Database.Definition_ ∨ t = Database.Reference) as Ht'
    by (destruct Ht as [->|[-> _]]; auto).
  unfold stored. rewrite jobDone_storeOf; [|done|done|].
  2:{ unfold syncs. rewrite Himpl, Hjobs. simpl. rewrite delete_insert_eq, delete_empty.
      done. }
  apply (stored_syncData_lower _ _ _ _ u (location cfile line col) x);
    [apply after_disk_ok|done|done|by apply staged_nul_free| |done].
  rewrite Himpl. destruct Ht as [->|[-> Hdef]]; simpl.
  - rewrite Hrefs. apply elem_of_uniteSets. by right.
  - rewrite Hdefs. apply elem_of_uniteSets. right. by apply Hd.
Qed.
End SingleFile.

(** ** Whole calls and their sections *)

Section WholeCalls.
Context `{Externals}.

Lemma foldl_inclusions job l incs0 :
  foldl (fun incs i => inclusionVisitor job i incs) incs0 l
  = foldl (fun incs inc => addInclusion job inc incs) incs0
      (l ≫= (fun i => included_file i :: inclusion_stack i)).
Proof.
  revert incs0. induction l as [|i l IH]; intros incs0; [done|].
  cbn [foldl mbind list_bind]. change (list_bind _ _ ?f l) with (l ≫= f).
  by rewrite foldl_app, IH.
Qed.

Lemma setShared_same i : setShared i (jobs i) (incs i) (defs i) (refs i) (syms i) = i.
Proof. by destruct i. Qed.

Lemma wstep_includes id job unit l i :
  jobs i !! id = Some job →
  sourceUnit job = Some unit →
  (∀ inc, inc ∈ l → inc ∈ reportedFiles unit) →
  foldl (fun i a => wstep a i) i (WInclude id <$> l)
  = setShared i (jobs i) (foldl (fun incs inc => addInclusion job inc incs) (incs i) l)
      (defs i) (refs i) (syms i).
Proof.
  intros Hjob Hunit. revert i Hjob.
  induction l as [|inc l IH]; intros i Hjob Hl; [by rewrite setShared_same|].
  cbn [fmap list_fmap foldl wstep]. rewrite Hjob, Hunit.
  rewrite bool_decide_eq_true_2 by (apply Hl; by left).
  change (list_fmap _ _ ?f l) with (f <$> l).
  rewrite IH; [done|done|]. intros inc' Hin. apply Hl. by right.
Qed.

Lemma foldl_workers w l :
  foldl step w (EvWorker <$> l)
  = {| impl := foldl (fun i a => wstep a i) (impl w) l; disk := disk w;
       pending := pending w |}.
Proof.
  revert w. induction l as [|a l IH]; intros w; [by destruct w|].
  cbn [fmap list_fmap foldl]. change (list_fmap _ _ ?f l) with (f <$> l).
  by rewrite IH.
Qed.

Lemma uniteSets_empty dst : uniteSets dst ∅ = (dst, ∅).
Proof. unfold uniteSets. by rewrite map_to_list_empty. Qed.

Lemma fresh_job job :
  m_defs job = ∅ → m_refs job = ∅ → m_syms job = ∅ → setMaps job ∅ ∅ ∅ = job.
Proof. destruct job. simpl. by intros -> -> ->. Qed.

(** X29. A whole [jobDone], entered when none is under way, is its head
    followed by the four syncs in their order, with nothing in between. *)
Theorem X29_jobDone_is_its_sections w env id filename :
  pending w = [] →
  step w (EvJobDone env id filename)
  = foldl step w [EvJobDoneBegin env id filename; EvSync; EvSync; EvSync; EvSync].
Proof. apply step_jobDone_sections. Qed.

Lemma wstep_visit i id job unit fuel syms' :
  jobs i !! id = Some job →
  sourceUnit job = Some unit →
  let job' := foldl (fun job c => indexVisitor c job) job (children unit) in
  addFilenameSymbol fuel (filename unit) (m_syms job') = Some syms' →
  wstep (WVisit fuel id) i
  = setShared i (<[id := setMaps job' (m_defs job') (m_refs job') syms']> (jobs i))
      (incs i) (defs i) (refs i) (syms i).
Proof.
  intros Hjob Hunit job' Hsym. subst job'. cbn [wstep].
  by rewrite Hjob, Hunit, Hsym.
Qed.

Lemma wstep_foldDefs i id job :
  jobs i !! id = Some job →
  wstep (WFoldDefs id) i
  = setShared i (<[id := setMaps job ∅ (m_refs job) (m_syms job)]> (jobs i))
      (incs i) (uniteSets (defs i) (m_defs job)).1 (refs i) (syms i).
Proof. intros Hjob. simpl. by rewrite Hjob. Qed.

Lemma wstep_foldRefs i id job :
  jobs i !! id = Some job →
  wstep (WFoldRefs id) i
  = setShared i (<[id := setMaps job (m_defs job) ∅ (m_syms job)]> (jobs i))
      (incs i) (defs i) (uniteSets (refs i) (m_refs job)).1 (syms i).
Proof. intros Hjob. simpl. by rewrite Hjob. Qed.

Lemma wstep_foldSyms i id job :
  jobs i !! id = Some job →
  wstep (WFoldSyms id) i
  = setShared i (<[id := setMaps job (m_defs job) (m_refs job) ∅]> (jobs i))
      (incs i) (defs i) (refs i) (uniteSets (syms i) (m_syms job)).1.
Proof. intros Hjob. simpl. by rewrite Hjob. Qed.

(** X30. A whole run of a job that [index] has just recorded, that is
    parsed from source and leaves the filename loop, is its sections in
    program order with nothing in between: one [addInclusion] for each
    file the inclusion walk reports, the cursor walk with the filename
    symbol, and the three folds. *)
Theorem X30_run_is_its_sections w fuel id job unit :
  jobs (impl w) !! id = Some job →
  m_defs job = ∅ → m_refs job = ∅ → m_syms job = ∅ →
  sourceUnit job = Some unit →
  is_Some (basenameIndex fuel (filename unit) (-1)) →
  step w (EvRun fuel id) = foldl step w (EvWorker <$> sectionsOf fuel id unit).
Proof.
  intros Hjob Hd Hr Hs Hunit [idx Hidx].
  rewrite foldl_workers. unfold sectionsOf. rewrite foldl_app.
  rewrite (wstep_includes id job unit) by done.
  set (incs' := foldl (fun incs inc => addInclusion job inc incs) (incs (impl w))
                  (reportedFiles unit)).
  set (job' := foldl (fun job c => indexVisitor c job) job (children unit)).
  assert (∃ syms', addFilenameSymbol fuel (filename unit) (m_syms job') = Some syms')
    as [syms' Hsym].
  { unfold addFilenameSymbol. rewrite Hidx. destruct (idx =? -1)%Z; eauto. }
  assert (step w (EvRun fuel id)
          = {| impl := setShared (impl w) (jobs (impl w)) incs'
                         (uniteSets (defs (impl w)) (m_defs job')).1
                         (uniteSets (refs (impl w)) (m_refs job')).1
                         (uniteSets (syms (impl w)) syms').1;
               disk := disk w; pending := pending w |}) as ->.
  { cbn [step]. rewrite Hjob. unfold run.
    change (match m_mode job with
            | Normal => Z.lor UnitCache_Source UnitCache_AST
            | Force => Z.lor (Z.lor UnitCache_Source UnitCache_AST) UnitCache_Force
            end) with (unitModeOf (m_mode job)).
    destruct (sourceUnit_cached job unit Hunit) as [Hcached Horigin].
    rewrite Hcached, decide_True by done. fold job'. rewrite Hsym.
    unfold uniteSets. cbn [fst snd]. rewrite foldl_inclusions. done. }
  assert (setMaps job' ∅ ∅ ∅ = job) as Hfresh.
  { destruct (visit_identity (children unit) job) as (Hid & Hin & Hargs & Hmode & Hpath).
    fold job' in Hid, Hin, Hargs, Hmode, Hpath.
    unfold setMaps. rewrite Hid, Hin, Hargs, Hmode, Hpath. by apply fresh_job. }
  f_equal. cbn [foldl].
  set (i1 := setShared (impl w) (jobs (impl w)) incs' (defs (impl w)) (refs (impl w))
               (syms (impl w))).
  rewrite (wstep_visit i1 id job unit fuel syms' Hjob Hunit Hsym). fold job'.
  clearbody job' incs'.
  erewrite wstep_foldDefs by apply lookup_insert_eq.
  erewrite wstep_foldRefs by apply lookup_insert_eq.
  erewrite wstep_foldSyms by apply lookup_insert_eq.
  unfold setShared, setMaps, i1. simpl.
  rewrite !insert_insert_eq. fold (setMaps job' ∅ ∅ ∅). rewrite Hfresh.
  by rewrite insert_id.
Qed.
End WholeCalls.

(** ** The claims at concrete inputs *)

Import Sample SampleRuns.
Local Abbreviation E := Sample.externals (only parsing).

Lemma sample_distinct_stores : @distinct_stores E.
Proof. intros [] [] Heq; try done; by vm_compute in Heq. Qed.

Lemma sample_paths_ok : @paths_ok E.
Proof.
  split; [intros s; apply constData_no_NUL|].
  intros input arguments unitMode unit. simpl. unfold units.
  repeat case_decide; intros [= <-]; reflexivity.
Qed.

Lemma fine_reads : reads fine.
Proof. intros key. reflexivity. Qed.

Lemma plain_staged_nul_free : nul_free plain_staged.
Proof.
  intros key [set Hkey]. unfold plain_staged in Hkey.
  apply lookup_singleton_Some in Hkey as [<- _]. reflexivity.
Qed.

Lemma indexed_reads_ok : Forall reads_ok indexed.
Proof. repeat constructor. Qed.

Lemma C1_monotonic_union_witness :
  Forall reads_ok (take 2 indexed ++ [EvJobDone sound 0 a_c])
  ∧ @stored E (disk (@after E "/db" (take 2 indexed))) Database.Reference "c:@F@foo"
    ⊆ @stored E (disk (@after E "/db" (take 2 indexed ++ [EvJobDone sound 0 a_c])))
        Database.Reference "c:@F@foo"
  ∧ @stored E (disk (@after E "/db" indexed)) Database.Reference "c:@F@foo"
    ⊆ @stored E (@syncData E fine foo_staged Database.Reference
                   (disk (@after E "/db" indexed))).1.2 Database.Reference "c:@F@foo".
Proof.
  destruct (@C1_monotonic_union E "/db" (take 2 indexed)) as [_ Hrun].
  destruct (@C1_monotonic_union E "/db" indexed) as [Hsync _].
  split; [exact indexed_reads_ok|]. split.
  - apply Hrun. exact indexed_reads_ok.
  - apply Hsync. apply reads_reads_at, fine_reads.
Defined.

(** /abs/a.c is indexed and synced, and at the completion of /abs/b.c, which
    calls [foo], the reads of the Reference store fail: the location in
    /abs/a.c was stored as a reference to [foo] and no longer is; the
    location in /abs/b.c is all that is stored there. *)
Lemma C1_failed_read_shrinks :
  let before := @after E "/db" (take 5 indexed_then_unread) in
  let w := @after E "/db" indexed_then_unread in
  ("/abs/a.c:1:5" ∈ @stored E (disk before) Database.Reference "c:@F@foo")
  ∧ ("/abs/a.c:1:5" ∉ @stored E (disk w) Database.Reference "c:@F@foo")
  ∧ @stored E (disk w) Database.Reference "c:@F@foo" = {[ "/abs/b.c:3:1" ]}.
Proof.
  split; [|split]; [apply (bool_decide_unpack _); by vm_compute..|].
  apply (bool_decide_unpack _). by vm_compute.
Qed.

Lemma C2_noop_skip_witness :
  foo_staged !! "c:@F@foo" = Some foo_locations
  ∧ syncEntry (read_ok fine)
      (@storeOf E (disk (@after E "/db" indexed)) Database.Definition_) []
      "c:@F@foo" foo_locations = []
  ∧ syncBatch (read_ok fine)
      (@storeOf E (disk (@after E "/db" indexed)) Database.Definition_)
      foo_staged = [].
Proof.
  assert (foo_staged !! "c:@F@foo" = Some foo_locations) as Hkey by (by vm_compute).
  assert (foo_locations
          ⊆ parse (held (@storeOf E (disk (@after E "/db" indexed)) Database.Definition_)
                     "c:@F@foo")) as Hsub
    by (apply (bool_decide_unpack _); by vm_compute).
  assert (read_ok fine "c:@F@foo" = true) as Hread by reflexivity.
  destruct (@C2_noop_skip E "/db" indexed Database.Definition_ _ fine _ _ Hkey Hsub Hread)
    as (_ & Hentry & Hall).
  split; [done|]. split; [apply Hentry|]. apply Hall.
  intros key' set' Hk. unfold foo_staged in Hk.
  apply lookup_singleton_Some in Hk as [<- <-]. by split.
Defined.

(** /abs/a.c is indexed and synced and then indexed again: what its second
    job stages for the Definition store is what is stored there.  When the
    read of the sync fails, the sync puts the staged set under the key all
    the same. *)
Lemma C2_put_after_failed_read :
  let w := @after E "/db" indexed_again in
  defs (impl w) !! "c:@F@foo" = Some foo_locations
  ∧ foo_locations ⊆ @stored E (disk w) Database.Definition_ "c:@F@foo"
  ∧ syncBatch (read_ok failingRead) (@storeOf E (disk w) Database.Definition_)
      (defs (impl w))
    = [("c:@F@foo", "/abs/a.c:1:5" +:+ String LF "")].
Proof.
  split; [by vm_compute|]. split; [apply (bool_decide_unpack _); by vm_compute|].
  by vm_compute.
Qed.

Lemma C3_jobDone_witness :
  (- 2 ^ 31 ≤ jobCounter (impl (@after E "/db" (take 2 indexed))) < INT_MAX)%Z
  ∧ jobs (@jobDone E sound 0 a_c (impl (@after E "/db" (take 2 indexed))) ∅).1.1
    = delete 0%Z (jobs (impl (@after E "/db" (take 2 indexed))))
  ∧ jobCounter (@jobDone E sound 0 a_c (impl (@after E "/db" (take 2 indexed))) ∅).1.1
    = 0%Z.
Proof.
  assert (- 2 ^ 31 ≤ jobCounter (impl (@after E "/db" (take 2 indexed))) < INT_MAX)%Z
    as Hrange by (by vm_compute).
  destruct (@C3_jobDone E sound 0 a_c _ ∅ Hrange) as (_ & Hjobs & _ & _ & _ & Hdue & _).
  split; [done|]. split; [exact Hjobs|].
  destruct Hdue as (_ & _ & _ & _ & _ & Hcounter & _); [left; by vm_compute|].
  exact Hcounter.
Defined.

Lemma C4_index_witness :
  (0 ≤ lastJobId (@newIndexer E "/db"))%Z
  ∧ ∃ id i' out,
      index 1 a_c [] Normal (@newIndexer E "/db") = Some (id, i', out)
      ∧ (id = (-1)%Z ↔ a_c ∈ indexing (@newIndexer E "/db"))
      ∧ jobs (@newIndexer E "/db") !! id = None.
Proof.
  assert (0 ≤ lastJobId (@newIndexer E "/db"))%Z as H0 by (by vm_compute).
  assert (lastJobId (@newIndexer E "/db")
          + Z.of_nat (size (jobs (@newIndexer E "/db"))) < INT_MAX)%Z
    as Hmax by (by vm_compute).
  assert (size (jobs (@newIndexer E "/db")) < 1) as Hfuel by (vm_compute; lia).
  destruct (C4_index 1 a_c [] Normal (@newIndexer E "/db") H0 Hmax Hfuel)
    as (id & i' & out & Heq & Hiff & _ & Hnew).
  split; [done|]. exists id, i', out. split; [done|]. split; [done|].
  apply Hnew. by vm_compute.
Defined.

Lemma C5_failed_commit_witness :
  isEmpty (@databaseName E Database.Include) = false
  ∧ (@syncData E failingCommit plain_staged Database.Include ∅).1.1 = ∅
  ∧ (@syncData E failingCommit plain_staged Database.Include ∅).2 = []
  ∧ held (@storeOf E (@syncData E failingCommit plain_staged Database.Include ∅).1.2
            Database.Include) "k" = held (@storeOf E ∅ Database.Include) "k".
Proof.
  assert (isEmpty (@databaseName E Database.Include) = false) as Hname by reflexivity.
  assert (open_ok failingCommit = true) as Hopen by reflexivity.
  destruct (@C5_failed_commit E failingCommit plain_staged Database.Include ∅ Hname Hopen)
    as (Hstaging & Hlog & Hlost).
  split; [done|]. split; [done|]. split; [done|]. by apply Hlost.
Defined.

(** At the failed commit of [plain_staged]: the staging map is empty, the
    store holds nothing under the key, and the call logged nothing, where
    the claim has the failure logged. *)
Lemma C5_failed_commit_not_logged :
  let r := @syncData E failingCommit plain_staged Database.Include ∅ in
  r.1.1 = ∅
  ∧ @stored E r.1.2 Database.Include "k" = ∅
  ∧ ¬ ∃ msg, qDebug msg ∈ r.2 ∨ qWarning msg ∈ r.2.
Proof.
  split; [by vm_compute|]. split; [by vm_compute|].
  intros (msg & [Hin|Hin]); vm_compute in Hin; by inversion Hin.
Qed.

Lemma C6_no_self_include_witness :
  ("/abs/a.h" ∉ at_key (incs (impl (@after E "/db" indexed))) "/abs/a.h")
  ∧ ("/abs/a.h" ∉ @stored E (disk (@after E "/db" indexed)) Database.Include "/abs/a.h")
  ∧ (a_c ∈ @stored E (disk (@after E "/db" indexed)) Database.Include "/abs/a.h").
Proof.
  destruct (@C6_no_self_include E "/db" indexed "/abs/a.h") as (_ & Hstaged & Hstored).
  split; [exact Hstaged|]. split.
  - apply Hstored.
    + exact sample_distinct_stores.
    + intros s. apply constData_no_NUL.
    + repeat (constructor; try (by vm_compute)).
  - apply (bool_decide_unpack _). by vm_compute.
Defined.

(** /abs/b.h is submitted for indexing and is included by a source whose
    path holds a line feed: after the sync the Include store holds /abs/b.h
    under /abs/b.h. *)
Lemma C6_self_include_through_line_feed :
  (b_h ∈ indexed_line_feed ≫= @submitted E)
  ∧ (b_h ∉ at_key (incs (impl (@after E "/db" (take 5 indexed_line_feed)))) b_h)
  ∧ (b_h ∈ @stored E (disk (@after E "/db" indexed_line_feed)) Database.Include b_h).
Proof.
  split; [|split]; apply (bool_decide_unpack _); by vm_compute.
Qed.





(** Every store behaves, and the job of /abs/a.c has folded its definitions
    and not yet its references when the tenth completion of other jobs
    syncs: the location of [foo] is a stored definition and not a stored
    reference, with no [jobDone] under way.  When the job has gone on and
    completed, it is a stored reference too. *)
Example definition_without_reference_between_folds :
  let w := @after E "/db" folds_split in
  let w' := @after E "/db" folds_split_completed in
  ("/abs/a.c:1:5" ∈ @stored E (disk w) Database.Definition_ "c:@F@foo")
  ∧ ("/abs/a.c:1:5" ∉ @stored E (disk w) Database.Reference "c:@F@foo")
  ∧ pending w = []
  ∧ ("/abs/a.c:1:5" ∈ @stored E (disk w') Database.Reference "c:@F@foo").
Proof.
  split; [|split; [|split]];
    [apply (bool_decide_unpack _); by vm_compute..|reflexivity|
     apply (bool_decide_unpack _); by vm_compute].
Qed.

(** The reads of the Reference store fail at a later completion: the
    location of [foo] stays a stored definition and is no longer a stored
    reference. *)
Example definition_without_reference_after_failed_read :
  let w := @after E "/db" indexed_then_unread in
  ("/abs/a.c:1:5" ∈ @stored E (disk w) Database.Definition_ "c:@F@foo")
  ∧ ("/abs/a.c:1:5" ∉ @stored E (disk w) Database.Reference "c:@F@foo").
Proof. split; apply (bool_decide_unpack _); by vm_compute. Qed.

Lemma C9_reindex_witness :
  @resourceExists E a_c = true
  ∧ @reindex E 1 a_c Normal (@newIndexer E "/db")
    = (fun r : Z * IndexerImpl * list Effect =>
         (r.1.1, r.1.2, [qDebug "trying to reindex"; qDebug "reindexing"] ++ r.2))
      <$> index 1 a_c ["-I/abs"] Normal (@newIndexer E "/db")
  ∧ ∃ out, @reindex E 1 b_h Normal (@newIndexer E "/db")
           = Some ((-1)%Z, @newIndexer E "/db", out).
Proof.
  assert (@resourceExists E a_c = true) as Hexists by reflexivity.
  assert (@resourceRead E a_c = a_c :: ["-I/abs"]) as Hread by reflexivity.
  assert (a_c ≠ EmptyString) as Hne by done.
  destruct (@C9_reindex E 1 a_c Normal (@newIndexer E "/db")) as [_ Hdelegates].
  destruct (@C9_reindex E 1 b_h Normal (@newIndexer E "/db")) as [Hrejects _].
  split; [done|]. split; [by apply Hdelegates|].
  apply Hrejects. left. reflexivity.
Defined.

Lemma C10_frame_witness :
  (@paths_ok E
   ∧ defs (impl (@after E "/db" (take 2 indexed))) !! "c:@F@bar" = None)
  ∧ defs (impl (@after E "/db" (take 2 indexed))) = foo_staged
  ∧ @storeOf E (@syncData E fine (defs (impl (@after E "/db" (take 2 indexed))))
                  Database.Definition_ (disk (@after E "/db" (take 2 indexed)))).1.2
      Database.Definition_ !! "c:@F@bar"
    = @storeOf E (disk (@after E "/db" (take 2 indexed))) Database.Definition_
        !! "c:@F@bar".
Proof.
  assert (defs (impl (@after E "/db" (take 2 indexed))) !! "c:@F@bar" = None) as Habsent
    by (by vm_compute).
  destruct (@C10_frame E "/db" (take 2 indexed) Database.Definition_ fine "c:@F@bar")
    as [_ Hrun].
  destruct (Hrun sample_paths_ok) as [_ Hframe].
  destruct (Hframe Habsent) as [_ Hkept].
  split; [split; [exact sample_paths_ok|exact Habsent]|].
  split; [by vm_compute|]. apply (Hkept Database.Definition_).
Defined.

(** ** The further properties at concrete inputs *)

Lemma X1_parse_serialise_witness :
  parse (serialise (elements foo_locations)) = foo_locations.
Proof.
  apply X1_parse_serialise. intros x Hx. unfold foo_locations in Hx.
  apply elem_of_singleton in Hx as ->. by vm_compute.
Defined.

Lemma X2_stores_hold_serialised_lists_witness :
  contains "c:@F@foo" NUL = false
  ∧ contains ("/abs/a.c:1:5" +:+ String LF "") NUL = false
  ∧ ∃ l, l ≠ [] ∧ "/abs/a.c:1:5" +:+ String LF "" = serialise l.
Proof.
  apply (@X2_stores_hold_serialised_lists E "/db" indexed "/db/Definition"
           (@storeOf E (disk (@after E "/db" indexed)) Database.Definition_)
           "c:@F@foo"); by vm_compute.
Defined.

Lemma X3_stored_elements_are_plain_witness :
  ("/abs/a.c:1:5" ∈ @stored E (disk (@after E "/db" indexed)) Database.Reference "c:@F@foo")
  ∧ "/abs/a.c:1:5" ≠ EmptyString
  ∧ contains "/abs/a.c:1:5" LF = false ∧ contains "/abs/a.c:1:5" NUL = false.
Proof.
  assert ("/abs/a.c:1:5"
          ∈ @stored E (disk (@after E "/db" indexed)) Database.Reference "c:@F@foo")
    as Hin by (apply (bool_decide_unpack _); by vm_compute).
  split; [done|].
  exact (@X3_stored_elements_are_plain E "/db" indexed Database.Reference "c:@F@foo" _ Hin).
Defined.

Lemma call_staged_nul_free : nul_free {[ "c:@F@foo" := ({[ "/abs/b.c:3:1" ]} : gset string) ]}.
Proof.
  intros key [set Hkey]. apply lookup_singleton_Some in Hkey as [<- _]. reflexivity.
Qed.

Lemma X4_sync_stores_the_union_witness :
  (@opens E fine Database.Reference = true
   ∧ read_ok fine "c:@F@foo" = true ∧ read_ok failingRead "c:@F@foo" = false)
  ∧ @stored E (@syncData E fine {[ "c:@F@foo" := {[ "/abs/b.c:3:1" ]} ]}
                 Database.Reference (disk (@after E "/db" indexed))).1.2
      Database.Reference "c:@F@foo"
    = @stored E (disk (@after E "/db" indexed)) Database.Reference "c:@F@foo"
      ∪ at_key {[ "c:@F@foo" := {[ "/abs/b.c:3:1" ]} ]} "c:@F@foo"
  ∧ @stored E (@syncData E failingRead {[ "c:@F@foo" := {[ "/abs/b.c:3:1" ]} ]}
                 Database.Reference (disk (@after E "/db" indexed))).1.2
      Database.Reference "c:@F@foo"
    = at_key {[ "c:@F@foo" := {[ "/abs/b.c:3:1" ]} ]} "c:@F@foo".
Proof.
  assert (∀ v, v ∈ at_key ({[ "c:@F@foo" := {[ "/abs/b.c:3:1" ]} ]}
                             : gmap string (gset string)) "c:@F@foo" →
               plain v ∧ v ≠ EmptyString) as Hplain.
  { intros v Hv. apply elem_of_at_key in Hv as (set & Hkey & Hv).
    apply lookup_singleton_Some in Hkey as [_ <-].
    apply elem_of_singleton in Hv as ->. by vm_compute. }
  assert (at_key ({[ "c:@F@foo" := {[ "/abs/b.c:3:1" ]} ]} : gmap string (gset string))
            "c:@F@foo" ≠ ∅) as Hne.
  { unfold at_key. rewrite lookup_singleton_eq. simpl. set_solver. }
  destruct (@X4_sync_stores_the_union E "/db" indexed fine
              {[ "c:@F@foo" := {[ "/abs/b.c:3:1" ]} ]} Database.Reference "c:@F@foo"
              eq_refl eq_refl call_staged_nul_free) as [Hread _].
  destruct (@X4_sync_stores_the_union E "/db" indexed failingRead
              {[ "c:@F@foo" := {[ "/abs/b.c:3:1" ]} ]} Database.Reference "c:@F@foo"
              eq_refl eq_refl call_staged_nul_free) as [_ Hunread].
  split; [by repeat split|]. split.
  - by apply (proj2 (Hread (fun _ => eq_refl))).
  - by apply (proj2 (Hunread Hne eq_refl)).
Defined.

Lemma X5_second_sync_writes_nothing_witness :
  (@opens E failingRead Database.Include = true
   ∧ read_ok fine "k" = true)
  ∧ syncBatch (read_ok fine)
      (@storeOf E (@syncData E failingRead plain_staged Database.Include
                     (disk (@after E "/db" indexed))).1.2 Database.Include)
      plain_staged = [].
Proof.
  split; [by split|].
  apply (@X5_second_sync_writes_nothing E "/db" indexed failingRead fine
           plain_staged Database.Include); [reflexivity|reflexivity|..].
  - exact plain_staged_nul_free.
  - intros key v Hv. apply elem_of_at_key in Hv as (set & Hkey & Hv).
    unfold plain_staged in Hkey. apply lookup_singleton_Some in Hkey as [<- <-].
    apply elem_of_singleton in Hv as ->. by vm_compute.
  - intros key _. reflexivity.
Defined.

Lemma X6_quiescent_sync_witness :
  delete 0%Z (jobs (impl (@after E "/db" (take 2 indexed)))) = ∅
  ∧ refs (@jobDone E sound 0 a_c (impl (@after E "/db" (take 2 indexed))) ∅).1.1 = ∅
  ∧ jobCounter (@jobDone E sound 0 a_c (impl (@after E "/db" (take 2 indexed))) ∅).1.1
    = 0%Z.
Proof.
  assert (delete 0%Z (jobs (impl (@after E "/db" (take 2 indexed)))) = ∅) as Hlast
    by (by vm_compute).
  destruct (@X6_quiescent_sync E sound 0 a_c _ ∅ Hlast) as (_ & _ & Hrefs & _ & Hcounter).
  split; [done|]. split; [exact Hrefs|exact Hcounter].
Defined.

Lemma X7_jobCounter_bounded_witness :
  (startsWith "/db" SLASH = true ∧ pending (@after E "/db" folds_split) = [])
  ∧ (0 ≤ jobCounter (impl (@after E "/db" folds_split)) < SYNCINTERVAL)%Z.
Proof.
  assert (startsWith "/db" SLASH = true) as Habs by reflexivity.
  assert (pending (@after E "/db" folds_split) = []) as Hidle by reflexivity.
  destruct (@X7_jobCounter_bounded E "/db" folds_split Habs) as [[H0 _] Hbelow].
  split; [by split|]. split; [exact H0|exact (Hbelow Hidle)].
Defined.

(** An indexer made with a path that is not absolute starts from whatever
    its two counters held. *)
Example relative_path_counters :
  jobCounter (@newIndexer E "db") = 12345%Z ∧ lastJobId (@newIndexer E "db") = (-7)%Z
  ∧ path (@newIndexer E "db") = "".
Proof. by vm_compute. Qed.

(** In the middle of the [jobDone] that syncs, the counter is at
    [SYNCINTERVAL]. *)
Example counter_at_interval_while_syncing :
  let w := @after E "/db" (take 35 folds_split
                           ++ [EvJobDoneBegin sound 10 b_h; EvSync; EvSync]) in
  jobCounter (impl w) = SYNCINTERVAL ∧ length (pending w) = 2.
Proof. by vm_compute. Qed.

Lemma X8_ids_in_sequence_witness :
  (startsWith "/db" SLASH = true ∧ (Z.of_nat (length indexed) < INT_MAX)%Z)
  ∧ (0 ≤ lastJobId (impl (@after E "/db" indexed)) ≤ Z.of_nat (length indexed))%Z
  ∧ ∃ i' out,
      index 1 b_h [] Normal (impl (@after E "/db" indexed))
      = Some (lastJobId (impl (@after E "/db" indexed)), i', out)
      ∧ lastJobId i' = (lastJobId (impl (@after E "/db" indexed)) + 1)%Z.
Proof.
  assert (startsWith "/db" SLASH = true) as Habs by reflexivity.
  assert (Z.of_nat (length indexed) < INT_MAX)%Z as Hlen by (by vm_compute).
  destruct (@X8_ids_in_sequence E "/db" indexed 0 b_h [] Normal Habs Hlen)
    as (Hlast & _ & Hnext).
  split; [by split|]. split; [exact Hlast|]. apply Hnext.
  apply (bool_decide_unpack _). by vm_compute.
Defined.

Lemma X9_index_least_free_id_witness :
  jobs (@newIndexer E "/db") !! 0%Z = None
  ∧ (lastJobId (@newIndexer E "/db") ≤ 0
     ≤ lastJobId (@newIndexer E "/db")
       + Z.of_nat (size (jobs (@newIndexer E "/db"))))%Z
  ∧ m_id <$> jobs (impl (@after E "/db" [EvIndex 1 a_c [] Normal])) !! 0%Z = Some 0%Z.
Proof.
  assert (0 ≤ lastJobId (@newIndexer E "/db"))%Z as H0 by (by vm_compute).
  assert (lastJobId (@newIndexer E "/db")
          + Z.of_nat (size (jobs (@newIndexer E "/db"))) < INT_MAX)%Z
    as Hmax by (by vm_compute).
  assert (a_c ∉ indexing (@newIndexer E "/db")) as Hnew
    by (apply (bool_decide_unpack _); by vm_compute).
  assert (index 1 a_c [] Normal (@newIndexer E "/db")
          = Some (0%Z, impl (@after E "/db" [EvIndex 1 a_c [] Normal]),
                  [Connect 0;
                   PoolStart {| m_mode := Normal; m_id := 0; m_path := "/db"; m_in := a_c;
                                m_args := []; m_defs := ∅; m_refs := ∅; m_syms := ∅ |}]))
    as Hindex by (by vm_compute).
  destruct (X9_index_least_free_id 1 a_c [] Normal (@newIndexer E "/db") _ _ _
              H0 Hmax Hnew Hindex) as (Hfree & Hrange & _ & Hid).
  split; [exact Hfree|]. split; [exact Hrange|exact Hid].
Defined.

Lemma X10_one_job_per_input_witness :
  index 1 a_c ["-I/abs"] Force (impl (@after E "/db" [EvIndex 1 a_c [] Normal]))
  = Some ((-1)%Z, impl (@after E "/db" [EvIndex 1 a_c [] Normal]), [])
  ∧ (a_c ∉ indexing (@jobDone E sound 0 a_c
                       (impl (@after E "/db" [EvIndex 1 a_c [] Normal])) ∅).1.1).
Proof.
  assert (a_c ∉ indexing (@newIndexer E "/db")) as Hnew
    by (apply (bool_decide_unpack _); by vm_compute).
  assert (index 1 a_c [] Normal (@newIndexer E "/db")
          = Some (0%Z, impl (@after E "/db" [EvIndex 1 a_c [] Normal]),
                  [Connect 0;
                   PoolStart {| m_mode := Normal; m_id := 0; m_path := "/db"; m_in := a_c;
                                m_args := []; m_defs := ∅; m_refs := ∅; m_syms := ∅ |}]))
    as Hindex by (by vm_compute).
  destruct (@X10_one_job_per_input E 1 a_c [] Normal (@newIndexer E "/db") _ _ _
              Hnew Hindex) as (Hagain & _ & Hdone).
  split; [apply Hagain|]. apply (Hdone sound ∅).
Defined.

Lemma X11_reindex_rejects_witness :
  ∃ id i' out,
    @reindex E 1 b_h Normal (@newIndexer E "/db") = Some (id, i', out)
    ∧ (id = (-1)%Z ↔
       @resourceExists E b_h = false
       ∨ @resourceRead E b_h = []
       ∨ ∃ input data, @resourceRead E b_h = input :: data
                       ∧ (input = EmptyString ∨ input ∈ indexing (@newIndexer E "/db"))).
Proof.
  apply (@X11_reindex_rejects E 1 b_h Normal (@newIndexer E "/db")).
  - by vm_compute.
  - by vm_compute.
  - vm_compute. lia.
Defined.

Lemma X17_indexVisitor_records_witness :
  m_refs (@indexVisitor E foo SampleRoot.root_job) = foo_staged
  ∧ m_defs (@indexVisitor E foo SampleRoot.root_job) = foo_staged.
Proof.
  assert (CXCursor_OtherKind ≠ CXCursor_CXXAccessSpecifier) as Hkind by done.
  assert (constData a_c ≠ EmptyString) as Hfile by done.
  assert ((usable (constData "c:@F@foo") ∧ "c:@F@foo" = constData "c:@F@foo")
          ∨ (¬ usable (constData "c:@F@foo") ∧ usable (constData "")
             ∧ "c:@F@foo" = constData "")) as Hu
    by (left; split; [split; by vm_compute|reflexivity]).
  destruct (@X17_indexVisitor_records E CXCursor_OtherKind "c:@F@foo" "" a_c 1 5 true
              (Some "foo()")
              (Cursor CXCursor_TranslationUnit "" "" None 0 0 false (Some a_c) NullCursor)
              SampleRoot.root_job "c:@F@foo" Hkind Hfile Hu) as (Hrefs & Hdefs & _).
  split.
  - etrans; [exact Hrefs|]. by vm_compute.
  - etrans; [exact Hdefs|]. by vm_compute.
Defined.

Lemma X18_indexVisitor_skips_witness :
  @indexVisitor E
    (Cursor CXCursor_CXXAccessSpecifier "c:@S@A" "" (Some a_c) 2 1 false (Some "public")
       NullCursor) SampleRoot.root_job
  = SampleRoot.root_job.
Proof. apply (@X18_indexVisitor_skips E). left. reflexivity. Defined.

Lemma X20_addFilenameSymbol_basename_witness :
  addFilenameSymbol 1 "/abs/a.c" ∅ = Some (hash_insert ∅ "a.c" "/abs/a.c").
Proof.
  apply (X20_addFilenameSymbol_basename 0 "/ab" "s" "a.c" ∅).
  - by vm_compute.
  - by vm_compute.
Defined.

Lemma X21_addFilenameSymbol_no_slash_witness :
  addFilenameSymbol 1 "a.c" foo_staged = Some foo_staged.
Proof. apply X21_addFilenameSymbol_no_slash. by vm_compute. Defined.

Lemma X22_addFilenameSymbol_root_loops_witness :
  addFilenameSymbol 1000 (String BACKSLASH "/a.c") ∅ = None.
Proof. apply (X22_addFilenameSymbol_root_loops 1000 1 "a.c" ∅). by vm_compute. Defined.

Lemma X23_addFilenameSymbol_adds_suffix_witness :
  hash_insert ∅ "a.c" "/abs/a.c" = ∅
  ∨ ∃ dir base, "/abs/a.c" = dir +:+ base
                ∧ hash_insert ∅ "a.c" "/abs/a.c" = hash_insert ∅ base "/abs/a.c".
Proof.
  apply (X23_addFilenameSymbol_adds_suffix 1 "/abs/a.c" ∅). by vm_compute.
Defined.

Lemma X25_run_hangs_on_root_file_witness :
  (@run SampleRoot.externals 1000 SampleRoot.root_job
     (@newIndexer SampleRoot.externals "/db")).2 = false
  ∧ List.filter isDone
      (@run SampleRoot.externals 1000 SampleRoot.root_job
         (@newIndexer SampleRoot.externals "/db")).1.2 = [].
Proof.
  destruct (@X25_run_hangs_on_root_file SampleRoot.externals 1000 SampleRoot.root_job
              (@newIndexer SampleRoot.externals "/db") SampleRoot.root_unit 0 "a.c")
    as (Hret & Hdone & _); [by vm_compute..|].
  split; [exact Hret|exact Hdone].
Defined.

Lemma X27_completion_stores_locations_witness :
  (pending (@after E "/db" (take 5 indexed_then_unread)) = []
   ∧ @syncs 1 (impl (@after E "/db" (take 5 indexed_then_unread))) = true)
  ∧ (∀ x,
       x ∈ @stored E (disk (@after E "/db" (take 5 indexed_then_unread ++
                                              [EvJobDone sound 1 b_c])))
             Database.Reference "c:@F@foo"
       ↔ x ∈ @stored E (disk (@after E "/db" (take 5 indexed_then_unread)))
               Database.Reference "c:@F@foo"
         ∨ ∃ v, v ∈ at_key (refs (impl (@after E "/db" (take 5 indexed_then_unread))))
                      "c:@F@foo"
                ∧ x ∈ parse (constData v))
  ∧ (∀ x,
       x ∈ @stored E (disk (@after E "/db" indexed_then_unread))
             Database.Reference "c:@F@foo"
       ↔ ∃ v, v ∈ at_key (refs (impl (@after E "/db" (take 5 indexed_then_unread))))
                    "c:@F@foo"
              ∧ x ∈ parse (constData v)).
Proof.
  assert (pending (@after E "/db" (take 5 indexed_then_unread)) = []) as Hidle
    by reflexivity.
  assert (syncs 1 (impl (@after E "/db" (take 5 indexed_then_unread))) = true) as Hsyncs
    by (by vm_compute).
  assert (at_key (refs (impl (@after E "/db" (take 5 indexed_then_unread)))) "c:@F@foo"
          ≠ ∅) as Hne.
  { assert ("/abs/b.c:3:1"
            ∈ at_key (refs (impl (@after E "/db" (take 5 indexed_then_unread))))
                "c:@F@foo") as Hin by (apply (bool_decide_unpack _); by vm_compute).
    intros Hempty. rewrite Hempty in Hin. by apply not_elem_of_empty in Hin. }
  destruct (@X27_completion_stores_locations E "/db" (take 5 indexed_then_unread)
              sound 1 b_c Database.Reference "c:@F@foo" sample_distinct_stores
              (or_intror eq_refl) Hidle Hsyncs eq_refl eq_refl) as [Hread _].
  destruct (@X27_completion_stores_locations E "/db" (take 5 indexed_then_unread)
              referenceUnread 1 b_c Database.Reference "c:@F@foo" sample_distinct_stores
              (or_intror eq_refl) Hidle Hsyncs eq_refl eq_refl) as [_ Hunread].
  split; [by split|]. split.
  - rewrite after_snoc. exact (proj1 (Hread (fun _ => eq_refl))).
  - exact (Hunread Hne eq_refl).
Defined.

Lemma X28_indexed_cursor_is_stored_witness :
  "/abs/a.c:1:5"
  ∈ @stored E (disk (@after E "/db" [EvIndex 1 a_c [] Normal; EvRun 1 0;
                                    EvJobDone sound 0 a_c]))
      Database.Definition_ "c:@F@foo".
Proof.
  apply (@X28_indexed_cursor_is_stored E "/db" 1 a_c [] Normal
           {| filename := a_c; origin := 1; diagnostics := [];
              inclusions := [ {| included_file := a_c; inclusion_stack := [] |};
                              {| included_file := "/abs/a.h";
                                 inclusion_stack := [a_c] |} ];
              children := [foo] |}
           sound CXCursor_OtherKind "c:@F@foo" "" a_c 1 5 true (Some "foo()")
           (Cursor CXCursor_TranslationUnit "" "" None 0 0 false (Some a_c) NullCursor)
           "c:@F@foo" Database.Definition_ "/abs/a.c:1:5").
  - exact sample_distinct_stores.
  - by vm_compute.
  - reflexivity.
  - eexists. by vm_compute.
  - apply list_elem_of_here.
  - done.
  - done.
  - left. split; [split; by vm_compute|reflexivity].
  - right. by split.
  - reflexivity.
  - reflexivity.
  - apply (bool_decide_unpack _). by vm_compute.
Defined.

Lemma X29_jobDone_is_its_sections_witness :
  pending (@after E "/db" (take 2 indexed)) = []
  ∧ @after E "/db" indexed
    = @after E "/db" (take 2 indexed
                      ++ [EvJobDoneBegin sound 0 a_c; EvSync; EvSync; EvSync; EvSync]).
Proof.
  assert (pending (@after E "/db" (take 2 indexed)) = []) as Hidle by reflexivity.
  split; [done|].
  change indexed with (take 2 indexed ++ [EvJobDone sound 0 a_c])%list.
  unfold after. rewrite !foldl_app.
  exact (@X29_jobDone_is_its_sections E _ sound 0 a_c Hidle).
Defined.

Lemma X30_run_is_its_sections_witness :
  jobs (impl (@after E "/db" (take 1 indexed))) !! 0%Z
  = Some {| m_mode := Normal; m_id := 0; m_path := "/db"; m_in := a_c; m_args := [];
            m_defs := ∅; m_refs := ∅; m_syms := ∅ |}
  ∧ @after E "/db" (take 2 indexed)
    = @after E "/db"
        (take 1 indexed
         ++ (EvWorker <$> [WInclude 0 a_c; WInclude 0 "/abs/a.h"; WInclude 0 a_c;
                           WVisit 1 0; WFoldDefs 0; WFoldRefs 0; WFoldSyms 0])).
Proof.
  assert (jobs (impl (@after E "/db" (take 1 indexed))) !! 0%Z
          = Some {| m_mode := Normal; m_id := 0; m_path := "/db"; m_in := a_c;
                    m_args := []; m_defs := ∅; m_refs := ∅; m_syms := ∅ |}) as Hjob
    by (by vm_compute).
  split; [exact Hjob|].
  change (take 2 indexed) with (take 1 indexed ++ [EvRun 1 0])%list.
  unfold after. rewrite !foldl_app.
  refine (@X30_run_is_its_sections E _ 1 0 _
            {| filename := a_c; origin := 1; diagnostics := [];
               inclusions := [ {| included_file := a_c; inclusion_stack := [] |};
                               {| included_file := "/abs/a.h";
                                  inclusion_stack := [a_c] |} ];
               children := [foo] |} Hjob eq_refl eq_refl eq_refl _ _).
  - by vm_compute.
  - eexists. by vm_compute.
Defined.
